(** * Bedrock-Agent-Optimizer: response cache, predictive router, chain runner

    A shallow embedding of [src/config.py], [src/router.py], [src/cache.py]
    and [src/agent_wrapper.py], and the properties of the specification
    checked against it.

    Conventions of the embedding.
    - Python [float]s are exact rationals ([Q]); a quotient of two integers
      is kept in lowest terms ([Qred]) so that equal numbers are equal terms.
      Rounding errors of binary floating point are not modelled.
    - Python [str] is [string]; a [dict] whose order is observable (the
      transition table, a [Counter], a payload) is an association list in
      insertion order; a [dict] used only as a map is a [gmap]; the
      dictionary of a step's result, whose keys are fixed, is a record.
    - A call that can raise returns a [result]; stateful code threads the
      state explicitly and keeps the state reached when an exception is
      raised, as Python does.
    - Redis, Bedrock, the clocks and the thread pool are outside the
      repository: an [Env] gives their answers, a [World] their state.
      The pool is sequentialised: a warm-up probe is sent when it is
      submitted. *)

From Stdlib Require Import ZArith QArith Qround List String Ascii Lia Bool Arith.
From Stdlib Require Import DecimalString Sorted Lqa.
From Stdlib Require Import DecimalZ DecimalPos Permutation.
From stdpp Require Import base option gmap strings.
Import ListNotations.
Close Scope Q_scope.
Open Scope string_scope.
Open Scope nat_scope.

(** ** Exceptions and results *)

Inductive exn : Type :=
| ConnectionError      (* redis: the store cannot be reached *)
| ResponseError        (* redis: the store rejects the request *)
| ClientError          (* boto3: the agent invocation failed *)
| TimeoutError         (* concurrent.futures: the future is not done in time *)
| ZeroDivisionError
| IndexError
| KeyError.

Inductive result (A : Type) : Type :=
| Ok (a : A)
| Raise (e : exn).
Arguments Ok {A} a.
Arguments Raise {A} e.

Definition is_ok {A} (r : result A) : bool :=
  match r with Ok _ => true | Raise _ => false end.

(** ** Insertion-ordered dictionaries

    [d.get(k)], and the update [d[k] = f(d.get(k))] which keeps the position
    of an existing key and appends a new key at the end. *)

Section Dict.
Context {V : Type}.

Fixpoint dict_get (k : string) (d : list (string * V)) : option V :=
  match d with
  | [] => None
  | (k', v) :: d' => if String.eqb k k' then Some v else dict_get k d'
  end.

Fixpoint dict_upd (k : string) (f : option V -> V) (d : list (string * V))
  : list (string * V) :=
  match d with
  | [] => [(k, f None)]
  | (k', v) :: d' =>
      if String.eqb k k' then (k', f (Some v)) :: d'
      else (k', v) :: dict_upd k f d'
  end.

Definition dict_keys (d : list (string * V)) : list string := map fst d.
End Dict.

(** ** [src/config.py] *)

Record OptimizerConfig : Type := mkConfig {
  redis_host : string;
  redis_port : Z;
  cache_ttl : Z;
  prediction_threshold : Q;
  aws_region : string;
  agent_ids : list string
}.

(** The field defaults when none of the environment variables is set;
    [str.split] of the empty string gives one empty identifier. *)
Definition default_config : OptimizerConfig :=
  {| redis_host := "localhost";
     redis_port := 6379;
     cache_ttl := 300;
     prediction_threshold := (7 # 10)%Q;
     aws_region := "us-east-1";
     agent_ids := [""] |}.

(** ** [src/router.py] *)

Module Router.

(** [collections.Counter]: successor agent -> number of observations. *)
Definition Counter : Type := list (string * nat).

Record PredictiveRouter : Type := mkRouter {
  config : OptimizerConfig;
  _transitions : list (string * Counter);
  _total_traces : nat
}.

(** [PredictiveRouter.__init__] *)
Definition init (cfg : OptimizerConfig) : PredictiveRouter :=
  {| config := cfg; _transitions := []; _total_traces := 0 |}.

(** [c[to_agent] += 1]: a missing key of a Counter reads as 0 *)
Definition counter_incr (to_agent : string) (c : Counter) : Counter :=
  dict_upd to_agent (fun o => S (default 0 o)) c.

(** [self._transitions[from_agent][to_agent] += 1]: the [defaultdict]
    creates an empty Counter for a source agent it has not seen. *)
Definition record_transition (from_agent to_agent : string)
           (r : PredictiveRouter) : PredictiveRouter :=
  {| config := config r;
     _transitions :=
       dict_upd from_agent (fun o => counter_incr to_agent (default [] o))
                (_transitions r);
     _total_traces := S (_total_traces r) |}.

(** [for i in range(len(agent_sequence) - 1):
       self.record_transition(agent_sequence[i], agent_sequence[i + 1])];
    both indices are within the sequence. *)
Definition ingest_trace (agent_sequence : list string)
           (r : PredictiveRouter) : PredictiveRouter :=
  fold_left
    (fun r i => record_transition (nth i agent_sequence "")
                                  (nth (i + 1) agent_sequence "") r)
    (seq 0 (length agent_sequence - 1)) r.

(** [max(items, key=itemgetter(1))]: the running best is replaced only by
    a strictly larger count, so the first maximal item wins. *)
Fixpoint max_by_count (best : string * nat) (items : list (string * nat))
  : string * nat :=
  match items with
  | [] => best
  | x :: rest =>
      if snd best <? snd x then max_by_count x rest
      else max_by_count best rest
  end.

(** [Counter.most_common(1)], which is [heapq.nlargest(1, items, key)] *)
Definition most_common_1 (c : Counter) : list (string * nat) :=
  match c with
  | [] => []
  | x :: rest => [max_by_count x rest]
  end.

(** [sum(counts.values())] *)
Definition counter_total (c : Counter) : nat :=
  fold_right (fun kv acc => snd kv + acc) 0 c.

Definition predict_next (current_agent : string) (r : PredictiveRouter)
  : result (option string * Q) :=
  match dict_get current_agent (_transitions r) with
  | None => Ok (None, 0%Q)
  | Some [] => Ok (None, 0%Q)
  | Some counts =>
      let total := counter_total counts in
      match most_common_1 counts with
      | [] => Raise IndexError
      | (best_agent, best_count) :: _ =>
          if total =? 0 then Raise ZeroDivisionError
          else
            let confidence :=
              Qred (Z.of_nat best_count # Pos.of_nat total) in
            if Qle_bool (prediction_threshold (config r)) confidence
            then Ok (Some best_agent, confidence)
            else Ok (None, confidence)
      end
  end.

(** [return agent_id if agent_id else None]: the empty identifier is
    falsy and is returned as [None]. *)
Definition should_preload (current_agent : string) (r : PredictiveRouter)
  : result (option string) :=
  match predict_next current_agent r with
  | Raise e => Raise e
  | Ok (Some agent_id, _) =>
      Ok (if String.eqb agent_id "" then None else Some agent_id)
  | Ok (None, _) => Ok None
  end.

Record RouterStats : Type := mkRouterStats {
  total_traces : nat;
  known_agents : list string;
  transition_pairs : nat
}.

Definition stats (r : PredictiveRouter) : RouterStats :=
  {| total_traces := _total_traces r;
     known_agents := dict_keys (_transitions r);
     transition_pairs :=
       fold_right (fun kc acc => length (snd kc) + acc) 0 (_transitions r) |}.

(** *** Derived notions used to state the properties *)

(** The Counter of [a], empty when [a] has never been a source. *)
Definition counts_of (r : PredictiveRouter) (a : string) : Counter :=
  default [] (dict_get a (_transitions r)).

(** [TransitionTable[a][b]], 0 when the pair was never observed. *)
Definition count_of (r : PredictiveRouter) (a b : string) : nat :=
  default 0 (dict_get b (counts_of r a)).

(** The operations a client can perform on a router. *)
Inductive op : Type :=
| RecordTransition (from_agent to_agent : string)
| IngestTrace (agent_sequence : list string)
| PredictNext (current_agent : string)
| ShouldPreload (current_agent : string)
| Stats.

(** The state after one operation; the three queries only read. *)
Definition apply_op (r : PredictiveRouter) (o : op) : PredictiveRouter :=
  match o with
  | RecordTransition a b => record_transition a b r
  | IngestTrace s => ingest_trace s r
  | PredictNext _ | ShouldPreload _ | Stats => r
  end.

Definition run_ops (ops : list op) (r : PredictiveRouter) : PredictiveRouter :=
  fold_left apply_op ops r.

(** The [record_transition] calls an operation makes, in order. *)
Definition calls_of_op (o : op) : list (string * string) :=
  match o with
  | RecordTransition a b => [(a, b)]
  | IngestTrace s =>
      map (fun i => (nth i s "", nth (i + 1) s "")) (seq 0 (length s - 1))
  | PredictNext _ | ShouldPreload _ | Stats => []
  end.

Definition calls_of (ops : list op) : list (string * string) :=
  flat_map calls_of_op ops.

(** The successors recorded after [a], in the order of the calls. *)
Definition successors (a : string) (calls : list (string * string))
  : list string :=
  map snd (List.filter (fun c => String.eqb (fst c) a) calls).

(** Position of the first occurrence of [b]; [length l] when absent. *)
Fixpoint index_of (b : string) (l : list string) : nat :=
  match l with
  | [] => 0
  | x :: l' => if String.eqb b x then 0 else S (index_of b l')
  end.

(** Every stored count is at least one, as [record_transition] makes it. *)
Definition wf (r : PredictiveRouter) : Prop :=
  Forall (fun kc => Forall (fun kv => 1 <= snd kv) (snd kc)) (_transitions r).

End Router.

(** ** Library functions the cache key is built from *)

(** [hashlib.sha256(...).hexdigest()] (FIPS 180-4), on 32-bit words kept
    in [Z] with the wrap-around written out. *)
Module SHA256.
Open Scope Z_scope.

Definition wrap (x : Z) : Z := x mod 2 ^ 32.
Definition rotr (n x : Z) : Z :=
  Z.lor (Z.shiftr x n) (wrap (Z.shiftl x (32 - n))).
Definition xor3 (x y z : Z) : Z := Z.lxor (Z.lxor x y) z.
Definition Ch (x y z : Z) : Z :=
  Z.lxor (Z.land x y) (Z.land (Z.lxor x 0xffffffff) z).
Definition Maj (x y z : Z) : Z :=
  xor3 (Z.land x y) (Z.land x z) (Z.land y z).
Definition Sigma0 (x : Z) : Z := xor3 (rotr 2 x) (rotr 13 x) (rotr 22 x).
Definition Sigma1 (x : Z) : Z := xor3 (rotr 6 x) (rotr 11 x) (rotr 25 x).
Definition sigma0 (x : Z) : Z := xor3 (rotr 7 x) (rotr 18 x) (Z.shiftr x 3).
Definition sigma1 (x : Z) : Z := xor3 (rotr 17 x) (rotr 19 x) (Z.shiftr x 10).

(** The constants of the standard are fractional parts of roots of the
    first primes, 32 bits of each. *)
Definition is_prime (p : nat) : bool :=
  forallb (fun d => negb (Nat.eqb (Nat.modulo p d) 0)) (seq 2 (p - 2)).

Definition primes (count : nat) : list Z :=
  map Z.of_nat (firstn count (List.filter is_prime (seq 2 320))).

(** The largest [r] below [2 ^ bits] with [r ^ 3 <= n], one bit at a time
    from the top. *)
Fixpoint cube_root (bits : nat) (n r : Z) : Z :=
  match bits with
  | O => r
  | S b =>
      let r' := r + 2 ^ Z.of_nat b in
      cube_root b n (if r' * r' * r' <=? n then r' else r)
  end.

(** Cube roots of the first 64 primes. *)
Definition K : list Z :=
  Eval vm_compute in
    map (fun p => wrap (cube_root 40 (p * 2 ^ 96) 0)) (primes 64).

(** Square roots of the first 8 primes. *)
Definition H0 : list Z :=
  Eval vm_compute in map (fun p => wrap (Z.sqrt (p * 2 ^ 64))) (primes 8).

(** Big-endian bytes of [x], [n] of them. *)
Fixpoint be_bytes (n : nat) (x : Z) : list Z :=
  match n with
  | O => []
  | S n' => Z.shiftr x (8 * Z.of_nat n') mod 256 :: be_bytes n' x
  end.

Definition pad (msg : list Z) : list Z :=
  let len := Z.of_nat (length msg) in
  msg ++ [0x80] ++ repeat 0 (Z.to_nat ((55 - len) mod 64))
      ++ be_bytes 8 (8 * len).

Definition word_of (bs : list Z) : Z :=
  fold_left (fun acc b => acc * 256 + b) bs 0.

(** Cut a list into pieces of [n] elements; [fuel] bounds the number of
    pieces. *)
Fixpoint chunks {A} (fuel n : nat) (l : list A) : list (list A) :=
  match fuel with
  | O => []
  | S fuel' =>
      match l with
      | [] => []
      | _ => firstn n l :: chunks fuel' n (skipn n l)
      end
  end.

(** The message schedule: [w] holds W_0 .. W_(t-1); add [n] more words. *)
Fixpoint schedule (n : nat) (w : list Z) : list Z :=
  match n with
  | O => w
  | S n' =>
      let t := length w in
      let at_ k := nth (t - k) w 0 in
      schedule n'
        (w ++ [wrap (sigma1 (at_ 2%nat) + at_ 7%nat
                     + sigma0 (at_ 15%nat) + at_ 16%nat)])
  end.

Definition round (s : list Z) (kw : Z * Z) : list Z :=
  match s with
  | [a; b; c; d; e; f; g; h] =>
      let t1 := h + Sigma1 e + Ch e f g + fst kw + snd kw in
      let t2 := Sigma0 a + Maj a b c in
      [wrap (t1 + t2); a; b; c; wrap (d + t1); e; f; g]
  | _ => s
  end.

Definition compress (h : list Z) (block : list Z) : list Z :=
  let w := schedule 48 (map word_of (chunks 16 4 block)) in
  let s := fold_left round (combine K w) h in
  map (fun p => wrap (fst p + snd p)) (combine h s).

Definition digest (msg : list Z) : list Z :=
  let p := pad msg in
  flat_map (be_bytes 4) (fold_left compress (chunks (length p) 64 p) H0).

Definition hex_digit (d : Z) : ascii :=
  nth (Z.to_nat d) (list_ascii_of_string "0123456789abcdef") "0"%char.

Definition hex_of_byte (b : Z) : string :=
  String (hex_digit (b / 16)) (String (hex_digit (b mod 16)) EmptyString).

Definition bytes_of_string (s : string) : list Z :=
  map (fun c => Z.of_nat (nat_of_ascii c)) (list_ascii_of_string s).

Definition hexdigest (s : string) : string :=
  fold_right (fun b acc => hex_of_byte b +:+ acc) "" (digest (bytes_of_string s)).
End SHA256.

(** [json.dumps] of text, with [ensure_ascii=True]: the quote and the
    backslash are escaped, the usual control characters have short escapes
    and every other character outside [' ' .. '~'] is written [\u00xx].
    Text is limited to code points below 256. *)
Module Json.
Definition dquote : string := String (ascii_of_nat 34) EmptyString.

Definition escape_char (c : ascii) : string :=
  let n := nat_of_ascii c in
  if n =? 34 then "\" +:+ dquote
  else if n =? 92 then "\\"
  else if n =? 10 then "\n"
  else if n =? 13 then "\r"
  else if n =? 9 then "\t"
  else if n =? 8 then "\b"
  else if n =? 12 then "\f"
  else if (32 <=? n) && (n <=? 126) then String c EmptyString
  else "\u00" +:+ SHA256.hex_of_byte (Z.of_nat n).

Fixpoint escape (s : string) : string :=
  match s with
  | EmptyString => ""
  | String c s' => escape_char c +:+ escape s'
  end.

Definition quote (s : string) : string := dquote +:+ escape s +:+ dquote.
End Json.

(** ** Numbers as Python prints and rounds them *)

(** [str(n)] for an integer *)
Definition str_of_int (n : Z) : string :=
  NilZero.string_of_int (Z.to_int n).

(** [int(x)] for a float: truncation towards zero *)
Definition int_of_float (x : Q) : Z := Z.quot (Qnum x) (Z.pos (Qden x)).

(** [round(x, ndigits)]: to the nearest multiple of [10 ^ -ndigits], a tie
    going to the even neighbour.  The code rounds the double it has
    computed; here the exact value is rounded, which can differ from the
    code's result by one unit of the last digit kept when the double is
    not the exact value.  Statements about rounded numbers are kept to
    what holds for both. *)
Definition py_round (x : Q) (ndigits : nat) : Q :=
  let scale := (10 ^ Z.of_nat ndigits)%Z in
  let y := (x * inject_Z scale)%Q in
  let lo := Qfloor y in
  let twice_frac := ((y - inject_Z lo) * inject_Z 2)%Q in
  let n :=
    if Qle_bool 1 twice_frac then
      if Qeq_bool twice_frac 1 then (if Z.even lo then lo else lo + 1)%Z
      else (lo + 1)%Z
    else lo in
  Qred (n # Z.to_pos scale).

(** ** The world outside the process

    The Redis server, the Bedrock agent runtime, the clocks and the thread
    pool are not part of the repository.  What they answer is given by an
    [Env]; what they hold is a [World]. *)

(** A chain step's result: [{"agent_id", "output", "timestamp"}], with
    ["latency_ms"] once [run_chain] has added it. *)
Record AgentResult : Type := mkResult {
  agent_id : string;
  output : string;
  timestamp : Q;
  latency_ms : option Q
}.

(** The keyword arguments of [invoke_agent]. *)
Record Call : Type := mkCall {
  agentId : string;
  agentAliasId : string;
  sessionId : string;
  inputText : string
}.

(** The streamed answer: [{"completion": [{"chunk": {"bytes": ...}}, ...]}],
    every key optional.  A chunk carries its text; decoding it from UTF-8
    is outside the model. *)
Record Chunk : Type := mkChunk { bytes : option string }.
Record Event : Type := mkEvent { chunk : option Chunk }.
Record Response : Type := mkResponse { completion : option (list Event) }.

(** Who sent a call to Bedrock: the chain itself or a warm-up probe. *)
Inductive origin : Type := Real | Probe.

Record Env : Type := mkEnv {
  (** value of the n-th reading of [time.time()], in seconds *)
  wall_clock : nat -> Q;
  (** value of the n-th reading of [time.monotonic()] *)
  monotonic_clock : nat -> Q;
  (** the time, on the clock of the store, of the n-th request to it *)
  store_time : nat -> Q;
  (** the exception, if any, that the n-th request to the store raises *)
  store_fault : nat -> option exn;
  (** the agent's answer to a call, which may depend on all it has been
      sent before and on who sends it *)
  agent_reply : list (origin * Call) -> origin -> Call -> result Response;
  (** whether the n-th future waited for is done within the second *)
  future_ready : nat -> bool
}.

Record World : Type := mkWorld {
  (** how many times each clock has been read *)
  clock_reads : nat;
  monotonic_reads : nat;
  (** how many requests the store has received, how many futures were
      waited for *)
  store_requests : nat;
  waits : nat;
  (** Redis: key -> (stored response, time of expiry).  The stored text
      is represented by the response it is the JSON of. *)
  redis : gmap string (AgentResult * Q);
  (** everything sent to Bedrock, oldest first *)
  sent : list (origin * Call)
}.

(** Interactions with the world: [W A] may raise and changes the world. *)
Definition W (A : Type) : Type := World -> result A * World.

Definition set_redis (m : gmap string (AgentResult * Q)) (w : World) : World :=
  {| clock_reads := clock_reads w; monotonic_reads := monotonic_reads w;
     store_requests := store_requests w; waits := waits w;
     redis := m; sent := sent w |}.

Definition count_request (w : World) : World :=
  {| clock_reads := clock_reads w; monotonic_reads := monotonic_reads w;
     store_requests := S (store_requests w); waits := waits w;
     redis := redis w; sent := sent w |}.

Definition count_clock (w : World) : World :=
  {| clock_reads := S (clock_reads w); monotonic_reads := monotonic_reads w;
     store_requests := store_requests w; waits := waits w;
     redis := redis w; sent := sent w |}.

Definition count_monotonic (w : World) : World :=
  {| clock_reads := clock_reads w; monotonic_reads := S (monotonic_reads w);
     store_requests := store_requests w; waits := waits w;
     redis := redis w; sent := sent w |}.

Definition count_wait (w : World) : World :=
  {| clock_reads := clock_reads w; monotonic_reads := monotonic_reads w;
     store_requests := store_requests w; waits := S (waits w);
     redis := redis w; sent := sent w |}.

Definition log_sent (who : origin) (c : Call) (w : World) : World :=
  {| clock_reads := clock_reads w; monotonic_reads := monotonic_reads w;
     store_requests := store_requests w; waits := waits w;
     redis := redis w; sent := (sent w ++ [(who, c)])%list |}.

(** The calls of the chain itself among all that Bedrock was sent. *)
Definition real_only (h : list (origin * Call)) : list Call :=
  map snd (List.filter
             (fun c => match fst c with Real => true | Probe => false end) h).

Definition real_calls (w : World) : list Call := real_only (sent w).

(** What the store holds under [key] at the time [now]: the entry,
    unless it has expired. *)
Definition live_entry (now : Q) (key : string) (w : World)
  : option AgentResult :=
  match redis w !! key with
  | Some (value, expiry) => if Qle_bool expiry now then None else Some value
  | None => None
  end.

Section WorldOps.
Variable env : Env.

Definition time_time : W Q :=
  fun w => (Ok (wall_clock env (clock_reads w)), count_clock w).

Definition time_monotonic : W Q :=
  fun w => (Ok (monotonic_clock env (monotonic_reads w)), count_monotonic w).

(** [client.get(key)] *)
Definition redis_get (key : string) : W (option AgentResult) :=
  fun w =>
    match store_fault env (store_requests w) with
    | Some e => (Raise e, count_request w)
    | None =>
        (Ok (live_entry (store_time env (store_requests w)) key w),
         count_request w)
    end.

(** [client.setex(key, ttl, value)]; Redis rejects a time to live that
    is not positive. *)
Definition redis_setex (key : string) (ttl : Z) (value : AgentResult)
  : W unit :=
  fun w =>
    match store_fault env (store_requests w) with
    | Some e => (Raise e, count_request w)
    | None =>
        if (ttl <=? 0)%Z then (Raise ResponseError, count_request w)
        else
          let now := store_time env (store_requests w) in
          (Ok tt,
           set_redis (<[key := (value, (now + inject_Z ttl)%Q)]> (redis w))
                     (count_request w))
    end.

(** [self._bedrock.invoke_agent(...)] *)
Definition invoke_agent (who : origin) (c : Call) : W Response :=
  fun w => (agent_reply env (sent w) who c, log_sent who c w).
End WorldOps.

(** A [concurrent.futures.Future] holds what its task returned or raised. *)
Record Future : Type := mkFuture { outcome : result unit }.

Section Pool.
Variable env : Env.

(** [executor.submit(task)].  The task is run when it is submitted: the
    answers of [agent_reply] may use or ignore what a probe has sent,
    which covers every moment at which the pool could run it. *)
Definition executor_submit (task : W unit) : W Future :=
  fun w => let (r, w') := task w in (Ok {| outcome := r |}, w').

(** [future.result(timeout=1)] *)
Definition future_result (f : Future) : W unit :=
  fun w =>
    if future_ready env (waits w) then (outcome f, count_wait w)
    else (Raise TimeoutError, count_wait w).
End Pool.

(** ** Methods: state of the object, world, exceptions *)

Definition M (S A : Type) : Type := S -> World -> result A * S * World.

Definition ret {S A} (a : A) : M S A := fun s w => (Ok a, s, w).

Definition raise {S A} (e : exn) : M S A := fun s w => (Raise e, s, w).

Definition bind {S A B} (m : M S A) (k : A -> M S B) : M S B :=
  fun s w =>
    match m s w with
    | (Ok a, s', w') => k a s' w'
    | (Raise e, s', w') => (Raise e, s', w')
    end.

(** [try: m  except Exception: h] *)
Definition catch {S A} (m : M S A) (h : exn -> M S A) : M S A :=
  fun s w =>
    match m s w with
    | (Ok a, s', w') => (Ok a, s', w')
    | (Raise e, s', w') => h e s' w'
    end.

Definition get_self {S} : M S S := fun s w => (Ok s, s, w).

Definition modify {S} (f : S -> S) : M S unit := fun s w => (Ok tt, f s, w).

Definition lift {S A} (m : W A) : M S A :=
  fun s w => let (r, w') := m w in (r, s, w').

Definition of_result {S A} (r : result A) : M S A := fun s w => (r, s, w).

(** Run a method of a component held in a field. *)
Definition zoom {S T A} (proj : S -> T) (inj : T -> S -> S) (m : M T A)
  : M S A :=
  fun s w => let '(r, t, w') := m (proj s) w in (r, inj t s, w').

Notation "x <- c ;; k" := (bind c (fun x => k))
  (at level 100, c at next level, right associativity).
Notation "c ;; k" := (bind c (fun _ => k))
  (at level 100, right associativity).

(** ** [src/cache.py] *)

Module Cache.

Record AgentResponseCache : Type := mkCache {
  config : OptimizerConfig;
  _hits : nat;
  _misses : nat
}.

(** [AgentResponseCache.__init__]; the Redis client it creates is the
    connection to the store of the [World]. *)
Definition init (cfg : OptimizerConfig) : AgentResponseCache :=
  {| config := cfg; _hits := 0; _misses := 0 |}.

(** [sort_keys=True] *)
Fixpoint insert_by_key (kv : string * string) (l : list (string * string))
  : list (string * string) :=
  match l with
  | [] => [kv]
  | x :: l' =>
      if String.leb (fst kv) (fst x) then kv :: l
      else x :: insert_by_key kv l'
  end.

Definition sort_keys (d : list (string * string)) : list (string * string) :=
  fold_right insert_by_key [] d.

Fixpoint join (sep : string) (l : list string) : string :=
  match l with
  | [] => EmptyString
  | [x] => x
  | x :: l' => x +:+ sep +:+ join sep l'
  end.

(** [json.dumps(d, sort_keys=True)] for a dictionary of texts *)
Definition dumps_dict (d : list (string * string)) : string :=
  "{" +:+ join ", "
            (map (fun kv => Json.quote (fst kv) +:+ ": " +:+ Json.quote (snd kv))
                 (sort_keys d))
      +:+ "}".

(** [json.dumps({"agent_id": .., "payload": .., "context": context or {}},
    sort_keys=True)], then the digest *)
Definition _build_key (agent_id : string) (payload : list (string * string))
           (context : option (list (string * string))) : string :=
  let raw :=
    "{" +:+ Json.quote "agent_id" +:+ ": " +:+ Json.quote agent_id
        +:+ ", " +:+ Json.quote "context" +:+ ": "
        +:+ dumps_dict (default [] context)
        +:+ ", " +:+ Json.quote "payload" +:+ ": " +:+ dumps_dict payload
        +:+ "}" in
  "bedrock_cache:" +:+ SHA256.hexdigest raw.

Definition count_hit (c : AgentResponseCache) : AgentResponseCache :=
  {| config := config c; _hits := S (_hits c); _misses := _misses c |}.

Definition count_miss (c : AgentResponseCache) : AgentResponseCache :=
  {| config := config c; _hits := _hits c; _misses := S (_misses c) |}.

Section Methods.
Variable env : Env.

Definition get (agent_id : string) (payload : list (string * string))
           (context : option (list (string * string)))
  : M AgentResponseCache (option AgentResult) :=
  let key := _build_key agent_id payload context in
  cached <- lift (redis_get env key) ;;
  match cached with
  | Some response => modify count_hit ;; ret (Some response)
  | None => modify count_miss ;; ret None
  end.

Definition put (agent_id : string) (payload : list (string * string))
           (response : AgentResult)
           (context : option (list (string * string)))
  : M AgentResponseCache unit :=
  let key := _build_key agent_id payload context in
  self <- get_self ;;
  lift (redis_setex env key (cache_ttl (config self)) response).
End Methods.

(** [self._hits / total if total > 0 else 0.0]; the quotient is exact
    here, and the nearest double in the code. *)
Definition hit_rate (c : AgentResponseCache) : Q :=
  let total := _hits c + _misses c in
  if 0 <? total then Qred (Z.of_nat (_hits c) # Pos.of_nat total) else 0%Q.

Record CacheStats : Type := mkCacheStats {
  hits : nat;
  misses : nat;
  stats_hit_rate : Q
}.

Definition stats (c : AgentResponseCache) : CacheStats :=
  {| hits := _hits c;
     misses := _misses c;
     stats_hit_rate := py_round (hit_rate c) 3 |}.

(** A lookup request: the arguments of one call of [get]. *)
Record Lookup : Type := mkLookup {
  l_agent : string;
  l_payload : list (string * string);
  l_context : option (list (string * string))
}.

(** A sequence of [get] calls made one after the other; an exception
    ends the sequence, as it does for a caller that does not catch it. *)
Fixpoint get_all (env : Env) (reqs : list Lookup)
  : M AgentResponseCache (list (option AgentResult)) :=
  match reqs with
  | [] => ret []
  | q :: reqs' =>
      r <- get env (l_agent q) (l_payload q) (l_context q) ;;
      rs <- get_all env reqs' ;;
      ret (r :: rs)
  end.

End Cache.

(** ** [src/agent_wrapper.py] *)

Module Optimizer.

Record BedrockAgentOptimizer : Type := mkOptimizer {
  config : OptimizerConfig;
  cache : Cache.AgentResponseCache;
  router : Router.PredictiveRouter;
  _preloaded : gmap string Future
}.

(** [BedrockAgentOptimizer.__init__]: [config or OptimizerConfig()]; the
    Bedrock client and the thread pool it creates belong to the
    [World]. *)
Definition init (config : option OptimizerConfig) : BedrockAgentOptimizer :=
  let cfg := default default_config config in
  {| config := cfg;
     cache := Cache.init cfg;
     router := Router.init cfg;
     _preloaded := ∅ |}.

Definition set_cache (c : Cache.AgentResponseCache)
           (o : BedrockAgentOptimizer) : BedrockAgentOptimizer :=
  {| config := config o; cache := c; router := router o;
     _preloaded := _preloaded o |}.

Definition set_router (r : Router.PredictiveRouter)
           (o : BedrockAgentOptimizer) : BedrockAgentOptimizer :=
  {| config := config o; cache := cache o; router := r;
     _preloaded := _preloaded o |}.

Definition set_preloaded (p : gmap string Future)
           (o : BedrockAgentOptimizer) : BedrockAgentOptimizer :=
  {| config := config o; cache := cache o; router := router o;
     _preloaded := p |}.

Definition with_latency (ms : Q) (r : AgentResult) : AgentResult :=
  {| agent_id := agent_id r; output := output r;
     timestamp := timestamp r; latency_ms := Some ms |}.

(** [chunk.get("bytes", b"").decode("utf-8")] of
    [event.get("chunk", {})] *)
Definition event_text (ev : Event) : string :=
  match chunk ev with
  | Some c => default EmptyString (bytes c)
  | None => EmptyString
  end.

Section Methods.
Variable env : Env.

Definition cache_get agent_id payload context
  : M BedrockAgentOptimizer (option AgentResult) :=
  zoom cache set_cache (Cache.get env agent_id payload context).

Definition cache_put agent_id payload response context
  : M BedrockAgentOptimizer unit :=
  zoom cache set_cache (Cache.put env agent_id payload response context).

(** [if cached: return cached]: a stored response has its three keys, so
    it is never the empty, falsy, dictionary. *)
Definition _invoke_agent (agent_id : string)
           (payload : list (string * string))
           (context : option (list (string * string)))
  : M BedrockAgentOptimizer AgentResult :=
  cached <- cache_get agent_id payload context ;;
  match cached with
  | Some response => ret response
  | None =>
      response <- lift (invoke_agent env Real
        {| agentId := agent_id;
           agentAliasId := "TSTALIASID";
           sessionId := default "default" (dict_get "session_id" payload);
           inputText := default EmptyString (dict_get "input_text" payload) |}) ;;
      let completion :=
        fold_left (fun acc ev => acc +:+ event_text ev)
                  (default [] (completion response)) EmptyString in
      now <- lift (time_time env) ;;
      let result :=
        {| agent_id := agent_id; output := completion;
           timestamp := now; latency_ms := None |} in
      cache_put agent_id payload result context ;;
      ret result
  end.

(** The task run by the pool; it touches nothing but the world. *)
Definition _preload_context (agent_id : string)
           (context : list (string * string)) : W unit :=
  fun w =>
    match invoke_agent env Probe
            {| agentId := agent_id;
               agentAliasId := "TSTALIASID";
               sessionId := default "preload" (dict_get "session_id" context);
               inputText := "[PRELOAD] Initialize session context." |} w
    with
    | (Ok _, w') => (Ok tt, w')
    | (Raise _, w') => (Ok tt, w')      (* logged, not raised *)
    end.

(** [if agent_id in self._preloaded: ... del self._preloaded[agent_id]]:
    the wait is best-effort, what it raises is dropped. *)
Definition await_preload (agent_id : string) : M BedrockAgentOptimizer unit :=
  self <- get_self ;;
  match _preloaded self !! agent_id with
  | Some future =>
      catch (lift (future_result env future)) (fun _ => ret tt) ;;
      modify (fun o => set_preloaded (delete agent_id (_preloaded o)) o)
  | None => ret tt
  end.

(** [if i < len(agent_ids) - 1: ...]: record the transition, then warm up
    the agent the router predicts. *)
Definition preload_next (agent_ids : list string)
           (context : list (string * string)) (i : nat) (agent_id : string)
  : M BedrockAgentOptimizer unit :=
  if i <? length agent_ids - 1 then
    modify (fun o =>
      set_router (Router.record_transition
                    agent_id (nth (i + 1) agent_ids EmptyString)
                    (router o)) o) ;;
    self <- get_self ;;
    predicted <- of_result (Router.should_preload agent_id (router self)) ;;
    match predicted with
    | Some predicted =>
        future <- lift (executor_submit
                          (_preload_context predicted context)) ;;
        modify (fun o =>
          set_preloaded (<[predicted := future]> (_preloaded o)) o)
    | None => ret tt
    end
  else ret tt.

(** One iteration of [for i, agent_id in enumerate(agent_ids)]; it
    returns the result appended to [results]. *)
Definition chain_step (agent_ids : list string)
           (context : list (string * string)) (i : nat) (agent_id : string)
           (current_input : string) : M BedrockAgentOptimizer AgentResult :=
  let payload :=
    [("input_text", current_input);
     ("session_id", default EmptyString (dict_get "session_id" context))] in
  await_preload agent_id ;;
  start <- lift (time_monotonic env) ;;
  result <- _invoke_agent agent_id payload (Some context) ;;
  stop <- lift (time_monotonic env) ;;
  let elapsed := (stop - start)%Q in
  let result :=
    with_latency (py_round (elapsed * inject_Z 1000)%Q 1) result in
  preload_next agent_ids context i agent_id ;;
  ret result.

(** The loop from index [i] on; [rest] is what is left of [agent_ids]. *)
Fixpoint chain_loop (agent_ids : list string)
         (context : list (string * string)) (i : nat) (rest : list string)
         (current_input : string) (results : list AgentResult)
  : M BedrockAgentOptimizer (list AgentResult) :=
  match rest with
  | [] => ret results
  | agent_id :: rest' =>
      result <- chain_step agent_ids context i agent_id current_input ;;
      chain_loop agent_ids context (S i) rest'
                 (output result) (results ++ [result])%list
  end.

Definition run_chain (agent_ids : list string) (input_text : string)
  : M BedrockAgentOptimizer (list AgentResult) :=
  now <- lift (time_time env) ;;
  let context :=
    [("session_id", "chain-" +:+ str_of_int (int_of_float now))] in
  chain_loop agent_ids context 0 agent_ids input_text [].
End Methods.

Record ChainReport : Type := mkReport {
  total_latency_ms : Q;
  per_agent : list (string * Q);
  report_cache : Cache.CacheStats;
  report_router : Router.RouterStats
}.

(** [[r["latency_ms"] for r in results]]: a result without the key
    raises.  The results are those of a chain step: they have their
    [agent_id], so the [KeyError] of a dictionary without it is outside
    the model. *)
Fixpoint latencies (results : list AgentResult) : result (list Q) :=
  match results with
  | [] => Ok []
  | r :: rest =>
      match latency_ms r, latencies rest with
      | Some ms, Ok l => Ok (ms :: l)
      | None, _ => Raise KeyError
      | _, Raise e => Raise e
      end
  end.

Definition report (results : list AgentResult) (self : BedrockAgentOptimizer)
  : result ChainReport :=
  match latencies results with
  | Raise e => Raise e
  | Ok l =>
      Ok {| total_latency_ms := py_round (fold_left Qplus l 0%Q) 1;
            per_agent := combine (map agent_id results) l;
            report_cache := Cache.stats (cache self);
            report_router := Router.stats (router self) |}
  end.

End Optimizer.

(** ** Notions the specification speaks of *)

(** Every consecutive pair of a sequence, in order. *)
Fixpoint consecutive_pairs (s : list string) : list (string * string) :=
  match s with
  | x :: (y :: _) as s' => (x, y) :: consecutive_pairs s'
  | _ => []
  end.

(** *** Sample environments, used to run the code on concrete inputs *)

Module Sample.

(** An agent that answers with [text] in one chunk. *)
Definition say (text : string) : Response :=
  {| completion := Some [ {| chunk := Some {| bytes := Some text |} |} ] |}.

(** Clocks that advance by [dt] seconds per reading from 1000 s on, a
    store that works, an agent that names itself, futures that are done. *)
Definition env (dt : Q) : Env :=
  {| wall_clock := fun n => (1000 + inject_Z (Z.of_nat n) * dt)%Q;
     monotonic_clock := fun n => (inject_Z (Z.of_nat n) * dt)%Q;
     store_time := fun n => (1000 + inject_Z (Z.of_nat n) * dt)%Q;
     store_fault := fun _ => None;
     agent_reply := fun _ _ c => Ok (say ("Response from " +:+ agentId c));
     future_ready := fun _ => true |}.

(** The same with frozen clocks and an agent that repeats its input. *)
Definition env_echo : Env :=
  {| wall_clock := wall_clock (env 0);
     monotonic_clock := monotonic_clock (env 0);
     store_time := store_time (env 0);
     store_fault := store_fault (env 0);
     agent_reply := fun _ _ c => Ok (say (inputText c));
     future_ready := future_ready (env 0) |}.

(** The same, with a store that answers the first request and fails on
    the second. *)
Definition env_write_fails : Env :=
  {| wall_clock := wall_clock (env 0);
     monotonic_clock := monotonic_clock (env 0);
     store_time := store_time (env 0);
     store_fault := fun n => if n =? 1 then Some ConnectionError else None;
     agent_reply := agent_reply (env 0);
     future_ready := future_ready (env 0) |}.

(** The same, with a warm-up path that always fails: every probe is
    refused, no future is ever done in time, and the monotonic clock runs
    ten times slower. *)
Definition env_preload_fails (dt : Q) : Env :=
  {| wall_clock := wall_clock (env dt);
     monotonic_clock := fun n => (inject_Z (Z.of_nat n) * dt * 10)%Q;
     store_time := store_time (env dt);
     store_fault := store_fault (env dt);
     agent_reply :=
       fun h who c =>
         match who with
         | Real => agent_reply (env dt) h Real c
         | Probe => Raise ClientError
         end;
     future_ready := fun _ => false |}.

(** A configuration whose threshold no confidence can reach. *)
Definition no_prediction : OptimizerConfig :=
  {| redis_host := "localhost"; redis_port := 6379; cache_ttl := 300;
     prediction_threshold := 2; aws_region := "us-east-1";
     agent_ids := [] |}.

(** The same, with a store that cannot be reached. *)
Definition env_store_down : Env :=
  {| wall_clock := wall_clock (env 0);
     monotonic_clock := monotonic_clock (env 0);
     store_time := store_time (env 0);
     store_fault := fun _ => Some ConnectionError;
     agent_reply := agent_reply (env 0);
     future_ready := future_ready (env 0) |}.

(** Nothing stored, nothing sent, no clock read yet. *)
Definition cold : World :=
  {| clock_reads := 0; monotonic_reads := 0; store_requests := 0; waits := 0;
     redis := ∅; sent := [] |}.

Definition chain : list string := ["classifier"; "retriever"; "summarizer"].

(** A store holding one response, for agent ["a"] and the empty payload. *)
Definition one_entry : World :=
  set_redis {[ Cache._build_key "a" [] None :=
                 ({| agent_id := "a"; output := "cached";
                     timestamp := 999; latency_ms := None |}, 1300%Q) ]}
            cold.

Definition lookups : list Cache.Lookup :=
  [Cache.mkLookup "a" [] None; Cache.mkLookup "b" [] None;
   Cache.mkLookup "c" [] None].

End Sample.

(** Whether a lookup was served from the cache. *)
Definition is_hit (r : option AgentResult) : bool :=
  match r with Some _ => true | None => false end.

(** A result without the latency measured for it. *)
Definition without_latency (r : AgentResult) : AgentResult :=
  {| agent_id := agent_id r; output := output r;
     timestamp := timestamp r; latency_ms := None |}.

(** The payload and the cache key of a chain step. *)
Definition step_payload (context : list (string * string)) (x : string)
  : list (string * string) :=
  [("input_text", x);
   ("session_id", default EmptyString (dict_get "session_id" context))].

Definition step_key (context : list (string * string)) (a x : string)
  : string :=
  Cache._build_key a (step_payload context x) (Some context).

(** The call that a chain step sends to the agent on a miss. *)
Definition step_call (context : list (string * string)) (a x : string)
  : Call :=
  {| agentId := a; agentAliasId := "TSTALIASID";
     sessionId :=
       default "default" (dict_get "session_id" (step_payload context x));
     inputText := x |}.

(** The store holds, for each step of the chain [rest] started on input
    [x], the result that the step returned in [rs]. *)
Fixpoint served (m : gmap string (AgentResult * Q))
         (context : list (string * string)) (rest : list string) (x : string)
         (rs : list AgentResult) : Prop :=
  match rest, rs with
  | [], [] => True
  | a :: rest', r :: rs' =>
      (exists v expiry,
          m !! step_key context a x = Some (v, expiry) /\
          without_latency v = without_latency r) /\
      served m context rest' (output r) rs'
  | _, _ => False
  end.

(** The cache keys of the steps of the chain [rest] started on input [x]
    that returned [rs], in order. *)
Fixpoint step_keys (context : list (string * string)) (rest : list string)
         (x : string) (rs : list AgentResult) : list string :=
  match rest, rs with
  | a :: rest', r :: rs' =>
      step_key context a x :: step_keys context rest' (output r) rs'
  | _, _ => []
  end.

(** The context of a chain started when the clock reads [now]. *)
Definition session_context (now : Q) : list (string * string) :=
  [("session_id", "chain-" +:+ str_of_int (int_of_float now))].

(** No entry written with the time to live [ttl] by a request numbered
    in [lo, hi) has expired when another request of that range is
    served. *)
Definition unexpired_between (env : Env) (ttl : Z) (lo hi : nat) : Prop :=
  forall n m,
    lo <= n < hi -> lo <= m < hi ->
    (store_time env m < store_time env n + inject_Z ttl)%Q.

(** Every entry of the store was written, with the time to live [ttl], by
    a request numbered from [lo] on. *)
Definition written_since (env : Env) (ttl : Z) (lo : nat) (w : World) : Prop :=
  forall k v expiry,
    redis w !! k = Some (v, expiry) ->
    exists n,
      lo <= n < store_requests w /\
      expiry = (store_time env n + inject_Z ttl)%Q.

(** Two worlds that differ at most in what the warm-up path touches:
    the probes sent and the futures waited for. *)
Definition same_main (w w' : World) : Prop :=
  clock_reads w' = clock_reads w /\
  monotonic_reads w' = monotonic_reads w /\
  store_requests w' = store_requests w /\
  redis w' = redis w /\
  real_calls w' = real_calls w.

(** Two optimizers and their worlds that look the same to the chain:
    the same time to live for cache entries, the same clock and store, the
    same calls sent by the chain.  The rest of the configuration, the
    routers, the pending warm-ups, the probes sent and the futures waited
    for may differ. *)
Definition same_view (o1 : Optimizer.BedrockAgentOptimizer) (w1 : World)
           (o2 : Optimizer.BedrockAgentOptimizer) (w2 : World) : Prop :=
  cache_ttl (Cache.config (Optimizer.cache o1))
  = cache_ttl (Cache.config (Optimizer.cache o2)) /\
  clock_reads w1 = clock_reads w2 /\
  store_requests w1 = store_requests w2 /\
  redis w1 = redis w2 /\
  real_calls w1 = real_calls w2.

(** Two environments that differ at most in the monotonic clock, in
    whether futures are done in time and in what probes are answered;
    what the agent answers to the chain depends, in both, on the calls of
    the chain only. *)
Definition envs_agree (env1 env2 : Env) : Prop :=
  (forall n, wall_clock env1 n = wall_clock env2 n) /\
  (forall n, store_time env1 n = store_time env2 n) /\
  (forall n, store_fault env1 n = store_fault env2 n) /\
  (forall h1 h2 c,
      real_only h1 = real_only h2 ->
      agent_reply env1 h1 Real c = agent_reply env2 h2 Real c).

(** Two runs that end alike: the same exception, or the same results up
    to the latency measured for each. *)
Definition same_outcome (r1 r2 : result (list AgentResult)) : Prop :=
  match r1, r2 with
  | Ok rs1, Ok rs2 => map without_latency rs1 = map without_latency rs2
  | Raise e1, Raise e2 => e1 = e2
  | _, _ => False
  end.

(** [recordTransition] on each pair of a list, in order. *)
Definition record_all (calls : list (string * string))
           (r : Router.PredictiveRouter) : Router.PredictiveRouter :=
  fold_left (fun r c => Router.record_transition (fst c) (snd c) r) calls r.

(** ** Text functions of [src/config.py] and of [main] *)

(** [s.split(sep)] for a separator of one character *)
Fixpoint split_on (sep : ascii) (s : string) : list string :=
  match s with
  | EmptyString => [EmptyString]
  | String c s' =>
      if Ascii.eqb c sep then EmptyString :: split_on sep s'
      else
        match split_on sep s' with
        | piece :: pieces => String c piece :: pieces
        | [] => [String c EmptyString]
        end
  end.

(** [str.isspace] on a character below 256 *)
Definition is_space (c : ascii) : bool :=
  let n := nat_of_ascii c in
  ((9 <=? n) && (n <=? 13)) || ((28 <=? n) && (n <=? 32))
  || (n =? 133) || (n =? 160).

(** [s.lstrip()] and [s.rstrip()] *)
Fixpoint lstrip (s : string) : string :=
  match s with
  | EmptyString => EmptyString
  | String c s' => if is_space c then lstrip s' else s
  end.

Fixpoint rstrip (s : string) : string :=
  match s with
  | EmptyString => EmptyString
  | String c s' =>
      match rstrip s' with
      | EmptyString => if is_space c then EmptyString else String c EmptyString
      | t => String c t
      end
  end.

(** [s.strip()] *)
Definition strip (s : string) : string := rstrip (lstrip s).

(** [os.getenv("BEDROCK_AGENT_IDS", "").split(",")], the default of
    [agent_ids]; [value] is the variable when it is set. *)
Definition agent_ids_of_env (value : option string) : list string :=
  split_on "," (default EmptyString value).

(** [[a.strip() for a in args.agents.split(",")]] *)
Definition parse_agents (agents : string) : list string :=
  map strip (split_on "," agents).

(** [main], once the arguments are parsed: build the optimizer with the
    default configuration, run the chain, make the report.  Printing the
    report is outside the model. *)
Definition main (env : Env) (agents input : string) : W Optimizer.ChainReport :=
  fun w =>
    let agent_ids := parse_agents agents in
    let optimizer := Optimizer.init None in
    match Optimizer.run_chain env agent_ids input optimizer w with
    | (Ok results, optimizer', w') => (Optimizer.report results optimizer', w')
    | (Raise e, _, w') => (Raise e, w')
    end.

(** ** More notions used to state properties *)

(** The sum of all counts of the transition table. *)
Definition table_total (t : list (string * Router.Counter)) : nat :=
  fold_right (fun kc acc => Router.counter_total (snd kc) + acc) 0 t.

(** Whether a call records the transition from [a] to [b]. *)
Definition is_call (a b : string) (c : string * string) : bool :=
  String.eqb (fst c) a && String.eqb (snd c) b.

(** The number of (source, successor) pairs of the transition table. *)
Definition table_pairs (t : list (string * Router.Counter)) : nat :=
  fold_right (fun kc acc => length (snd kc) + acc) 0 t.

(** The order in which [sort_keys] puts the entries of a dictionary. *)
Definition key_le (x y : string * string) : Prop :=
  String.leb (fst x) (fst y) = true.

(** One of [0] .. [9], [a] .. [f]. *)
Definition is_lower_hex (c : ascii) : bool :=
  let n := nat_of_ascii c in
  ((48 <=? n) && (n <=? 57)) || ((97 <=? n) && (n <=? 102)).

(** The warm-up probes among all that Bedrock was sent. *)
Definition probe_only (h : list (origin * Call)) : list Call :=
  map snd (List.filter
             (fun c => match fst c with Real => false | Probe => true end) h).

Definition probe_calls (w : World) : list Call := probe_only (sent w).

(** The call that [_preload_context] sends to the agent [a]. *)
Definition probe_call (context : list (string * string)) (a : string) : Call :=
  {| agentId := a; agentAliasId := "TSTALIASID";
     sessionId := default "preload" (dict_get "session_id" context);
     inputText := "[PRELOAD] Initialize session context." |}.

(** What the warm-up of step [i] sends: a probe to the agent the router
    predicts once the transition has been recorded, if it predicts one. *)
Definition step_probe (ids : list string) (context : list (string * string))
           (i : nat) (a : string) (r : Router.PredictiveRouter)
  : list (origin * Call) :=
  if i <? length ids - 1 then
    match Router.should_preload
            a (Router.record_transition a (nth (i + 1) ids EmptyString) r) with
    | Ok (Some p) => [(Probe, probe_call context p)]
    | _ => []
    end
  else [].

(** The router after step [i]: every step but the last records the
    transition to the next agent of the list. *)
Definition step_router (ids : list string) (i : nat) (a : string)
           (r : Router.PredictiveRouter) : Router.PredictiveRouter :=
  if i <? length ids - 1
  then Router.record_transition a (nth (i + 1) ids EmptyString) r
  else r.

(** A call that the step for agent [a] on input [x] may send: its own
    call to [a], or a probe. *)
Definition sent_by_step (context : list (string * string)) (a x : string)
           (oc : origin * Call) : Prop :=
  match fst oc with
  | Real => snd oc = step_call context a x
  | Probe => exists p, snd oc = probe_call context p
  end.

(** A call of the session [sid], to one of [agents] when the chain
    sends it itself, with the warm-up text when it is a probe. *)
Definition call_of_session (sid : string) (agents : list string)
           (oc : origin * Call) : Prop :=
  sessionId (snd oc) = sid /\ agentAliasId (snd oc) = "TSTALIASID" /\
  match fst oc with
  | Real => In (agentId (snd oc)) agents
  | Probe => inputText (snd oc) = "[PRELOAD] Initialize session context."
  end.

(** An agent runtime that refuses every call. *)
Definition env_agent_down : Env :=
  {| wall_clock := wall_clock (Sample.env 0);
     monotonic_clock := monotonic_clock (Sample.env 0);
     store_time := store_time (Sample.env 0);
     store_fault := store_fault (Sample.env 0);
     agent_reply := fun _ _ _ => Raise ClientError;
     future_ready := future_ready (Sample.env 0) |}.

(** The latency measured for the step that makes the [n]-th and the
    [n+1]-th reading of the monotonic clock. *)
Definition step_latency (env : Env) (n : nat) : Q :=
  py_round ((monotonic_clock env (S n) - monotonic_clock env n)
            * inject_Z 1000)%Q 1.

(** How many times [c] occurs in [s]. *)
Fixpoint occurrences (c : ascii) (s : string) : nat :=
  match s with
  | EmptyString => 0
  | String c' s' => (if Ascii.eqb c' c then 1 else 0) + occurrences c s'
  end.

(** A text without leading or trailing white space. *)
Definition trimmed (s : string) : Prop := strip s = s.

Definition starts_space (s : string) : bool :=
  match s with
  | EmptyString => false
  | String c _ => is_space c
  end.

Fixpoint ends_space (s : string) : bool :=
  match s with
  | EmptyString => false
  | String c EmptyString => is_space c
  | String _ s' => ends_space s'
  end.

(** Whether the agent of the call [c] has been sent a probe in the
    session of [c]. *)
Definition primed (h : list (origin * Call)) (c : Call) : bool :=
  existsb (fun oc =>
             match fst oc with
             | Probe => String.eqb (agentId (snd oc)) (agentId c)
                        && String.eqb (sessionId (snd oc)) (sessionId c)
             | Real => false
             end) h.

(** An agent that keeps the state of its sessions: it answers a call
    differently once a probe has primed the session.  Clocks frozen, store
    working, futures done. *)
Definition env_session_agent : Env :=
  {| wall_clock := wall_clock (Sample.env 0);
     monotonic_clock := monotonic_clock (Sample.env 0);
     store_time := store_time (Sample.env 0);
     store_fault := store_fault (Sample.env 0);
     agent_reply :=
       fun h _ c =>
         Ok (Sample.say ((if primed h c then "primed " else "Response from ")
                         +:+ agentId c));
     future_ready := future_ready (Sample.env 0) |}.

(** The same agent behind a warm-up path that always fails: no probe
    reaches it, so no session is ever primed. *)
Definition env_session_agent_unreached : Env :=
  {| wall_clock := wall_clock env_session_agent;
     monotonic_clock := monotonic_clock env_session_agent;
     store_time := store_time env_session_agent;
     store_fault := store_fault env_session_agent;
     agent_reply :=
       fun h who c =>
         match who with
         | Real => Ok (Sample.say ("Response from " +:+ agentId c))
         | Probe => Raise ClientError
         end;
     future_ready := fun _ => false |}.

(** The outputs of a run, in order; none when it raised. *)
Definition outputs_of (r : result (list AgentResult)) : list string :=
  match r with
  | Ok rs => map output rs
  | Raise _ => []
  end.

(** Three runs of the sample chain with that agent: with the warm-up
    working, with a threshold that disables it, and with a warm-up path
    that always fails. *)
Definition run_warm : result (list AgentResult) :=
  fst (fst (Optimizer.run_chain env_session_agent Sample.chain "hello"
                                (Optimizer.init None) Sample.cold)).

Definition run_disabled : result (list AgentResult) :=
  fst (fst (Optimizer.run_chain env_session_agent Sample.chain "hello"
                                (Optimizer.init (Some Sample.no_prediction))
                                Sample.cold)).

Definition run_failing : result (list AgentResult) :=
  fst (fst (Optimizer.run_chain env_session_agent_unreached Sample.chain
                                "hello" (Optimizer.init None) Sample.cold)).

(** * Properties *)

(** ** Insertion-ordered dictionaries *)

Section DictFacts.
Context {V : Type}.
Implicit Types (d : list (string * V)) (f : option V -> V).

Lemma dict_get_upd_eq k f d :
  dict_get k (dict_upd k f d) = Some (f (dict_get k d)).
Proof.
  induction d as [|[k' v] d IH]; simpl.
  - now rewrite String.eqb_refl.
  - destruct (String.eqb k k') eqn:E; simpl; rewrite E; auto.
Qed.

Lemma dict_get_upd_ne k k' f d :
  k <> k' -> dict_get k' (dict_upd k f d) = dict_get k' d.
Proof.
  intros Hne. induction d as [|[k0 v] d IH]; simpl.
  - destruct (String.eqb_spec k' k); congruence.
  - destruct (String.eqb_spec k k0) as [->|]; simpl.
    + destruct (String.eqb_spec k' k0); congruence.
    + now rewrite IH.
Qed.

Lemma dict_get_In k v d : dict_get k d = Some v -> In (k, v) d.
Proof.
  induction d as [|[k0 v0] d IH]; simpl; [discriminate|].
  destruct (String.eqb_spec k k0) as [->|]; intros H.
  - left. congruence.
  - right. auto.
Qed.

Lemma dict_get_None k d : dict_get k d = None <-> ~ In k (map fst d).
Proof.
  induction d as [|[k0 v0] d IH]; simpl; [tauto|].
  destruct (String.eqb_spec k k0) as [->|]; split; intros H.
  - discriminate.
  - exfalso. apply H. now left.
  - intros [->|Hin]; [congruence|]. now apply IH.
  - apply IH. intros Hin. apply H. now right.
Qed.

Lemma In_dict_get k v d :
  NoDup (map fst d) -> In (k, v) d -> dict_get k d = Some v.
Proof.
  induction d as [|[k0 v0] d IH]; simpl; [tauto|].
  intros Hnd [Heq|Hin]; inversion Hnd; subst.
  - inversion Heq; subst. now rewrite String.eqb_refl.
  - destruct (String.eqb_spec k k0) as [->|]; [|auto].
    exfalso. apply H1, list_elem_of_In. apply (in_map fst) in Hin. exact Hin.
Qed.

(** Updating a key that is present keeps the keys and their order;
    a new key goes to the end. *)
Lemma dict_upd_keys k f d :
  map fst (dict_upd k f d)
  = match dict_get k d with
    | Some _ => map fst d
    | None => (map fst d ++ [k])%list
    end.
Proof.
  induction d as [|[k0 v0] d IH]; simpl; [reflexivity|].
  destruct (String.eqb_spec k k0) as [->|]; simpl; [reflexivity|].
  rewrite IH. now destruct (dict_get k d).
Qed.

Lemma dict_upd_Forall (P : V -> Prop) k f d :
  Forall (fun kv => P (snd kv)) d ->
  (forall o, match o with Some v => P v | None => True end -> P (f o)) ->
  Forall (fun kv => P (snd kv)) (dict_upd k f d).
Proof.
  intros Hd Hf. induction Hd as [|[k0 v0] d Hv Hd IH]; simpl.
  - constructor; [|constructor]. simpl. now apply (Hf None).
  - destruct (String.eqb k k0); constructor; auto.
    simpl. now apply (Hf (Some v0)).
Qed.
End DictFacts.

(** ** The router *)

Section RouterFacts.
Import Router.

Lemma fold_left_map_fun {A B C} (f : A -> B -> A) (g : C -> B) l a :
  fold_left f (map g l) a = fold_left (fun a x => f a (g x)) l a.
Proof. revert a. induction l; simpl; auto. Qed.

Lemma index_pairs s :
  map (fun i => (nth i s EmptyString, nth (i + 1) s EmptyString))
      (seq 0 (length s - 1))
  = consecutive_pairs s.
Proof.
  induction s as [|x s IH]; [reflexivity|].
  destruct s as [|y s]; [reflexivity|].
  replace (length (x :: y :: s) - 1) with (S (length (y :: s) - 1))
    by (simpl; lia).
  rewrite <- cons_seq, <- seq_shift, map_cons, map_map.
  change (consecutive_pairs (x :: y :: s))
    with ((x, y) :: consecutive_pairs (y :: s)).
  rewrite <- IH. reflexivity.
Qed.

Lemma ingest_trace_record_all s r :
  ingest_trace s r = record_all (consecutive_pairs s) r.
Proof.
  unfold ingest_trace, record_all.
  rewrite <- index_pairs, fold_left_map_fun. reflexivity.
Qed.

Lemma record_all_app l1 l2 r :
  record_all (l1 ++ l2) r = record_all l2 (record_all l1 r).
Proof. apply fold_left_app. Qed.

Lemma run_ops_calls ops r : run_ops ops r = record_all (calls_of ops) r.
Proof.
  revert r. induction ops as [|o ops IH]; intros r; [reflexivity|].
  simpl. rewrite record_all_app, IH. f_equal.
  destruct o; try reflexivity.
  simpl. rewrite index_pairs. apply ingest_trace_record_all.
Qed.

Lemma counts_of_record a b r A :
  counts_of (record_transition a b r) A
  = if String.eqb a A then counter_incr b (counts_of r A) else counts_of r A.
Proof.
  unfold counts_of, record_transition; simpl.
  destruct (String.eqb_spec a A) as [->|Hne].
  - now rewrite dict_get_upd_eq.
  - now rewrite dict_get_upd_ne.
Qed.

Lemma counts_of_record_all calls r A :
  counts_of (record_all calls r) A
  = fold_left (fun c b => counter_incr b c) (successors A calls)
              (counts_of r A).
Proof.
  revert r. induction calls as [|[a b] calls IH]; intros r; [reflexivity|].
  unfold record_all in *. simpl fold_left at 1. rewrite IH.
  rewrite counts_of_record. unfold successors. simpl.
  now destruct (String.eqb a A).
Qed.

Lemma counter_total_incr b c :
  counter_total (counter_incr b c) = S (counter_total c).
Proof.
  unfold counter_incr.
  induction c as [|[k v] c IH]; simpl; [reflexivity|].
  destruct (String.eqb b k); simpl; [reflexivity|]. rewrite IH. lia.
Qed.

Lemma counter_total_fold succ c :
  counter_total (fold_left (fun c b => counter_incr b c) succ c)
  = counter_total c + length succ.
Proof.
  revert c. induction succ as [|b succ IH]; intros c; simpl; [lia|].
  rewrite IH, counter_total_incr. lia.
Qed.

Lemma count_of_record a b r A B :
  count_of (record_transition a b r) A B
  = if String.eqb a A && String.eqb b B then S (count_of r A B)
    else count_of r A B.
Proof.
  unfold count_of. rewrite counts_of_record.
  destruct (String.eqb_spec a A) as [->|]; simpl; [|reflexivity].
  unfold counter_incr.
  destruct (String.eqb_spec b B) as [->|].
  - now rewrite dict_get_upd_eq.
  - now rewrite dict_get_upd_ne.
Qed.

Lemma count_of_record_all_mono calls r A B :
  count_of r A B <= count_of (record_all calls r) A B.
Proof.
  revert r. induction calls as [|[a b] calls IH]; intros r; [simpl; lia|].
  unfold record_all in *. simpl fold_left.
  etransitivity; [|apply IH]. rewrite count_of_record.
  destruct (_ && _); lia.
Qed.

Lemma wf_init cfg : wf (init cfg).
Proof. constructor. Qed.

Lemma wf_record a b r : wf r -> wf (record_transition a b r).
Proof.
  unfold wf; simpl. intros H.
  apply (dict_upd_Forall (fun c : Counter => Forall (fun kv => 1 <= snd kv) c));
    [exact H|].
  intros o Ho. unfold counter_incr.
  apply (dict_upd_Forall (fun n => 1 <= n)).
  - destruct o; simpl; [exact Ho|constructor].
  - intros; lia.
Qed.

Lemma wf_record_all calls r : wf r -> wf (record_all calls r).
Proof.
  revert r. induction calls as [|c calls IH]; intros r H; [exact H|].
  apply IH, wf_record, H.
Qed.

Lemma wf_run_ops ops cfg : wf (run_ops ops (init cfg)).
Proof. rewrite run_ops_calls. apply wf_record_all, wf_init. Qed.

Lemma wf_counts r A : wf r -> Forall (fun kv => 1 <= snd kv) (counts_of r A).
Proof.
  unfold wf, counts_of. intros H.
  destruct (dict_get A (_transitions r)) as [c|] eqn:E; simpl; [|constructor].
  apply dict_get_In in E. rewrite List.Forall_forall in H. apply (H _ E).
Qed.

(** [max] returns the first item whose count is maximal: the items
    before it are strictly smaller, those after it are not larger. *)
Lemma max_by_count_split best rest :
  exists l1 l2,
    best :: rest = (l1 ++ max_by_count best rest :: l2)%list /\
    Forall (fun kv => snd kv < snd (max_by_count best rest)) l1 /\
    Forall (fun kv => snd kv <= snd (max_by_count best rest)) l2.
Proof.
  revert best. induction rest as [|x rest IH]; intros best; simpl.
  - exists [], []. repeat split; constructor.
  - destruct (Nat.ltb_spec (snd best) (snd x)) as [Hlt|Hge].
    + destruct (IH x) as (l1 & l2 & Heq & H1 & H2).
      exists (best :: l1), l2. rewrite Heq. repeat split; auto.
      constructor; auto.
      assert (Hx : snd x <= snd (max_by_count x rest)).
      { assert (Hin : In x (l1 ++ max_by_count x rest :: l2))
          by (rewrite <- Heq; now left).
        apply in_app_or in Hin. rewrite List.Forall_forall in H1, H2.
        destruct Hin as [Hin|[Hin|Hin]];
          [apply Nat.lt_le_incl, H1, Hin | rewrite Hin; lia | apply H2, Hin]. }
      lia.
    + destruct (IH best) as (l1 & l2 & Heq & H1 & H2).
      remember (max_by_count best rest) as m eqn:Hm.
      destruct l1 as [|b l1]; simpl in Heq; injection Heq as Hb Hr.
      * exists [], (x :: rest).
        split; [simpl; now rewrite <- Hb|]. split; [constructor|].
        constructor; [rewrite <- Hb; exact Hge | rewrite Hr; exact H2].
      * exists (best :: x :: l1), l2.
        split; [simpl; now rewrite Hr|].
        inversion H1 as [|? ? Hbm H1']; subst.
        split; [|exact H2].
        constructor; [exact Hbm|]. constructor; [lia | exact H1'].
Qed.

Lemma predict_next_nonempty r A x rest :
  counts_of r A = x :: rest ->
  0 < counter_total (x :: rest) ->
  let best := max_by_count x rest in
  let conf :=
    Qred (Z.of_nat (snd best) # Pos.of_nat (counter_total (x :: rest))) in
  predict_next A r
  = Ok (if Qle_bool (prediction_threshold (config r)) conf
        then Some (fst best) else None, conf).
Proof.
  unfold counts_of, predict_next. intros Hc Hpos.
  destruct (dict_get A (_transitions r)) as [c|]; simpl in Hc; [|discriminate].
  subst c. cbv zeta. unfold most_common_1.
  destruct (max_by_count x rest) as [b n] eqn:E.
  destruct (Nat.eqb_spec (counter_total (x :: rest)) 0) as [H0|_]; [lia|].
  simpl fst; simpl snd. now destruct (Qle_bool _ _).
Qed.

Lemma predict_next_empty r A :
  counts_of r A = [] -> predict_next A r = Ok (None, 0%Q).
Proof.
  unfold counts_of, predict_next.
  destruct (dict_get A (_transitions r)) as [c|]; simpl; [|reflexivity].
  now intros ->.
Qed.

Lemma confidence_value n total :
  0 < total ->
  (Qred (Z.of_nat n # Pos.of_nat total)
   == inject_Z (Z.of_nat n) / inject_Z (Z.of_nat total))%Q.
Proof.
  intros H. rewrite Qred_correct.
  replace (Z.of_nat total) with (Z.pos (Pos.of_nat total))
    by (destruct total; [lia|]; now rewrite <- Pos.of_nat_succ, Zpos_P_of_succ_nat, Nat2Z.inj_succ).
  apply Qmake_Qdiv.
Qed.
End RouterFacts.

(** C4.  For a router whose stored counts are all positive (every state
    the router reaches) and an agent [A]: with no recorded transition out
    of [A], [predict_next] returns [(None, 0.0)]; otherwise there is a
    successor [best] whose count is maximal, the confidence is that count
    divided by the sum of the counts of [A], and [predict_next] returns
    [(best, confidence)] when the confidence reaches the threshold and
    [(None, confidence)], with the same confidence, when it does not. *)
Theorem predict_next_threshold (r : Router.PredictiveRouter) (A : string) :
  Router.wf r ->
  let counts := Router.counts_of r A in
  let total := Router.counter_total counts in
  let threshold := prediction_threshold (Router.config r) in
  (counts = [] -> Router.predict_next A r = Ok (None, 0%Q)) /\
  (counts <> [] ->
   exists best best_count confidence,
     In (best, best_count) counts /\
     (forall b c, In (b, c) counts -> c <= best_count) /\
     (confidence
      == inject_Z (Z.of_nat best_count) / inject_Z (Z.of_nat total))%Q /\
     ((threshold <= confidence)%Q ->
      Router.predict_next A r = Ok (Some best, confidence)) /\
     ((confidence < threshold)%Q ->
      Router.predict_next A r = Ok (None, confidence))).
Proof.
  intros Hwf counts total threshold. split.
  - apply predict_next_empty.
  - intros Hne. subst counts total.
    destruct (Router.counts_of r A) as [|x rest] eqn:Hc; [congruence|].
    assert (Hpos : 0 < Router.counter_total (x :: rest)).
    { pose proof (wf_counts r A Hwf) as Hall. rewrite Hc in Hall.
      inversion Hall; subst. simpl. lia. }
    pose proof (predict_next_nonempty r A x rest Hc Hpos) as Hp.
    cbv zeta in Hp.
    destruct (max_by_count_split x rest) as (l1 & l2 & Heq & H1 & H2).
    destruct (Router.max_by_count x rest) as [best bc] eqn:Hm.
    simpl fst in *; simpl snd in *.
    exists best, bc,
      (Qred (Z.of_nat bc # Pos.of_nat (Router.counter_total (x :: rest)))).
    split; [rewrite Heq; apply in_or_app; right; now left|].
    split.
    { intros b c Hin. rewrite Heq in Hin. apply in_app_or in Hin.
      rewrite List.Forall_forall in H1, H2.
      destruct Hin as [Hin|[Hin|Hin]].
      - apply Nat.lt_le_incl, (H1 _ Hin).
      - inversion Hin; lia.
      - apply (H2 _ Hin). }
    split; [now apply confidence_value|].
    split; intros Hcmp; rewrite Hp.
    + apply Qle_bool_iff in Hcmp. fold threshold. now rewrite Hcmp.
    + destruct (Qle_bool _ _) eqn:E; [|reflexivity].
      apply Qle_bool_iff in E. exfalso. apply (Qlt_not_le _ _ Hcmp E).
Qed.

(** C6.  [ingest_trace] leaves the router in the state that
    [record_transition] on every consecutive pair of the sequence, in
    order, leaves it in; and on a fresh router whose threshold is at most
    1, after [ingest_trace [X; Y; Z]] with [X] and [Y] different agents,
    [predict_next X] is [(Y, 1.0)] and [predict_next Y] is [(Z, 1.0)]. *)
Theorem ingest_trace_record_transitions :
  (forall s r, Router.ingest_trace s r = record_all (consecutive_pairs s) r) /\
  (forall cfg X Y Z,
      X <> Y ->
      (prediction_threshold cfg <= 1)%Q ->
      let r := Router.ingest_trace [X; Y; Z] (Router.init cfg) in
      Router.predict_next X r = Ok (Some Y, 1%Q) /\
      Router.predict_next Y r = Ok (Some Z, 1%Q)).
Proof.
  split; [apply ingest_trace_record_all|].
  intros cfg X Y Z Hne Hthr r. apply Qle_bool_iff in Hthr.
  assert (Ht : Router._transitions r = [(X, [(Y, 1)]); (Y, [(Z, 1)])]).
  { subst r. cbn. destruct (String.eqb_spec Y X); [congruence|reflexivity]. }
  assert (Hc : Router.config r = cfg) by reflexivity.
  unfold Router.predict_next. rewrite Ht, Hc. cbn [dict_get].
  rewrite !String.eqb_refl.
  destruct (String.eqb_spec Y X) as [->|_]; [congruence|].
  change (Router.counter_total [(Y, 1)]) with 1.
  change (Router.counter_total [(Z, 1)]) with 1.
  cbn [Router.most_common_1 Router.max_by_count Nat.eqb].
  change (Qred (Z.of_nat 1 # Pos.of_nat 1)) with 1%Q.
  rewrite Hthr. split; reflexivity.
Qed.

Lemma ingest_trace_record_transitions_witness :
  let r := Router.ingest_trace ["X"; "Y"; "Z"] (Router.init default_config) in
  Router.predict_next "X" r = Ok (Some "Y", 1%Q) /\
  Router.predict_next "Y" r = Ok (Some "Z", 1%Q).
Proof.
  apply (proj2 ingest_trace_record_transitions default_config "X" "Y" "Z").
  - discriminate.
  - unfold Qle; simpl; lia.
Defined.

(** C7.  Starting from a fresh router, after any sequence of operations
    the counts recorded from [A] add up to the number of
    [record_transition (A, _)] calls the operations made; and no sequence
    of operations lowers the count of any transition. *)
Theorem transition_counts_accumulate (cfg : OptimizerConfig)
        (ops : list Router.op) (A : string) :
  Router.counter_total (Router.counts_of (Router.run_ops ops (Router.init cfg)) A)
  = length (Router.successors A (Router.calls_of ops))
  /\
  (forall (r : Router.PredictiveRouter) (more : list Router.op) (B : string),
      Router.count_of r A B <= Router.count_of (Router.run_ops more r) A B).
Proof.
  split.
  - rewrite run_ops_calls, counts_of_record_all, counter_total_fold.
    reflexivity.
  - intros r more B. rewrite run_ops_calls. apply count_of_record_all_mono.
Qed.

Lemma predict_next_threshold_witness :
  let r := record_all [("A", "B"); ("A", "C"); ("A", "D")]
                      (Router.init default_config) in
  Router.wf r /\
  exists confidence,
    (confidence == 1 # 3)%Q /\
    Router.predict_next "A" r = Ok (None, confidence).
Proof.
  intros r.
  assert (Hwf : Router.wf r) by (vm_compute; repeat constructor).
  split; [exact Hwf|].
  destruct (predict_next_threshold r "A" Hwf) as [_ H].
  destruct H as (best & bc & conf & Hin & _ & Hconf & _ & Hrej);
    [discriminate|].
  assert (Hbc : bc = 1).
  { cbn in Hin. destruct Hin as [H|[H|[H|[]]]]; congruence. }
  subst bc. exists conf.
  assert (Hc : (conf == 1 # 3)%Q) by (rewrite Hconf; reflexivity).
  split; [exact Hc|]. apply Hrej. rewrite Hc. reflexivity.
Defined.

(** *** The order of a Counter is the order of first recording *)

Section TallyFacts.
Import Router.

Local Abbreviation tally succ :=
  (fold_left (fun c b => counter_incr b c) succ []).
Local Abbreviation occ succ b := (count_occ string_dec succ b).

Lemma index_of_lt b l : In b l -> index_of b l < length l.
Proof.
  induction l as [|x l IH]; simpl; [tauto|].
  destruct (String.eqb_spec b x); [lia|].
  intros [->|H]; [congruence|]. apply IH in H. lia.
Qed.

Lemma index_of_app_in b l l' : In b l -> index_of b (l ++ l') = index_of b l.
Proof.
  induction l as [|x l IH]; simpl; [tauto|].
  destruct (String.eqb_spec b x); [reflexivity|].
  intros [->|H]; [congruence|]. now rewrite IH.
Qed.

Lemma index_of_app_new x l : ~ In x l -> index_of x (l ++ [x]) = length l.
Proof.
  induction l as [|y l IH]; simpl; intros H.
  - now rewrite String.eqb_refl.
  - destruct (String.eqb_spec x y) as [->|]; [exfalso; apply H; now left|].
    rewrite IH; [reflexivity|]. intros Hin. apply H. now right.
Qed.

Lemma StronglySorted_restrict {A} (R R' : A -> A -> Prop) l :
  StronglySorted R l ->
  (forall a b, In a l -> In b l -> R a b -> R' a b) ->
  StronglySorted R' l.
Proof.
  induction 1 as [|a l Hs IH Hall]; intros Himp; constructor.
  - apply IH. intros x y Hx Hy. apply Himp; now right.
  - rewrite List.Forall_forall in *. intros x Hx.
    apply Himp; [now left | now right | now apply Hall].
Qed.

Lemma StronglySorted_snoc {A} (R : A -> A -> Prop) l x :
  StronglySorted R l -> Forall (fun a => R a x) l ->
  StronglySorted R (l ++ [x]).
Proof.
  induction 1 as [|a l Hs IH Hall]; intros Hx; simpl.
  - repeat constructor.
  - inversion Hx; subst. constructor; [now apply IH|].
    apply Forall_app. split; [exact Hall | now constructor].
Qed.

Lemma StronglySorted_after {A} (R : A -> A -> Prop) l1 a l2 :
  StronglySorted R (l1 ++ a :: l2) -> Forall (R a) l2.
Proof.
  induction l1 as [|x l1 IH]; simpl; intros H;
    apply StronglySorted_inv in H; destruct H as [Hs Hall]; auto.
Qed.

Lemma counter_incr_get b c k :
  dict_get k (counter_incr b c)
  = if String.eqb b k then Some (S (default 0 (dict_get k c)))
    else dict_get k c.
Proof.
  unfold counter_incr. destruct (String.eqb_spec b k) as [->|Hne].
  - now rewrite dict_get_upd_eq.
  - now apply dict_get_upd_ne.
Qed.

Lemma tally_snoc succ x : tally (succ ++ [x]) = counter_incr x (tally succ).
Proof. now rewrite fold_left_app. Qed.

(** After recording the successors [succ] in order, the Counter holds
    each successor once, with the number of times it was recorded, and
    lists the successors in the order of their first recording. *)
Lemma tally_inv succ :
  StronglySorted (fun k k' => index_of k succ < index_of k' succ)
                 (map fst (tally succ))
  /\ NoDup (map fst (tally succ))
  /\ (forall k, dict_get k (tally succ)
                = if occ succ k =? 0 then None else Some (occ succ k)).
Proof.
  induction succ as [|x succ IH] using rev_ind.
  - simpl. repeat split; constructor.
  - destruct IH as (Hs & Hnd & Hget). rewrite tally_snoc.
    set (c := tally succ) in *.
    assert (Hkeys : forall k, In k (map fst c) -> In k succ).
    { intros k Hk. destruct (in_dec string_dec k succ) as [|Hn]; [assumption|].
      exfalso. apply (count_occ_not_In string_dec) in Hn.
      specialize (Hget k). rewrite Hn in Hget. simpl in Hget.
      now apply dict_get_None in Hget. }
    assert (Hold : StronglySorted
              (fun k k' => index_of k (succ ++ [x]) < index_of k' (succ ++ [x]))
              (map fst c)).
    { apply (StronglySorted_restrict _ _ _ Hs). intros a b Ha Hb.
      rewrite !index_of_app_in by auto. auto. }
    split; [|split].
    + unfold counter_incr. rewrite dict_upd_keys.
      destruct (dict_get x c) eqn:E; [exact Hold|].
      apply StronglySorted_snoc; [exact Hold|].
      apply dict_get_None in E. apply List.Forall_forall. intros a Ha.
      assert (Hx : ~ In x succ).
      { intros Hin. specialize (Hget x).
        apply (count_occ_In string_dec) in Hin.
        destruct (Nat.eqb_spec (occ succ x) 0); [lia|].
        apply dict_get_None in E. congruence. }
      rewrite index_of_app_in by auto. rewrite index_of_app_new by auto.
      apply index_of_lt; auto.
    + unfold counter_incr. rewrite dict_upd_keys.
      destruct (dict_get x c) eqn:E; [exact Hnd|].
      apply NoDup_app. split; [exact Hnd|]. split; [|apply NoDup_singleton].
      intros k Hk Hk'. apply list_elem_of_singleton in Hk'. subst k.
      apply dict_get_None in E. apply E. now apply list_elem_of_In.
    + intros k. rewrite counter_incr_get, count_occ_app, Hget. simpl.
      destruct (string_dec x k) as [->|Hne].
      * rewrite String.eqb_refl.
        destruct (Nat.eqb_spec (occ succ k) 0) as [->|]; simpl.
        -- reflexivity.
        -- destruct (Nat.eqb_spec (occ succ k + 1) 0); [lia|].
           f_equal. lia.
      * destruct (String.eqb_spec x k); [congruence|].
        now rewrite Nat.add_0_r.
Qed.
End TallyFacts.

Lemma config_record_all calls r :
  Router.config (record_all calls r) = Router.config r.
Proof.
  revert r. induction calls as [|c calls IH]; intros r; [reflexivity|].
  unfold record_all in *. simpl. now rewrite IH.
Qed.



(** ** The digest *)

Example sha256_constants :
  nth 0 SHA256.K 0%Z = 0x428a2f98%Z /\ nth 63 SHA256.K 0%Z = 0xc67178f2%Z /\
  nth 0 SHA256.H0 0%Z = 0x6a09e667%Z /\ nth 7 SHA256.H0 0%Z = 0x5be0cd19%Z /\
  length SHA256.K = 64 /\ length SHA256.H0 = 8.
Proof. vm_compute. repeat split. Qed.

(** The test vector of the standard for the message [abc]. *)
Example sha256_abc :
  SHA256.hexdigest "abc"
  = "ba7816bf8f01cfea414140de5dae2223b00361a396177a9cb410ff61f20015ad".
Proof. vm_compute. reflexivity. Qed.

(** The key that Python computes for the first step of the sample chain
    in the session [chain-1000]. *)
Example build_key_sample :
  Cache._build_key "classifier"
    [("input_text", "hello"); ("session_id", "chain-1000")]
    (Some [("session_id", "chain-1000")])
  = "bedrock_cache:ee1060366a652fead9dacd399970b1ec17060a80a0951329d353363f152a9257".
Proof. vm_compute. reflexivity. Qed.

(** ** Rounding *)

Lemma py_round_3_close (x : Q) :
  exists n : Z,
    (py_round x 3 == n # 1000)%Q /\
    (- (1 # 2000) <= py_round x 3 - x)%Q /\
    (py_round x 3 - x <= 1 # 2000)%Q.
Proof.
  unfold py_round.
  change (10 ^ Z.of_nat 3)%Z with 1000%Z.
  change (Z.to_pos 1000) with 1000%positive.
  set (y := (x * inject_Z 1000)%Q).
  set (lo := Qfloor y).
  assert (Hlo : (inject_Z lo <= y)%Q) by apply Qfloor_le.
  assert (Hhi : (y < inject_Z lo + 1)%Q).
  { pose proof (Qlt_floor y) as H. fold lo in H.
    rewrite inject_Z_plus in H. exact H. }
  assert (Hy : (y == x * 1000)%Q) by reflexivity.
  assert (Hn : forall n : Z, (Qred (n # 1000) == inject_Z n * (1 # 1000))%Q).
  { intros n. rewrite Qred_correct. unfold Qeq; simpl. lia. }
  assert (H2 : ((y - inject_Z lo) * inject_Z 2 == (y - inject_Z lo) * 2)%Q)
    by reflexivity.
  clearbody lo. clearbody y.
  destruct (Qle_bool 1 ((y - inject_Z lo) * inject_Z 2)) eqn:E1.
  - apply Qle_bool_iff in E1. rewrite H2 in E1.
    destruct (Qeq_bool ((y - inject_Z lo) * inject_Z 2) 1) eqn:E2.
    + apply Qeq_bool_iff in E2. rewrite H2 in E2.
      destruct (Z.even lo).
      * exists lo. split; [apply Qred_correct|]. rewrite Hn.
        split; lra.
      * exists (lo + 1)%Z. split; [apply Qred_correct|].
        rewrite Hn, inject_Z_plus. change (inject_Z 1) with 1%Q. split; lra.
    + exists (lo + 1)%Z. split; [apply Qred_correct|].
      rewrite Hn, inject_Z_plus. change (inject_Z 1) with 1%Q. split; lra.
  - assert (E1' : ~ (1 <= (y - inject_Z lo) * 2)%Q).
    { intros H. rewrite <- H2 in H. apply Qle_bool_iff in H. congruence. }
    apply Qnot_le_lt in E1'.
    exists lo. split; [apply Qred_correct|]. rewrite Hn.
    split; lra.
Qed.

(** ** The cache *)

Section CacheFacts.
Variable env : Env.

Lemma get_cases a p ctx c w :
  Cache.get env a p ctx c w
  = match store_fault env (store_requests w) with
    | Some e => (Raise e, c, count_request w)
    | None =>
        match live_entry (store_time env (store_requests w))
                         (Cache._build_key a p ctx) w with
        | Some v => (Ok (Some v), Cache.count_hit c, count_request w)
        | None => (Ok None, Cache.count_miss c, count_request w)
        end
    end.
Proof.
  unfold Cache.get, bind, lift, redis_get, modify, ret.
  destruct (store_fault env (store_requests w)); [reflexivity|].
  destruct (live_entry _ _ w); reflexivity.
Qed.

Lemma put_cases a p r ctx c w :
  Cache.put env a p r ctx c w
  = match store_fault env (store_requests w) with
    | Some e => (Raise e, c, count_request w)
    | None =>
        if (cache_ttl (Cache.config c) <=? 0)%Z
        then (Raise ResponseError, c, count_request w)
        else (Ok tt, c,
              set_redis
                (<[Cache._build_key a p ctx :=
                     (r, (store_time env (store_requests w)
                          + inject_Z (cache_ttl (Cache.config c)))%Q)]>
                   (redis w))
                (count_request w))
    end.
Proof.
  unfold Cache.put, bind, lift, redis_setex, get_self.
  destruct (store_fault env (store_requests w)); [reflexivity|].
  destruct (cache_ttl (Cache.config c) <=? 0)%Z; reflexivity.
Qed.

(** A [get] that returns has counted a hit when it returns a response and
    a miss when it returns [None], and nothing else. *)
Lemma get_counts a p ctx c w r c' w' :
  Cache.get env a p ctx c w = (Ok r, c', w') ->
  Cache._hits c' = Cache._hits c + (if is_hit r then 1 else 0) /\
  Cache._misses c' = Cache._misses c + (if is_hit r then 0 else 1) /\
  Cache.config c' = Cache.config c.
Proof.
  rewrite get_cases.
  destruct (store_fault env (store_requests w)); [discriminate|].
  destruct (live_entry _ _ w); intros H; inversion H; subst; simpl;
    repeat split; lia.
Qed.

Lemma get_all_counts reqs c w rs c' w' :
  Cache.get_all env reqs c w = (Ok rs, c', w') ->
  length rs = length reqs /\
  Cache._hits c' = Cache._hits c + length (List.filter is_hit rs) /\
  Cache._misses c' = Cache._misses c
                     + length (List.filter (fun r => negb (is_hit r)) rs).
Proof.
  revert c w rs c' w'.
  induction reqs as [|q reqs IH]; intros c w rs c' w'; simpl.
  - unfold ret. intros H; inversion H; subst. simpl. repeat split; lia.
  - unfold bind at 1.
    destruct (Cache.get env _ _ _ c w) as [[[r|e] c1] w1] eqn:Eg;
      [|discriminate].
    unfold bind at 1.
    destruct (Cache.get_all env reqs c1 w1) as [[[rs'|e] c2] w2] eqn:Ea;
      [|discriminate].
    unfold ret. intros H; inversion H; subst.
    apply get_counts in Eg. destruct Eg as (Hh & Hm & _).
    apply IH in Ea. destruct Ea as (Hl & Hh' & Hm').
    simpl. destruct (is_hit r); simpl; repeat split; lia.
Qed.
End CacheFacts.

Lemma hit_rate_value (c : Cache.AgentResponseCache) :
  0 < Cache._hits c + Cache._misses c ->
  (Cache.hit_rate c
   == inject_Z (Z.of_nat (Cache._hits c))
      / inject_Z (Z.of_nat (Cache._hits c + Cache._misses c)))%Q.
Proof.
  intros H. unfold Cache.hit_rate.
  destruct (Nat.ltb_spec 0 (Cache._hits c + Cache._misses c)); [|lia].
  now apply confidence_value.
Qed.

(** C3 (as amended).  After a sequence of [get] calls on a fresh cache
    that all return, every call has incremented exactly one counter (the
    hit counter when it returned a response, the miss counter when it
    returned nothing), so hits plus misses is the number of calls; the
    [hit_rate] property is hits divided by hits plus misses, and 0 when no
    call has been made; and [stats] reports the counters and the hit rate
    rounded to three decimals, at most 0.0005 away from it. *)
Theorem cache_accounting (env : Env) (cfg : OptimizerConfig)
        (reqs : list Cache.Lookup) (w : World)
        (rs : list (option AgentResult)) (c' : Cache.AgentResponseCache)
        (w' : World) :
  Cache.get_all env reqs (Cache.init cfg) w = (Ok rs, c', w') ->
  let stats := Cache.stats c' in
  length rs = length reqs /\
  Cache._hits c' = length (List.filter is_hit rs) /\
  Cache._misses c' = length (List.filter (fun r => negb (is_hit r)) rs) /\
  Cache._hits c' + Cache._misses c' = length reqs /\
  (reqs = [] -> Cache.hit_rate c' = 0%Q) /\
  (reqs <> [] ->
   (Cache.hit_rate c'
    == inject_Z (Z.of_nat (Cache._hits c'))
       / inject_Z (Z.of_nat (Cache._hits c' + Cache._misses c')))%Q) /\
  Cache.hits stats = Cache._hits c' /\
  Cache.misses stats = Cache._misses c' /\
  exists n : Z,
    (Cache.stats_hit_rate stats == n # 1000)%Q /\
    (- (1 # 2000) <= Cache.stats_hit_rate stats - Cache.hit_rate c')%Q /\
    (Cache.stats_hit_rate stats - Cache.hit_rate c' <= 1 # 2000)%Q.
Proof.
  intros Hrun stats. apply get_all_counts in Hrun. simpl in Hrun.
  destruct Hrun as (Hl & Hh & Hm).
  assert (Hsum : Cache._hits c' + Cache._misses c' = length reqs).
  { rewrite Hh, Hm, <- Hl. clear. induction rs as [|r rs IH]; [reflexivity|].
    simpl. destruct (is_hit r); simpl; lia. }
  repeat split; auto.
  - intros ->. unfold Cache.hit_rate. simpl in Hsum. now rewrite Hsum.
  - intros Hne. apply hit_rate_value. rewrite Hsum.
    destruct reqs; [congruence|simpl; lia].
  - apply py_round_3_close.
Qed.

Lemma cache_accounting_witness :
  exists rs c' w',
    Cache.get_all (Sample.env 1) Sample.lookups
                  (Cache.init default_config) Sample.one_entry
    = (Ok rs, c', w') /\
    Cache._hits c' + Cache._misses c' = 3.
Proof.
  destruct (Cache.get_all (Sample.env 1) Sample.lookups
                          (Cache.init default_config) Sample.one_entry)
    as [[[rs|e] c'] w'] eqn:E; [|vm_compute in E; discriminate].
  exists rs, c', w'. split; [reflexivity|].
  apply (cache_accounting _ _ _ _ _ _ _ E).
Defined.

(** C3, as stated, fails for the rate that [stats] reports: after one hit
    and two misses it is 0.333, not one third. *)
Lemma reported_hit_rate_is_rounded :
  let '(res, c, _) :=
    Cache.get_all (Sample.env 1) Sample.lookups
                  (Cache.init default_config) Sample.one_entry in
  is_ok res = true /\
  Cache._hits c = 1 /\ Cache._misses c = 2 /\
  Cache.stats_hit_rate (Cache.stats c) = (333 # 1000)%Q /\
  ~ (Cache.stats_hit_rate (Cache.stats c)
     == inject_Z (Z.of_nat (Cache._hits c))
        / inject_Z (Z.of_nat (Cache._hits c + Cache._misses c)))%Q.
Proof.
  vm_compute. repeat split; discriminate.
Qed.

(** ** The chain *)

Lemma bind_ok {S A B} (m : M S A) (k : A -> M S B) s w a s' w' :
  m s w = (Ok a, s', w') -> bind m k s w = k a s' w'.
Proof. unfold bind. now intros ->. Qed.

Lemma bind_raise {S A B} (m : M S A) (k : A -> M S B) s w e s' w' :
  m s w = (Raise e, s', w') -> bind m k s w = (Raise e, s', w').
Proof. unfold bind. now intros ->. Qed.

Lemma real_only_app h1 h2 : real_only (h1 ++ h2) = (real_only h1 ++ real_only h2)%list.
Proof. unfold real_only. now rewrite List.filter_app, map_app. Qed.

Lemma same_main_refl w : same_main w w.
Proof. repeat split. Qed.

Lemma same_main_trans w1 w2 w3 :
  same_main w1 w2 -> same_main w2 w3 -> same_main w1 w3.
Proof.
  unfold same_main. intros (A1 & A2 & A3 & A4 & A5) (B1 & B2 & B3 & B4 & B5).
  repeat split; congruence.
Qed.

Lemma dict_upd_not_nil {V} k (f : option V -> V) d : dict_upd k f d <> [].
Proof. destruct d as [|[k' v] d]; simpl; [|destruct (String.eqb k k')]; discriminate. Qed.

(** The router can always answer about an agent it has just recorded a
    transition from. *)
Lemma should_preload_after_record a b r :
  exists p, Router.should_preload a (Router.record_transition a b r) = Ok p.
Proof.
  unfold Router.should_preload, Router.predict_next. simpl.
  rewrite dict_get_upd_eq.
  set (c := Router.counter_incr b (default [] (dict_get a (Router._transitions r)))).
  assert (Ht : (Router.counter_total c =? 0) = false).
  { subst c. rewrite counter_total_incr. reflexivity. }
  assert (Hc : c <> []) by apply dict_upd_not_nil.
  destruct c as [|x rest]; [congruence|].
  unfold Router.most_common_1.
  destruct (Router.max_by_count x rest) as [best n]. rewrite Ht.
  destruct (Qle_bool _ _); eauto.
Qed.

Section ChainFacts.
Variable env : Env.

Lemma await_preload_ok a o w :
  exists o' w',
    Optimizer.await_preload env a o w = (Ok tt, o', w') /\
    Optimizer.cache o' = Optimizer.cache o /\
    Optimizer.router o' = Optimizer.router o /\
    same_main w w'.
Proof.
  unfold Optimizer.await_preload, bind, get_self.
  destruct (Optimizer._preloaded o !! a) as [f|].
  - unfold catch, lift, future_result, modify, ret.
    destruct (future_ready env (waits w)); [destruct (outcome f)|];
      eexists _, _; (split; [reflexivity|]); repeat split.
  - unfold ret. exists o, w. repeat split.
Qed.

Lemma preload_next_ok ids ctx i a o w :
  exists o' w',
    Optimizer.preload_next env ids ctx i a o w = (Ok tt, o', w') /\
    Optimizer.cache o' = Optimizer.cache o /\
    same_main w w'.
Proof.
  unfold Optimizer.preload_next.
  destruct (i <? length ids - 1); [|exists o, w; repeat split].
  unfold bind, modify, get_self, of_result.
  destruct (should_preload_after_record a (nth (i + 1) ids EmptyString)
                                        (Optimizer.router o)) as [p Hp].
  cbn [Optimizer.router Optimizer.set_router]. rewrite Hp.
  destruct p as [p|]; [|eexists _, _; split; [reflexivity|repeat split]].
  unfold lift, executor_submit, Optimizer._preload_context, invoke_agent.
  destruct (agent_reply env (sent w) Probe _);
    eexists _, _; (split; [reflexivity|]); (split; [reflexivity|]);
    repeat split; unfold real_calls; simpl;
    rewrite real_only_app; simpl; apply app_nil_r.
Qed.

(** What [_invoke_agent] does, case by case: the store fails on the
    lookup; the lookup hits; it misses and the agent fails; the agent
    answers and the store fails on, or rejects, the write; the write
    succeeds. *)
Lemma invoke_agent_eq a p ctx o w :
  Optimizer._invoke_agent env a p ctx o w
  = let n := store_requests w in
    let key := Cache._build_key a p ctx in
    let hit := Optimizer.set_cache (Cache.count_hit (Optimizer.cache o)) o in
    let miss := Optimizer.set_cache (Cache.count_miss (Optimizer.cache o)) o in
    let call :=
      {| agentId := a; agentAliasId := "TSTALIASID";
         sessionId := default "default" (dict_get "session_id" p);
         inputText := default EmptyString (dict_get "input_text" p) |} in
    match store_fault env n with
    | Some e => (Raise e, o, count_request w)
    | None =>
        match live_entry (store_time env n) key w with
        | Some v => (Ok v, hit, count_request w)
        | None =>
            let w1 := log_sent Real call (count_request w) in
            match agent_reply env (sent w) Real call with
            | Raise e => (Raise e, miss, w1)
            | Ok response =>
                let result :=
                  {| agent_id := a;
                     output :=
                       fold_left (fun acc ev => acc +:+ Optimizer.event_text ev)
                                 (default [] (completion response)) EmptyString;
                     timestamp := wall_clock env (clock_reads w);
                     latency_ms := None |} in
                let w2 := count_request (count_clock w1) in
                let ttl := cache_ttl (Cache.config (Optimizer.cache o)) in
                match store_fault env (S n) with
                | Some e => (Raise e, miss, w2)
                | None =>
                    if (ttl <=? 0)%Z then (Raise ResponseError, miss, w2)
                    else
                      (Ok result, miss,
                       set_redis
                         (<[key := (result,
                                    (store_time env (S n) + inject_Z ttl)%Q)]>
                            (redis w))
                         w2)
                end
            end
        end
    end.
Proof.
  cbv zeta.
  unfold Optimizer._invoke_agent, Optimizer.cache_get, Optimizer.cache_put,
    bind, zoom.
  rewrite get_cases.
  destruct (store_fault env (store_requests w)) as [e|] eqn:Ef.
  { destruct o; reflexivity. }
  destruct (live_entry _ _ w) as [v|] eqn:El; [reflexivity|].
  unfold lift, invoke_agent. simpl.
  destruct (agent_reply env (sent w) Real _) as [response|e]; [|reflexivity].
  unfold time_time. rewrite put_cases. simpl.
  destruct (store_fault env (S (store_requests w))); [reflexivity|].
  destruct (cache_ttl (Cache.config (Optimizer.cache o)) <=? 0)%Z; reflexivity.
Qed.

(** One iteration is the lookup-or-invoke of [_invoke_agent], between two
    passes through the warm-up machinery that leave the cache and the
    chain's view of the world alone. *)
Lemma chain_step_shape ids ctx i a x o w :
  let payload :=
    [("input_text", x);
     ("session_id", default EmptyString (dict_get "session_id" ctx))] in
  exists o1 w1,
    Optimizer.cache o1 = Optimizer.cache o /\ same_main w w1 /\
    match Optimizer._invoke_agent env a payload (Some ctx) o1
                                  (count_monotonic w1) with
    | (Raise e, o2, w2) =>
        Optimizer.chain_step env ids ctx i a x o w = (Raise e, o2, w2)
    | (Ok r, o2, w2) =>
        exists ms o3 w3,
          Optimizer.chain_step env ids ctx i a x o w
          = (Ok (Optimizer.with_latency ms r), o3, w3) /\
          Optimizer.cache o3 = Optimizer.cache o2 /\
          same_main (count_monotonic w2) w3
    end.
Proof.
  intros payload.
  destruct (await_preload_ok a o w) as (o1 & w1 & Ha & Hc & _ & Hw).
  exists o1, w1. split; [exact Hc|]. split; [exact Hw|].
  unfold Optimizer.chain_step. fold payload.
  rewrite (bind_ok _ _ _ _ _ _ _ Ha).
  rewrite (bind_ok (lift (time_monotonic env)) _ o1 w1
                   (monotonic_clock env (monotonic_reads w1)) o1
                   (count_monotonic w1) eq_refl).
  destruct (Optimizer._invoke_agent env a payload (Some ctx) o1
                                    (count_monotonic w1))
    as [[[r|e] o2] w2] eqn:Ei.
  - rewrite (bind_ok _ _ _ _ _ _ _ Ei).
    rewrite (bind_ok (lift (time_monotonic env)) _ o2 w2
                     (monotonic_clock env (monotonic_reads w2)) o2
                     (count_monotonic w2) eq_refl).
    destruct (preload_next_ok ids ctx i a o2 (count_monotonic w2))
      as (o3 & w3 & Hp & Hc3 & Hw3).
    rewrite (bind_ok _ _ _ _ _ _ _ Hp). unfold ret.
    eexists _, o3, w3. split; [reflexivity|]. split; assumption.
  - now rewrite (bind_raise _ _ _ _ _ _ _ Ei).
Qed.
End ChainFacts.

Section StepFacts.
Variable env : Env.

(** A step that returns either found its response in the store, or
    missed, invoked the agent and stored the new response. *)
Lemma chain_step_ok_inv ids ctx i a x o w r o' w' :
  Optimizer.chain_step env ids ctx i a x o w = (Ok r, o', w') ->
  let n := store_requests w in
  let key := step_key ctx a x in
  store_fault env n = None /\
  clock_reads w <= clock_reads w' /\
  ((exists v,
       live_entry (store_time env n) key w = Some v /\
       without_latency r = without_latency v /\
       Optimizer.cache o' = Cache.count_hit (Optimizer.cache o) /\
       redis w' = redis w /\
       store_requests w' = S n /\
       real_calls w' = real_calls w)
   \/
   (live_entry (store_time env n) key w = None /\
    store_fault env (S n) = None /\
    Optimizer.cache o' = Cache.count_miss (Optimizer.cache o) /\
    redis w'
    = <[key := (without_latency r,
                (store_time env (S n)
                 + inject_Z (cache_ttl (Cache.config (Optimizer.cache o))))%Q)]>
        (redis w) /\
    store_requests w' = S (S n) /\
    real_calls w' = (real_calls w ++ [step_call ctx a x])%list)).
Proof.
  intros Hs n key.
  destruct (chain_step_shape env ids ctx i a x o w)
    as (o1 & w1 & Hc1 & (W1 & W2 & W3 & W4 & W5) & Hshape).
  rewrite invoke_agent_eq in Hshape. cbv zeta in Hshape.
  change (store_requests (count_monotonic w1)) with (store_requests w1) in Hshape.
  change (live_entry ?t ?k (count_monotonic w1)) with (live_entry t k w1) in Hshape.
  assert (Hlive : forall t k, live_entry t k w1 = live_entry t k w)
    by (intros; unfold live_entry; now rewrite W4).
  rewrite W3, Hlive, Hc1 in Hshape. fold n in Hshape.
  change (Cache._build_key a _ (Some ctx)) with key in Hshape.
  destruct (store_fault env n) as [e|] eqn:Ef.
  { rewrite Hs in Hshape. discriminate. }
  split; [reflexivity|].
  destruct (live_entry (store_time env n) key w) as [v|] eqn:El.
  - destruct Hshape as (ms & o3 & w3 & Heq & Hc3 & (V1 & V2 & V3 & V4 & V5)).
    rewrite Hs in Heq. inversion Heq; subst r o3 w3.
    unfold n, real_calls in *. simpl in *.
    split; [lia|]. left. exists v. repeat split; congruence.
  - simpl in Hshape.
    destruct (agent_reply env (sent w1) Real _) as [resp|e];
      [|rewrite Hs in Hshape; discriminate].
    destruct (store_fault env (S n)) as [e|] eqn:Ef2;
      [rewrite Hs in Hshape; discriminate|].
    destruct (cache_ttl (Cache.config (Optimizer.cache o)) <=? 0)%Z;
      [rewrite Hs in Hshape; discriminate|].
    destruct Hshape as (ms & o3 & w3 & Heq & Hc3 & (V1 & V2 & V3 & V4 & V5)).
    rewrite Hs in Heq. inversion Heq; subst r o3 w3.
    unfold n, real_calls in *. simpl in *.
    split; [lia|]. right. repeat split; try congruence.
    + rewrite V4, W4, W1. reflexivity.
    + rewrite V5, real_only_app, W5. reflexivity.
Qed.

(** A step whose response is in the store, unexpired, returns it without
    invoking the agent. *)
Lemma chain_step_hit ids ctx i a x o w v :
  store_fault env (store_requests w) = None ->
  live_entry (store_time env (store_requests w)) (step_key ctx a x) w = Some v ->
  exists ms o' w',
    Optimizer.chain_step env ids ctx i a x o w
    = (Ok (Optimizer.with_latency ms v), o', w') /\
    Optimizer.cache o' = Cache.count_hit (Optimizer.cache o) /\
    redis w' = redis w /\
    store_requests w' = S (store_requests w) /\
    clock_reads w' = clock_reads w /\
    real_calls w' = real_calls w.
Proof.
  intros Hf Hl.
  destruct (chain_step_shape env ids ctx i a x o w)
    as (o1 & w1 & Hc1 & (W1 & W2 & W3 & W4 & W5) & Hshape).
  rewrite invoke_agent_eq in Hshape. cbv zeta in Hshape.
  change (store_requests (count_monotonic w1)) with (store_requests w1) in Hshape.
  change (live_entry ?t ?k (count_monotonic w1)) with (live_entry t k w1) in Hshape.
  assert (Hlive : forall t k, live_entry t k w1 = live_entry t k w)
    by (intros; unfold live_entry; now rewrite W4).
  rewrite W3, Hlive, Hc1, Hf in Hshape.
  change (Cache._build_key a _ (Some ctx)) with (step_key ctx a x) in Hshape.
  rewrite Hl in Hshape.
  destruct Hshape as (ms & o3 & w3 & Heq & Hc3 & (V1 & V2 & V3 & V4 & V5)).
  exists ms, o3, w3. unfold real_calls in *. simpl in *.
  repeat split; congruence.
Qed.

(** A step on which the store fails at the lookup raises what the store
    raised, before any call to the agent. *)
Lemma chain_step_lookup_fault ids ctx i a x o w e :
  store_fault env (store_requests w) = Some e ->
  exists o' w',
    Optimizer.chain_step env ids ctx i a x o w = (Raise e, o', w') /\
    real_calls w' = real_calls w.
Proof.
  intros Hf.
  destruct (chain_step_shape env ids ctx i a x o w)
    as (o1 & w1 & Hc1 & (W1 & W2 & W3 & W4 & W5) & Hshape).
  rewrite invoke_agent_eq in Hshape. cbv zeta in Hshape.
  change (store_requests (count_monotonic w1)) with (store_requests w1) in Hshape.
  rewrite W3, Hf in Hshape.
  eexists _, _. split; [exact Hshape|]. exact W5.
Qed.

(** A step that misses, gets an answer from the agent and on which the
    store fails at the write raises what the store raised. *)
Lemma chain_step_write_fault ids ctx i a x o w e :
  store_fault env (store_requests w) = None ->
  live_entry (store_time env (store_requests w)) (step_key ctx a x) w = None ->
  (forall h c, is_ok (agent_reply env h Real c) = true) ->
  store_fault env (S (store_requests w)) = Some e ->
  exists o' w',
    Optimizer.chain_step env ids ctx i a x o w = (Raise e, o', w') /\
    real_calls w' = (real_calls w ++ [step_call ctx a x])%list.
Proof.
  intros Hf Hl Hok Hf2.
  destruct (chain_step_shape env ids ctx i a x o w)
    as (o1 & w1 & Hc1 & (W1 & W2 & W3 & W4 & W5) & Hshape).
  rewrite invoke_agent_eq in Hshape. cbv zeta in Hshape.
  change (store_requests (count_monotonic w1)) with (store_requests w1) in Hshape.
  change (live_entry ?t ?k (count_monotonic w1)) with (live_entry t k w1) in Hshape.
  assert (Hlive : forall t k, live_entry t k w1 = live_entry t k w)
    by (intros; unfold live_entry; now rewrite W4).
  rewrite W3, Hlive, Hf in Hshape.
  change (Cache._build_key a _ (Some ctx)) with (step_key ctx a x) in Hshape.
  rewrite Hl in Hshape. simpl in Hshape.
  specialize (Hok (sent w1) (step_call ctx a x)).
  change (mkCall a "TSTALIASID" _ x) with (step_call ctx a x) in Hshape.
  destruct (agent_reply env (sent w1) Real (step_call ctx a x)) as [resp|e'];
    [|discriminate].
  rewrite Hf2 in Hshape.
  eexists _, _. split; [exact Hshape|].
  unfold real_calls in *. simpl. rewrite real_only_app, W5. reflexivity.
Qed.
End StepFacts.

Lemma live_entry_empty now key w : redis w = ∅ -> live_entry now key w = None.
Proof. unfold live_entry. intros ->. now rewrite lookup_empty. Qed.

(** C2 (as amended).  A failure of the backing store is not absorbed: when
    the store fails on a request, [get] raises the failure and counts
    neither a hit nor a miss, [put] raises it, and a chain whose first
    lookup fails, or whose first write fails after the agent has answered,
    is aborted with that failure. *)
Theorem store_failure_propagates (env : Env) (e : exn) :
  (forall a p ctx c w,
      store_fault env (store_requests w) = Some e ->
      Cache.get env a p ctx c w = (Raise e, c, count_request w) /\
      (forall r, Cache.put env a p r ctx c w = (Raise e, c, count_request w))) /\
  (forall a ids x o w,
      store_fault env (store_requests w) = Some e ->
      exists o' w',
        Optimizer.run_chain env (a :: ids) x o w = (Raise e, o', w') /\
        real_calls w' = real_calls w) /\
  (forall a ids x o w,
      store_fault env (store_requests w) = None ->
      redis w = ∅ ->
      (forall h c, is_ok (agent_reply env h Real c) = true) ->
      store_fault env (S (store_requests w)) = Some e ->
      exists o' w',
        Optimizer.run_chain env (a :: ids) x o w = (Raise e, o', w') /\
        length (real_calls w') = S (length (real_calls w))).
Proof.
  split; [|split].
  - intros a p ctx c w Hf. split; [|intros r].
    + rewrite get_cases. now rewrite Hf.
    + rewrite put_cases. now rewrite Hf.
  - intros a ids x o w Hf. unfold Optimizer.run_chain.
    rewrite (bind_ok (lift (time_time env)) _ o w
                     (wall_clock env (clock_reads w)) o (count_clock w) eq_refl).
    cbn [Optimizer.chain_loop].
    match goal with
    | |- context [Optimizer.chain_step env ?ids ?ctx ?i a x] =>
        destruct (chain_step_lookup_fault env ids ctx i a x o (count_clock w) e Hf)
          as (o' & w' & Hs & Hr)
    end.
    exists o', w'. split; [|exact Hr].
    now rewrite (bind_raise _ _ _ _ _ _ _ Hs).
  - intros a ids x o w Hf He Hok Hf2. unfold Optimizer.run_chain.
    rewrite (bind_ok (lift (time_time env)) _ o w
                     (wall_clock env (clock_reads w)) o (count_clock w) eq_refl).
    cbn [Optimizer.chain_loop].
    match goal with
    | |- context [Optimizer.chain_step env ?ids ?ctx ?i a x] =>
        destruct (chain_step_write_fault env ids ctx i a x o (count_clock w) e
                    Hf (live_entry_empty _ _ (count_clock w) He) Hok Hf2)
          as (o' & w' & Hs & Hr)
    end.
    exists o', w'. split; [now rewrite (bind_raise _ _ _ _ _ _ _ Hs)|].
    rewrite Hr, length_app. unfold real_calls. simpl. lia.
Qed.

Lemma store_failure_propagates_witness :
  (exists o' w',
      Optimizer.run_chain Sample.env_store_down Sample.chain "hello"
                          (Optimizer.init None) Sample.cold
      = (Raise ConnectionError, o', w') /\
      real_calls w' = real_calls Sample.cold) /\
  (exists o' w',
      Optimizer.run_chain Sample.env_write_fails Sample.chain "hello"
                          (Optimizer.init None) Sample.cold
      = (Raise ConnectionError, o', w') /\
      length (real_calls w') = S (length (real_calls Sample.cold))).
Proof.
  split.
  - apply (proj1 (proj2 (store_failure_propagates
                           Sample.env_store_down ConnectionError))).
    reflexivity.
  - apply (proj2 (proj2 (store_failure_propagates
                           Sample.env_write_fails ConnectionError)));
      reflexivity.
Defined.

(** C2, as stated, fails: with the store down, [get] raises instead of
    returning absence, [put] raises, and the chain is aborted. *)
Lemma store_failure_is_raised :
  fst (fst (Cache.get Sample.env_store_down "classifier" [] None
                      (Cache.init default_config) Sample.cold))
  = Raise ConnectionError /\
  fst (fst (Cache.put Sample.env_store_down "classifier" []
                      (mkResult "classifier" "text" 1000 None) None
                      (Cache.init default_config) Sample.cold))
  = Raise ConnectionError /\
  fst (fst (Optimizer.run_chain Sample.env_store_down Sample.chain "hello"
                                (Optimizer.init None) Sample.cold))
  = Raise ConnectionError.
Proof. vm_compute. repeat split. Qed.

(** C10.  [run_chain] on the empty list of agents returns the empty list
    of results; it reads the clock once, for the session identifier, and
    does nothing else: the optimizer (cache counters, transition table,
    pending warm-ups) is unchanged, the store has received no request and
    holds what it held, nothing was sent to the agents and no future was
    waited for. *)
Theorem run_chain_empty (env : Env) (input_text : string)
        (o : Optimizer.BedrockAgentOptimizer) (w : World) :
  exists w',
    Optimizer.run_chain env [] input_text o w = (Ok [], o, w') /\
    store_requests w' = store_requests w /\
    redis w' = redis w /\
    sent w' = sent w /\
    waits w' = waits w /\
    monotonic_reads w' = monotonic_reads w /\
    clock_reads w' = S (clock_reads w).
Proof. exists (count_clock w). repeat split. Qed.

(** *** A first run fills the store, a second run is served from it *)

Lemma bind_ok_inv {S A B} (m : M S A) (k : A -> M S B) s w b s' w' :
  bind m k s w = (Ok b, s', w') ->
  exists a s1 w1, m s w = (Ok a, s1, w1) /\ k a s1 w1 = (Ok b, s', w').
Proof.
  unfold bind. destruct (m s w) as [[[a|e] s1] w1]; [|discriminate].
  intros H. now exists a, s1, w1.
Qed.

Lemma live_entry_Some now key w v :
  live_entry now key w = Some v ->
  exists expiry, redis w !! key = Some (v, expiry) /\ Qle_bool expiry now = false.
Proof.
  unfold live_entry. destruct (redis w !! key) as [[v' expiry]|]; [|discriminate].
  destruct (Qle_bool expiry now) eqn:E; [discriminate|].
  intros H; inversion H; subst. now exists expiry.
Qed.

Lemma without_latency_idem r : without_latency (without_latency r) = without_latency r.
Proof. reflexivity. Qed.

Lemma without_with_latency ms r :
  without_latency (Optimizer.with_latency ms r) = without_latency r.
Proof. reflexivity. Qed.

Lemma without_latency_output r r' :
  without_latency r = without_latency r' -> output r = output r'.
Proof. intros H. apply (f_equal output) in H. exact H. Qed.

Lemma served_mono m m' ctx rest x rs :
  m ⊆ m' -> served m ctx rest x rs -> served m' ctx rest x rs.
Proof.
  intros Hsub. revert x rs.
  induction rest as [|a rest IH]; intros x [|r rs]; simpl; auto.
  intros [(v & expiry & Hl & Hv) Hs]. split; [|now apply IH].
  exists v, expiry. split; [|exact Hv].
  eapply lookup_weaken; eassumption.
Qed.

Section RunFacts.
Variable env : Env.

Local Abbreviation hits_of o := (Cache._hits (Optimizer.cache o)).
Local Abbreviation misses_of o := (Cache._misses (Optimizer.cache o)).
Local Abbreviation ttl_of o := (cache_ttl (Cache.config (Optimizer.cache o))).

(** Every step of a run that returns makes one lookup; it invokes the
    agent when the lookup misses and only then. *)
Lemma chain_loop_accounting ids ctx i rest x results o w rs o' w' :
  Optimizer.chain_loop env ids ctx i rest x results o w = (Ok rs, o', w') ->
  hits_of o' + misses_of o' = hits_of o + misses_of o + length rest /\
  length (real_calls w') + misses_of o = length (real_calls w) + misses_of o' /\
  misses_of o <= misses_of o' /\
  store_requests w <= store_requests w' /\
  ttl_of o' = ttl_of o.
Proof.
  revert i x results o w.
  induction rest as [|a rest IH]; intros i x results o w; simpl.
  - unfold ret. intros H; inversion H; subst. repeat split; lia.
  - intros H. apply bind_ok_inv in H. destruct H as (r & o1 & w1 & Hs & Hl).
    apply IH in Hl. destruct Hl as (L1 & L2 & L3 & L4 & L5).
    apply chain_step_ok_inv in Hs. cbv zeta in Hs.
    destruct Hs as (_ & _ & [(v & _ & _ & Hc & _ & Hq & Hr)
                            |(_ & _ & Hc & _ & Hq & Hr)]);
      rewrite Hc in *; rewrite Hr in *; simpl in *;
      try rewrite length_app in *; simpl in *; repeat split; lia.
Qed.

Lemma live_when_present ttl lo hi w k v expiry m :
  written_since env ttl lo w ->
  unexpired_between env ttl lo hi ->
  store_requests w <= hi ->
  lo <= m < hi ->
  redis w !! k = Some (v, expiry) ->
  Qle_bool expiry (store_time env m) = false.
Proof.
  intros Hw Hu Hhi Hm Hl. destruct (Hw _ _ _ Hl) as (n & Hn & ->).
  destruct (Qle_bool _ _) eqn:E; [|reflexivity].
  apply Qle_bool_iff in E. exfalso.
  apply (Qlt_not_le _ _ (Hu n m ltac:(lia) Hm) E).
Qed.

(** While nothing expires, a step only adds to the store, and what it
    returned is in the store afterwards. *)
Lemma run1_step ttl lo hi ids ctx i a x o w r o' w' :
  written_since env ttl lo w ->
  unexpired_between env ttl lo hi ->
  lo <= store_requests w ->
  store_requests w' <= hi ->
  ttl_of o = ttl ->
  Optimizer.chain_step env ids ctx i a x o w = (Ok r, o', w') ->
  written_since env ttl lo w' /\
  redis w ⊆ redis w' /\
  store_requests w <= store_requests w' /\
  ttl_of o' = ttl /\
  exists v expiry,
    redis w' !! step_key ctx a x = Some (v, expiry) /\
    without_latency v = without_latency r.
Proof.
  intros Hw Hu Hlo Hhi Httl Hs.
  apply chain_step_ok_inv in Hs. cbv zeta in Hs.
  destruct Hs as (_ & _ & [(v & Hl & Hv & Hc & Hr & Hq & _)
                          |(Hl & _ & Hc & Hr & Hq & _)]).
  - apply live_entry_Some in Hl. destruct Hl as (expiry & Hl & _).
    split; [|split; [|split; [|split]]].
    + intros k v' e' Hk. rewrite Hr in Hk.
      destruct (Hw _ _ _ Hk) as (n & Hn & He). exists n. split; [lia|exact He].
    + now rewrite Hr.
    + lia.
    + rewrite Hc. exact Httl.
    + exists v, expiry. rewrite Hr. split; [exact Hl|now symmetry].
  - assert (Habs : redis w !! step_key ctx a x = None).
    { destruct (redis w !! step_key ctx a x) as [[v e]|] eqn:Hk; [|reflexivity].
      exfalso. unfold live_entry in Hl. rewrite Hk in Hl.
      rewrite (live_when_present ttl lo hi w (step_key ctx a x) v e
                                 (store_requests w) Hw Hu) in Hl;
        [discriminate|lia|lia|exact Hk]. }
    split; [|split; [|split; [|split]]].
    + intros k v' e' Hk. rewrite Hr in Hk.
      destruct (decide (step_key ctx a x = k)) as [<-|Hne].
      * rewrite lookup_insert_eq in Hk. injection Hk as <- <-.
        exists (S (store_requests w)). split; [lia|]. now rewrite Httl.
      * rewrite lookup_insert_ne in Hk by exact Hne.
        destruct (Hw _ _ _ Hk) as (n & Hn & He). exists n. split; [lia|exact He].
    + rewrite Hr. now apply insert_subseteq.
    + lia.
    + rewrite Hc. exact Httl.
    + eexists _, _. rewrite Hr, lookup_insert_eq. split; reflexivity.
Qed.

Lemma run1_loop ttl lo hi ids ctx i rest x results o w rs o' w' :
  written_since env ttl lo w ->
  unexpired_between env ttl lo hi ->
  lo <= store_requests w ->
  store_requests w' <= hi ->
  ttl_of o = ttl ->
  Optimizer.chain_loop env ids ctx i rest x results o w = (Ok rs, o', w') ->
  written_since env ttl lo w' /\
  redis w ⊆ redis w' /\
  exists new, rs = (results ++ new)%list /\ served (redis w') ctx rest x new.
Proof.
  revert i x results o w.
  induction rest as [|a rest IH]; intros i x results o w Hw Hu Hlo Hhi Httl; simpl.
  - unfold ret. intros H; inversion H; subst.
    split; [exact Hw|]. split; [reflexivity|].
    exists []. split; [now rewrite app_nil_r|exact I].
  - intros H. apply bind_ok_inv in H. destruct H as (r & o1 & w1 & Hs & Hl).
    pose proof (chain_loop_accounting _ _ _ _ _ _ _ _ _ _ _ Hl)
      as (_ & _ & _ & Hq & _).
    destruct (run1_step ttl lo hi _ _ _ _ _ _ _ _ _ _ Hw Hu Hlo
                        (Nat.le_trans _ _ _ Hq Hhi) Httl Hs)
      as (Hw1 & Hsub1 & Hq1 & Httl1 & v & expiry & Hk & Hv).
    destruct (IH _ _ _ _ _ Hw1 Hu (Nat.le_trans _ _ _ Hlo Hq1) Hhi Httl1 Hl)
      as (Hw' & Hsub & new & -> & Hserved).
    split; [exact Hw'|]. split; [etransitivity; eassumption|].
    exists (r :: new). split; [now rewrite <- app_assoc|].
    simpl. split; [|exact Hserved].
    exists v, expiry. split; [|exact Hv].
    eapply lookup_weaken; eassumption.
Qed.

(** A run whose steps have keys that differ from one another and from
    every key of the store misses at every step. *)
Lemma chain_loop_all_miss ids ctx i rest x results o w rs o' w' seen :
  (forall k, redis w !! k <> None -> In k seen) ->
  Optimizer.chain_loop env ids ctx i rest x results o w = (Ok rs, o', w') ->
  exists new,
    rs = (results ++ new)%list /\
    (NoDup (seen ++ step_keys ctx rest x new) ->
     misses_of o' = misses_of o + length rest).
Proof.
  revert i x results o w seen.
  induction rest as [|a rest IH]; intros i x results o w seen Hdom; simpl.
  - unfold ret. intros H; inversion H; subst.
    exists []. split; [now rewrite app_nil_r|]. intros _. lia.
  - intros H. apply bind_ok_inv in H. destruct H as (r & o1 & w1 & Hs & Hl).
    apply chain_step_ok_inv in Hs. cbv zeta in Hs.
    destruct Hs as (_ & _ & Hcase).
    assert (Hdom1 : forall k, redis w1 !! k <> None ->
                              In k (seen ++ [step_key ctx a x])).
    { intros k Hk. apply in_or_app.
      destruct Hcase as [(v & _ & _ & _ & Hr & _)|(_ & _ & _ & Hr & _)];
        rewrite Hr in Hk.
      - left. now apply Hdom.
      - destruct (decide (step_key ctx a x = k)) as [<-|Hne];
          [right; now left|].
        rewrite lookup_insert_ne in Hk by exact Hne. left. now apply Hdom. }
    destruct (IH _ _ _ _ _ _ Hdom1 Hl) as (new & -> & Hmiss).
    exists (r :: new). split; [now rewrite <- app_assoc|].
    simpl. intros Hnd.
    assert (Hfresh : ~ In (step_key ctx a x) seen).
    { apply NoDup_app in Hnd. destruct Hnd as (_ & Hdisj & _).
      intros Hin. apply (Hdisj (step_key ctx a x)).
      - now apply list_elem_of_In.
      - left. }
    rewrite Hmiss by (now rewrite <- app_assoc).
    destruct Hcase as [(v & Hlive & _)|(_ & _ & Hc & _)].
    + exfalso. apply Hfresh, Hdom.
      apply live_entry_Some in Hlive. destruct Hlive as (e & -> & _).
      discriminate.
    + rewrite Hc. simpl. lia.
Qed.

(** A run whose steps are all in the store, unexpired, replays them
    without invoking the agent. *)
Lemma run2_loop ids ctx i rest x results o w new :
  served (redis w) ctx rest x new ->
  (forall k v expiry m,
      redis w !! k = Some (v, expiry) ->
      store_requests w <= m < store_requests w + length rest ->
      Qle_bool expiry (store_time env m) = false) ->
  (forall n, store_requests w <= n < store_requests w + length rest ->
             store_fault env n = None) ->
  exists new' o' w',
    Optimizer.chain_loop env ids ctx i rest x results o w
    = (Ok (results ++ new')%list, o', w') /\
    map without_latency new' = map without_latency new /\
    real_calls w' = real_calls w /\
    hits_of o' = hits_of o + length rest /\
    misses_of o' = misses_of o.
Proof.
  revert i x results o w new.
  induction rest as [|a rest IH]; intros i x results o w [|r new]; simpl;
    try contradiction.
  - intros _ _ _. exists [], o, w. unfold ret. rewrite app_nil_r.
    repeat split; lia.
  - intros [(v & expiry & Hk & Hv) Hserved] Hlive Hfault.
    assert (Hl : live_entry (store_time env (store_requests w))
                            (step_key ctx a x) w = Some v).
    { unfold live_entry. rewrite Hk.
      now rewrite (Hlive _ _ _ (store_requests w) Hk) by lia. }
    assert (Hf : store_fault env (store_requests w) = None)
      by (apply Hfault; lia).
    destruct (chain_step_hit env ids ctx i a x o w v Hf Hl)
      as (ms & o1 & w1 & Hs & Hc & Hr & Hq & _ & Hcalls).
    rewrite (bind_ok _ _ _ _ _ _ _ Hs).
    assert (Hout : output (Optimizer.with_latency ms v) = output r)
      by (apply without_latency_output; rewrite without_with_latency; exact Hv).
    rewrite Hout.
    destruct (IH (S i) (output r) (results ++ [Optimizer.with_latency ms v])%list
                 o1 w1 new) as (new' & o' & w' & Hloop & Hmap & Hc' & Hh & Hm).
    + now rewrite Hr.
    + intros k v' e' m Hk' Hm. rewrite Hr in Hk'. apply (Hlive k v' e' m Hk'). lia.
    + intros n Hn. apply Hfault. lia.
    + exists (Optimizer.with_latency ms v :: new'), o', w'.
      rewrite Hloop, <- app_assoc. split; [reflexivity|].
      split; [simpl; rewrite Hmap, without_with_latency, Hv; reflexivity|].
      rewrite Hc', Hh, Hm, Hc. simpl. repeat split; try congruence; lia.
Qed.
End RunFacts.



Lemma sample_unexpired (dt : Q) (hi : nat) :
  (0 <= dt)%Q -> (dt <= 1)%Q -> hi <= 100 ->
  unexpired_between (Sample.env dt) 300 0 hi.
Proof.
  intros Hdt Hdt1 Hhi n m [_ Hn] [_ Hm]. simpl.
  assert (Hm' : (inject_Z (Z.of_nat m) <= 100)%Q).
  { change 100%Q with (inject_Z 100). rewrite <- Zle_Qle. lia. }
  assert (Hm0 : (0 <= inject_Z (Z.of_nat m))%Q).
  { change 0%Q with (inject_Z 0). rewrite <- Zle_Qle. lia. }
  assert (Hn0 : (0 <= inject_Z (Z.of_nat n))%Q).
  { change 0%Q with (inject_Z 0). rewrite <- Zle_Qle. lia. }
  assert (H1 : (inject_Z (Z.of_nat m) * dt <= 100 * 1)%Q)
    by (apply Qmult_le_compat_nonneg; split; assumption).
  assert (H2 : (0 <= inject_Z (Z.of_nat n) * dt)%Q)
    by (apply Qmult_le_0_compat; assumption).
  change (inject_Z 300) with 300%Q. lra.
Qed.



(** *** The warm-up path does not change what a chain returns *)

Section Simulation.
Variables env1 env2 : Env.
Hypothesis Hagree : envs_agree env1 env2.

Lemma invoke_agree a p ctx o1 w1 o2 w2 :
  same_view o1 w1 o2 w2 ->
  let '(r1, o1', w1') := Optimizer._invoke_agent env1 a p ctx o1 w1 in
  let '(r2, o2', w2') := Optimizer._invoke_agent env2 a p ctx o2 w2 in
  r1 = r2 /\ same_view o1' w1' o2' w2'.
Proof.
  intros (Hc & Hclk & Hreq & Hred & Hcalls).
  destruct Hagree as (Hwall & Htime & Hfault & Hreply).
  rewrite !invoke_agent_eq. cbv zeta.
  assert (Hlive : forall t k, live_entry t k w1 = live_entry t k w2)
    by (intros; unfold live_entry; now rewrite Hred).
  rewrite Hreq, Hlive, Hc, Hclk, Hfault, Htime, Hwall.
  rewrite (Hreply (sent w1) (sent w2)) by exact Hcalls.
  rewrite (Hfault (S (store_requests w2))), (Htime (S (store_requests w2))).
  destruct (store_fault env2 (store_requests w2)).
  { split; [reflexivity|]. unfold same_view, real_calls in *; simpl.
    repeat split; congruence. }
  destruct (live_entry _ _ w2).
  { split; [reflexivity|]. unfold same_view, real_calls in *; simpl.
    repeat split; congruence. }
  destruct (agent_reply env2 (sent w2) Real _).
  2:{ split; [reflexivity|]. unfold same_view, real_calls in *; simpl.
      rewrite !real_only_app. repeat split; congruence. }
  destruct (store_fault env2 (S (store_requests w2)));
    [|destruct (cache_ttl (Cache.config (Optimizer.cache o2)) <=? 0)%Z];
    (split; [reflexivity|]); unfold same_view, real_calls in *; simpl;
    rewrite !real_only_app; repeat split; congruence.
Qed.

Lemma same_view_main o1 w1 o2 w2 o1' w1' o2' w2' :
  same_view o1 w1 o2 w2 ->
  Optimizer.cache o1' = Optimizer.cache o1 -> same_main w1 w1' ->
  Optimizer.cache o2' = Optimizer.cache o2 -> same_main w2 w2' ->
  same_view o1' w1' o2' w2'.
Proof.
  unfold same_view, same_main.
  intros (A1 & A2 & A3 & A4 & A5) B (C1 & _ & C3 & C4 & C5)
         D (E1 & _ & E3 & E4 & E5).
  rewrite B, D. repeat split; congruence.
Qed.

Lemma same_view_monotonic o1 w1 o2 w2 :
  same_view o1 w1 o2 w2 ->
  same_view o1 (count_monotonic w1) o2 (count_monotonic w2).
Proof. unfold same_view, real_calls. simpl. tauto. Qed.

Lemma chain_step_agree ids ctx i a x o1 w1 o2 w2 :
  same_view o1 w1 o2 w2 ->
  match Optimizer.chain_step env1 ids ctx i a x o1 w1,
        Optimizer.chain_step env2 ids ctx i a x o2 w2 with
  | (Ok r1, o1', w1'), (Ok r2, o2', w2') =>
      without_latency r1 = without_latency r2 /\ same_view o1' w1' o2' w2'
  | (Raise e1, _, _), (Raise e2, _, _) => e1 = e2
  | _, _ => False
  end.
Proof.
  intros Hv.
  destruct (chain_step_shape env1 ids ctx i a x o1 w1)
    as (o1a & w1a & Hc1 & Hm1 & Hs1).
  destruct (chain_step_shape env2 ids ctx i a x o2 w2)
    as (o2a & w2a & Hc2 & Hm2 & Hs2).
  pose proof (same_view_monotonic _ _ _ _
                (same_view_main _ _ _ _ _ _ _ _ Hv Hc1 Hm1 Hc2 Hm2)) as Hva.
  pose proof (invoke_agree a
                [("input_text", x);
                 ("session_id", default EmptyString (dict_get "session_id" ctx))]
                (Some ctx) _ _ _ _ Hva) as Hi.
  cbv zeta in Hs1, Hs2.
  destruct (Optimizer._invoke_agent env1 a _ (Some ctx) o1a (count_monotonic w1a))
    as [[r1 o1b] w1b].
  destruct (Optimizer._invoke_agent env2 a _ (Some ctx) o2a (count_monotonic w2a))
    as [[r2 o2b] w2b].
  destruct Hi as [<- Hvb].
  destruct r1 as [r|e].
  - destruct Hs1 as (ms1 & o1c & w1c & -> & Hc1c & Hm1c).
    destruct Hs2 as (ms2 & o2c & w2c & -> & Hc2c & Hm2c).
    split; [reflexivity|].
    apply (same_view_main _ _ _ _ _ _ _ _
             (same_view_monotonic _ _ _ _ Hvb) Hc1c Hm1c Hc2c Hm2c).
  - now rewrite Hs1, Hs2.
Qed.

Lemma chain_loop_agree ids ctx i rest x results1 results2 o1 w1 o2 w2 :
  same_view o1 w1 o2 w2 ->
  map without_latency results1 = map without_latency results2 ->
  same_outcome
    (fst (fst (Optimizer.chain_loop env1 ids ctx i rest x results1 o1 w1)))
    (fst (fst (Optimizer.chain_loop env2 ids ctx i rest x results2 o2 w2))).
Proof.
  revert i x results1 results2 o1 w1 o2 w2.
  induction rest as [|a rest IH]; intros i x results1 results2 o1 w1 o2 w2 Hv Hr.
  - exact Hr.
  - simpl. pose proof (chain_step_agree ids ctx i a x _ _ _ _ Hv) as Hs.
    unfold bind.
    destruct (Optimizer.chain_step env1 ids ctx i a x o1 w1)
      as [[[r1|e1] o1'] w1'];
      destruct (Optimizer.chain_step env2 ids ctx i a x o2 w2)
        as [[[r2|e2] o2'] w2']; try contradiction; [|exact Hs].
    destruct Hs as [Hwl Hv'].
    rewrite (without_latency_output _ _ Hwl).
    apply IH; [exact Hv'|].
    rewrite !map_app. simpl. now rewrite Hr, Hwl.
Qed.
End Simulation.



(** The two runs compared above do differ in their warm-ups: the first
    sends a probe after each of its first two steps, the second none. *)
Example warm_up_modes_differ :
  let seeded :=
    Optimizer.set_router
      (Router.ingest_trace Sample.chain (Router.init default_config))
      (Optimizer.init None) in
  let disabled := Optimizer.init (Some Sample.no_prediction) in
  let w1 := snd (Optimizer.run_chain (Sample.env (1 # 100)) Sample.chain
                                     "hello" seeded Sample.cold) in
  let w2 := snd (Optimizer.run_chain (Sample.env_preload_fails (1 # 100))
                                     Sample.chain "hello" disabled Sample.cold) in
  length (sent w1) - length (real_calls w1) = 2 /\
  length (sent w2) - length (real_calls w2) = 0 /\
  length (real_calls w1) = 3 /\ length (real_calls w2) = 3.
Proof. vm_compute. repeat split. Qed.

(** *** An agent that remembers its sessions *)

Lemma same_outcome_outputs r1 r2 :
  same_outcome r1 r2 -> is_ok r1 = true -> outputs_of r1 = outputs_of r2.
Proof.
  destruct r1 as [rs1|e1], r2 as [rs2|e2]; simpl; try contradiction;
    try discriminate.
  intros H _. apply (f_equal (map output)) in H.
  rewrite !map_map in H. exact H.
Qed.

Lemma run_warm_outputs :
  is_ok run_warm = true /\
  outputs_of run_warm
  = ["Response from classifier"; "primed retriever"; "primed summarizer"].
Proof. vm_compute. split; reflexivity. Qed.

Lemma run_disabled_outputs :
  outputs_of run_disabled
  = ["Response from classifier"; "Response from retriever";
     "Response from summarizer"] /\
  outputs_of run_failing = outputs_of run_disabled.
Proof. vm_compute. split; reflexivity. Qed.


(** ** Construction *)

Lemma counter_total_ge (c : Router.Counter) kv :
  In kv c -> snd kv <= Router.counter_total c.
Proof.
  induction c as [|x c IH]; simpl; [tauto|].
  intros [->|H]; [lia|]. apply IH in H. lia.
Qed.

Lemma ratio_in_unit n total :
  0 < total -> n <= total ->
  (0 <= Qred (Z.of_nat n # Pos.of_nat total))%Q /\
  (Qred (Z.of_nat n # Pos.of_nat total) <= 1)%Q.
Proof.
  intros Hpos Hle. rewrite Qred_correct. unfold Qle. simpl.
  assert (Z.pos (Pos.of_nat total) = Z.of_nat total).
  { destruct total; [lia|].
    now rewrite <- Pos.of_nat_succ, Zpos_P_of_succ_nat, Nat2Z.inj_succ. }
  split; lia.
Qed.

(** What [predict_next] answers on a router that has only recorded
    transitions: nothing for an agent without successor, and otherwise a
    confidence between 0 and 1 that is compared with the threshold. *)
Lemma predict_next_reachable cfg ops a :
  let r := Router.run_ops ops (Router.init cfg) in
  (Router.successors a (Router.calls_of ops) = [] /\
   Router.predict_next a r = Ok (None, 0%Q))
  \/
  (Router.successors a (Router.calls_of ops) <> [] /\
   exists best confidence,
     (0 <= confidence)%Q /\ (confidence <= 1)%Q /\
     Router.predict_next a r
     = Ok (if Qle_bool (prediction_threshold cfg) confidence
           then Some best else None, confidence)).
Proof.
  intros r.
  assert (Hc : Router.counts_of r a
               = fold_left (fun c b => Router.counter_incr b c)
                           (Router.successors a (Router.calls_of ops)) []).
  { subst r. now rewrite run_ops_calls, counts_of_record_all. }
  assert (Htot : Router.counter_total (Router.counts_of r a)
                 = length (Router.successors a (Router.calls_of ops))).
  { rewrite Hc, counter_total_fold. reflexivity. }
  destruct (Router.successors a (Router.calls_of ops)) as [|s succ] eqn:Es.
  - left. split; [reflexivity|]. apply predict_next_empty. exact Hc.
  - right. split; [discriminate|].
    destruct (Router.counts_of r a) as [|x rest] eqn:Hx; [discriminate|].
    assert (Hpos : 0 < Router.counter_total (x :: rest))
      by (rewrite Htot; simpl; lia).
    pose proof (predict_next_nonempty r a x rest Hx Hpos) as Hp. cbv zeta in Hp.
    replace (Router.config r) with cfg in Hp
      by (subst r; now rewrite run_ops_calls, config_record_all).
    destruct (max_by_count_split x rest) as (l1 & l2 & Heq & _ & _).
    assert (Hin : In (Router.max_by_count x rest) (x :: rest))
      by (rewrite Heq; apply in_or_app; right; now left).
    apply counter_total_ge in Hin.
    destruct (ratio_in_unit _ _ Hpos Hin) as [H0 H1].
    eexists _, _. split; [exact H0|]. split; [exact H1|]. exact Hp.
Qed.




(** * Further properties *)

(** ** More on the router: counts, statistics and predictions *)

Lemma count_of_record_all calls r A B :
  Router.count_of (record_all calls r) A B
  = Router.count_of r A B + length (List.filter (is_call A B) calls).
Proof.
  revert r. induction calls as [|[a b] calls IH]; intros r; [simpl; lia|].
  unfold record_all in *. simpl fold_left. rewrite IH, count_of_record.
  simpl. unfold is_call at 2. simpl.
  destruct (String.eqb a A && String.eqb b B); simpl; lia.
Qed.

(** X1.  On a router that started empty, the count stored for the pair
    (A, B) is the number of times the transition from A to B has been
    recorded, by [record_transition] directly or through [ingest_trace];
    it is 0 for a pair never recorded. *)
Theorem count_is_number_of_recordings (cfg : OptimizerConfig)
        (ops : list Router.op) (A B : string) :
  Router.count_of (Router.run_ops ops (Router.init cfg)) A B
  = length (List.filter (is_call A B) (Router.calls_of ops)).
Proof.
  rewrite run_ops_calls, count_of_record_all. reflexivity.
Qed.

Lemma table_total_upd a b t :
  table_total (dict_upd a (fun o => Router.counter_incr b (default [] o)) t)
  = S (table_total t).
Proof.
  unfold table_total.
  induction t as [|[k c] t IH]; cbn [dict_upd fold_right snd].
  - rewrite counter_total_incr. reflexivity.
  - destruct (String.eqb a k); cbn [fold_right snd].
    + rewrite counter_total_incr. reflexivity.
    + rewrite IH. lia.
Qed.

Lemma totals_record_all calls r :
  Router._total_traces (record_all calls r)
  = Router._total_traces r + length calls /\
  table_total (Router._transitions (record_all calls r))
  = table_total (Router._transitions r) + length calls.
Proof.
  revert r. induction calls as [|[a b] calls IH]; intros r; [simpl; lia|].
  unfold record_all in *. simpl fold_left.
  destruct (IH (Router.record_transition a b r)) as [H1 H2].
  rewrite H1, H2. simpl. rewrite table_total_upd. lia.
Qed.

(** X2.  The [total_traces] of [stats] is the number of transitions
    recorded (not the number of traces ingested), and it equals the sum of
    all the counts of the transition table. *)
Theorem total_traces_counts_every_recording (cfg : OptimizerConfig)
        (ops : list Router.op) :
  let r := Router.run_ops ops (Router.init cfg) in
  Router.total_traces (Router.stats r) = length (Router.calls_of ops) /\
  Router.total_traces (Router.stats r) = table_total (Router._transitions r).
Proof.
  intros r. subst r. rewrite run_ops_calls.
  destruct (totals_record_all (Router.calls_of ops) (Router.init cfg)) as [H1 H2].
  simpl in *. lia.
Qed.

Lemma counter_incr_length b c :
  length (Router.counter_incr b c)
  = length c + match dict_get b c with Some _ => 0 | None => 1 end.
Proof.
  rewrite <- (length_map fst (Router.counter_incr b c)), <- (length_map fst c).
  unfold Router.counter_incr. rewrite dict_upd_keys.
  destruct (dict_get b c); [lia|]. rewrite length_app. simpl. lia.
Qed.

Lemma table_pairs_upd a b t :
  table_pairs (dict_upd a (fun o => Router.counter_incr b (default [] o)) t)
  = table_pairs t
    + match dict_get b (default [] (dict_get a t)) with
      | Some _ => 0
      | None => 1
      end.
Proof.
  unfold table_pairs.
  induction t as [|[k c] t IH]; cbn [dict_upd dict_get fold_right snd].
  - rewrite counter_incr_length. simpl. lia.
  - destruct (String.eqb a k); cbn [fold_right snd from_option id].
    + rewrite counter_incr_length. lia.
    + rewrite IH. lia.
Qed.

Lemma pairs_record_all (calls : list (string * string))
      (r : Router.PredictiveRouter) (seen : gset (string * string)) :
  table_pairs (Router._transitions r) = size seen ->
  (forall a b, is_Some (dict_get b (Router.counts_of r a)) <-> (a, b) ∈ seen) ->
  table_pairs (Router._transitions (record_all calls r))
  = size (seen ∪ list_to_set calls).
Proof.
  revert r seen. induction calls as [|[a b] calls IH]; intros r seen Hsize Hmem.
  - change (record_all [] r) with r.
    rewrite list_to_set_nil, (right_id_L ∅ (∪)). exact Hsize.
  - unfold record_all in *. simpl fold_left.
    replace (seen ∪ list_to_set ((a, b) :: calls))
      with (({[(a, b)]} ∪ seen) ∪ list_to_set calls)
      by (rewrite list_to_set_cons, (assoc_L (∪)), (comm_L (∪) seen);
          reflexivity).
    apply IH.
    + simpl. rewrite table_pairs_upd.
      match goal with
      | |- context [match ?t with Some _ => 0 | None => 1 end] =>
          pose proof (Hmem a b : is_Some t <-> _) as Hab; destruct t as [n|]
      end.
      * assert ((a, b) ∈ seen) by (apply Hab; eauto).
        replace ({[(a, b)]} ∪ seen) with seen
          by (symmetry; apply subseteq_union_1_L, singleton_subseteq_l;
              assumption).
        lia.
      * assert ((a, b) ∉ seen).
        { intros Hin. apply Hab in Hin. destruct Hin; discriminate. }
        rewrite size_union by (apply disjoint_singleton_l; assumption).
        rewrite size_singleton. lia.
    + intros a' b'. rewrite counts_of_record.
      destruct (String.eqb_spec a a') as [->|Hne].
      * rewrite counter_incr_get.
        destruct (String.eqb_spec b b') as [->|Hne'].
        -- split; [|eauto].
           intros _. apply elem_of_union_l, elem_of_singleton. reflexivity.
        -- rewrite Hmem, elem_of_union, elem_of_singleton.
           split; [tauto|intros [H|H]; [congruence|exact H]].
      * rewrite Hmem, elem_of_union, elem_of_singleton.
        split; [tauto|intros [H|H]; [congruence|exact H]].
Qed.

(** X3.  The [transition_pairs] of [stats] is the number of distinct
    (source, successor) pairs that have been recorded. *)
Theorem transition_pairs_counts_distinct_pairs (cfg : OptimizerConfig)
        (ops : list Router.op) :
  Router.transition_pairs (Router.stats (Router.run_ops ops (Router.init cfg)))
  = length (remove_dups (Router.calls_of ops)).
Proof.
  rewrite run_ops_calls.
  change (Router.transition_pairs (Router.stats ?r))
    with (table_pairs (Router._transitions r)).
  rewrite (pairs_record_all _ _ ∅).
  - rewrite (left_id_L ∅ (∪)).
    rewrite <- (size_list_to_set (C := gset (string * string))
                                 (remove_dups (Router.calls_of ops)))
      by apply NoDup_remove_dups.
    f_equal. apply set_eq. intros x.
    rewrite !elem_of_list_to_set, elem_of_remove_dups. reflexivity.
  - reflexivity.
  - intros a b. simpl. split; [intros [x Hx]; discriminate|].
    intros H. now apply elem_of_empty in H.
Qed.

Lemma keys_record_all calls r :
  NoDup (dict_keys (Router._transitions r)) ->
  NoDup (dict_keys (Router._transitions (record_all calls r))) /\
  forall a, In a (dict_keys (Router._transitions (record_all calls r)))
            <-> In a (dict_keys (Router._transitions r)) \/ In a (map fst calls).
Proof.
  revert r. induction calls as [|[a b] calls IH]; intros r Hnd.
  - simpl. split; [exact Hnd|]. tauto.
  - unfold record_all in *. simpl fold_left.
    assert (Hk : dict_keys (Router._transitions (Router.record_transition a b r))
                 = match dict_get a (Router._transitions r) with
                   | Some _ => dict_keys (Router._transitions r)
                   | None => (dict_keys (Router._transitions r) ++ [a])%list
                   end)
      by apply dict_upd_keys.
    destruct (IH (Router.record_transition a b r)) as [Hnd' Hin'].
    + rewrite Hk. destruct (dict_get a (Router._transitions r)) eqn:E; [exact Hnd|].
      apply NoDup_app. split; [exact Hnd|]. split; [|apply NoDup_singleton].
      intros x Hx Hx'. apply list_elem_of_singleton in Hx'. subst x.
      apply dict_get_None in E. apply E. now apply list_elem_of_In.
    + split; [exact Hnd'|]. intros x. rewrite Hin', Hk. simpl.
      destruct (dict_get a (Router._transitions r)) eqn:E.
      * assert (In a (dict_keys (Router._transitions r))).
        { destruct (in_dec string_dec a (dict_keys (Router._transitions r)));
            [assumption|].
          apply dict_get_None in n. congruence. }
        split; [tauto|]. intros [H'|[<-|H']]; tauto.
      * rewrite in_app_iff. simpl. tauto.
Qed.

(** X4.  The [known_agents] of [stats] are the agents recorded as the
    source of a transition, each listed once; an agent seen only as a
    successor is not among them. *)
Theorem known_agents_are_the_sources (cfg : OptimizerConfig)
        (ops : list Router.op) :
  let known :=
    Router.known_agents (Router.stats (Router.run_ops ops (Router.init cfg))) in
  NoDup known /\
  forall a, In a known <-> In a (map fst (Router.calls_of ops)).
Proof.
  intros known. subst known. rewrite run_ops_calls.
  destruct (keys_record_all (Router.calls_of ops) (Router.init cfg)) as [H1 H2];
    [constructor|].
  split; [exact H1|]. intros a. simpl. rewrite H2. simpl. tauto.
Qed.

Lemma predict_next_frame a b c r :
  a <> c ->
  Router.predict_next c (Router.record_transition a b r)
  = Router.predict_next c r.
Proof.
  intros Hne. unfold Router.predict_next. simpl.
  now rewrite dict_get_upd_ne.
Qed.

(** X5.  Recording transitions changes the predictions for their source
    agents only: for an agent that is the source of none of the recorded
    transitions, [predict_next] and [should_preload] answer as before,
    whatever state the router was in. *)
Theorem predictions_of_other_agents_unchanged (ops : list Router.op)
        (r : Router.PredictiveRouter) (c : string) :
  ~ In c (map fst (Router.calls_of ops)) ->
  Router.predict_next c (Router.run_ops ops r) = Router.predict_next c r /\
  Router.should_preload c (Router.run_ops ops r) = Router.should_preload c r.
Proof.
  intros Hc. rewrite run_ops_calls.
  assert (H : Router.predict_next c (record_all (Router.calls_of ops) r)
              = Router.predict_next c r).
  { revert r. induction (Router.calls_of ops) as [|[a b] calls IH]; intros r;
      [reflexivity|].
    unfold record_all in *. simpl fold_left. rewrite IH.
    - apply predict_next_frame. intros ->. apply Hc. now left.
    - intros Hin. apply Hc. now right. }
  split; [exact H|]. unfold Router.should_preload. now rewrite H.
Qed.

Lemma predictions_of_other_agents_unchanged_witness :
  Router.predict_next "B"
    (Router.run_ops [Router.IngestTrace ["A"; "B"]]
       (Router.record_transition "B" "C" (Router.init default_config)))
  = Router.predict_next "B"
      (Router.record_transition "B" "C" (Router.init default_config)).
Proof.
  apply predictions_of_other_agents_unchanged.
  simpl. intuition discriminate.
Defined.

(** X6.  On a router that has only recorded transitions, [predict_next]
    and [should_preload] never raise; the confidence is between 0 and 1; a
    candidate is returned only with a confidence that reaches the
    threshold, and none is returned only for an agent without recorded
    successor or with a confidence below the threshold. *)
Theorem predict_next_never_raises (cfg : OptimizerConfig)
        (ops : list Router.op) (a : string) :
  let r := Router.run_ops ops (Router.init cfg) in
  exists candidate confidence,
    Router.predict_next a r = Ok (candidate, confidence) /\
    (0 <= confidence)%Q /\ (confidence <= 1)%Q /\
    (candidate <> None -> (prediction_threshold cfg <= confidence)%Q) /\
    (candidate = None ->
     Router.successors a (Router.calls_of ops) = [] \/
     (confidence < prediction_threshold cfg)%Q) /\
    exists preload, Router.should_preload a r = Ok preload.
Proof.
  intros r.
  destruct (predict_next_reachable cfg ops a)
    as [[He Hp]|(Hne & best & conf & H0 & H1 & Hp)]; fold r in Hp.
  - exists None, 0%Q. split; [exact Hp|].
    split; [discriminate|]. split; [discriminate|].
    split; [congruence|]. split; [now left|].
    unfold Router.should_preload. rewrite Hp. eauto.
  - destruct (Qle_bool (prediction_threshold cfg) conf) eqn:E.
    + exists (Some best), conf. split; [exact Hp|].
      split; [exact H0|]. split; [exact H1|].
      split; [intros _; now apply Qle_bool_iff|]. split; [discriminate|].
      unfold Router.should_preload. rewrite Hp. eauto.
    + exists None, conf. split; [exact Hp|].
      split; [exact H0|]. split; [exact H1|].
      split; [congruence|].
      split.
      * intros _. right. apply Qnot_le_lt. intros H.
        apply Qle_bool_iff in H. congruence.
      * unfold Router.should_preload. rewrite Hp. eauto.
Qed.

Lemma reachable_candidate (cfg : OptimizerConfig) (ops : list Router.op)
      (a b : string) (conf : Q) :
  Router.predict_next a (Router.run_ops ops (Router.init cfg))
  = Ok (Some b, conf) ->
  In b (Router.successors a (Router.calls_of ops)) /\
  (prediction_threshold cfg <= conf)%Q /\ (conf <= 1)%Q.
Proof.
  set (r := Router.run_ops ops (Router.init cfg)). intros H.
  assert (Hc : Router.counts_of r a
               = fold_left (fun c b => Router.counter_incr b c)
                           (Router.successors a (Router.calls_of ops)) []).
  { subst r. now rewrite run_ops_calls, counts_of_record_all. }
  assert (Htot : Router.counter_total (Router.counts_of r a)
                 = length (Router.successors a (Router.calls_of ops))).
  { rewrite Hc, counter_total_fold. reflexivity. }
  destruct (tally_inv (Router.successors a (Router.calls_of ops)))
    as (_ & _ & Hget).
  destruct (Router.successors a (Router.calls_of ops)) as [|s succ] eqn:Es.
  { rewrite (predict_next_empty r a Hc) in H. discriminate. }
  rewrite <- Hc in Hget.
  destruct (Router.counts_of r a) as [|x rest] eqn:Hx; [discriminate|].
  assert (Hpos : 0 < Router.counter_total (x :: rest))
    by (rewrite Htot; simpl; lia).
  pose proof (predict_next_nonempty r a x rest Hx Hpos) as Hp. cbv zeta in Hp.
  replace (Router.config r) with cfg in Hp
    by (subst r; now rewrite run_ops_calls, config_record_all).
  rewrite Hp in H.
  destruct (max_by_count_split x rest) as (l1 & l2 & Heq & _ & _).
  assert (Hin : In (Router.max_by_count x rest) (x :: rest))
    by (rewrite Heq; apply in_or_app; right; now left).
  destruct (Qle_bool (prediction_threshold cfg) _) eqn:E; [|discriminate].
  injection H as Hb Hconf. subst conf.
  split; [|split].
  - assert (Hk : In b (map fst (x :: rest)))
      by (rewrite <- Hb; now apply in_map).
    specialize (Hget b).
    destruct (count_occ string_dec (s :: succ) b =? 0) eqn:E0.
    + apply dict_get_None in Hget. contradiction.
    + apply Nat.eqb_neq in E0.
      apply (count_occ_In string_dec). lia.
  - now apply Qle_bool_iff.
  - apply counter_total_ge in Hin.
    apply (ratio_in_unit _ _ Hpos Hin).
Qed.

(** X7.  On a router that has only recorded transitions, what
    [should_preload] names is never the empty identifier, it is an agent
    that has been recorded as a successor of the current one, and it is
    the candidate of [predict_next], whose confidence reaches the
    threshold and is at most 1. *)
Theorem should_preload_names_a_recorded_successor (cfg : OptimizerConfig)
        (ops : list Router.op) (a b : string) :
  let r := Router.run_ops ops (Router.init cfg) in
  Router.should_preload a r = Ok (Some b) ->
  b <> EmptyString /\
  In b (Router.successors a (Router.calls_of ops)) /\
  exists confidence,
    Router.predict_next a r = Ok (Some b, confidence) /\
    (prediction_threshold cfg <= confidence)%Q /\ (confidence <= 1)%Q.
Proof.
  intros r H. unfold Router.should_preload in H.
  destruct (Router.predict_next a r) as [[[c|] conf]|e] eqn:Hp;
    try discriminate.
  destruct (String.eqb_spec c EmptyString) as [->|Hne]; [discriminate|].
  injection H as ->.
  destruct (reachable_candidate cfg ops a b conf Hp) as (Hin & Ht & H1).
  split; [exact Hne|]. split; [exact Hin|]. now exists conf.
Qed.

Lemma should_preload_names_a_recorded_successor_witness :
  In "B" (Router.successors "A"
            (Router.calls_of [Router.IngestTrace ["A"; "B"; "C"];
                              Router.RecordTransition "A" "B";
                              Router.RecordTransition "A" "D"])) /\
  exists confidence,
    Router.predict_next "A"
      (Router.run_ops [Router.IngestTrace ["A"; "B"; "C"];
                       Router.RecordTransition "A" "B";
                       Router.RecordTransition "A" "D"]
         (Router.init (mkConfig "localhost" 6379 300 (1 # 2) "us-east-1" [])))
    = Ok (Some "B", confidence) /\
    (1 # 2 <= confidence)%Q.
Proof.
  destruct (should_preload_names_a_recorded_successor
              (mkConfig "localhost" 6379 300 (1 # 2) "us-east-1" [])
              [Router.IngestTrace ["A"; "B"; "C"];
               Router.RecordTransition "A" "B";
               Router.RecordTransition "A" "D"] "A" "B" eq_refl)
    as (_ & Hin & conf & Hp & Ht & _).
  split; [exact Hin|]. exists conf. split; [exact Hp|exact Ht].
Defined.

(** The empty identifier can be recorded and predicted, and is then not
    warmed up. *)
Example empty_identifier_is_not_preloaded :
  let r := Router.record_transition "A" EmptyString
                                    (Router.init default_config) in
  Router.predict_next "A" r = Ok (Some EmptyString, 1%Q) /\
  Router.should_preload "A" r = Ok None.
Proof. split; reflexivity. Qed.

Lemma tally_single b n :
  fold_left (fun c b => Router.counter_incr b c) (repeat b n) [(b, 1)]
  = [(b, S n)].
Proof.
  assert (H : forall m, fold_left (fun c b => Router.counter_incr b c)
                                  (repeat b n) [(b, m)] = [(b, m + n)]).
  { induction n as [|n IH]; intros m; simpl.
    - now rewrite Nat.add_0_r.
    - unfold Router.counter_incr at 2. simpl. rewrite String.eqb_refl.
      simpl. rewrite IH. f_equal. f_equal. lia. }
  apply H.
Qed.

Lemma Forall_eq_repeat {A} (x : A) l : Forall (eq x) l -> l = repeat x (length l).
Proof. induction 1; simpl; congruence. Qed.

Lemma single_successor (cfg : OptimizerConfig) (ops : list Router.op)
      (a b : string) (n : nat) :
  Router.successors a (Router.calls_of ops) = repeat b (S n) ->
  (prediction_threshold cfg <= 1)%Q ->
  Router.predict_next a (Router.run_ops ops (Router.init cfg))
  = Ok (Some b, 1%Q).
Proof.
  intros Hs Hthr.
  set (r := Router.run_ops ops (Router.init cfg)).
  assert (Hc : Router.counts_of r a
               = fold_left (fun c b => Router.counter_incr b c)
                           (Router.successors a (Router.calls_of ops)) []).
  { subst r. now rewrite run_ops_calls, counts_of_record_all. }
  rewrite Hs in Hc.
  simpl repeat in Hc. simpl fold_left in Hc.
  change (Router.counter_incr b []) with [(b, 1)] in Hc.
  rewrite tally_single in Hc.
  rewrite (predict_next_nonempty r a (b, S n) [] Hc) by (simpl; lia).
  replace (Router.config r) with cfg
    by (subst r; now rewrite run_ops_calls, config_record_all).
  cbn [Router.max_by_count fst snd Router.counter_total fold_right].
  replace (Qred (Z.of_nat (S n) # Pos.of_nat (S n + 0))) with 1%Q.
  - apply Qle_bool_iff in Hthr. now rewrite Hthr.
  - change 1%Q with (Qred 1). apply Qred_complete.
    unfold Qeq. simpl. rewrite Nat.add_0_r. lia.
Qed.

(** X8.  When every transition recorded from A leads to B, and at least
    one was recorded, [predict_next A] is B with confidence 1, for every
    threshold of at most 1. *)
Theorem only_successor_is_predicted (cfg : OptimizerConfig)
        (ops : list Router.op) (a b : string) :
  Router.successors a (Router.calls_of ops) <> [] ->
  Forall (eq b) (Router.successors a (Router.calls_of ops)) ->
  (prediction_threshold cfg <= 1)%Q ->
  Router.predict_next a (Router.run_ops ops (Router.init cfg))
  = Ok (Some b, 1%Q).
Proof.
  intros Hne Hall Hthr.
  pose proof (Forall_eq_repeat _ _ Hall) as Hr.
  destruct (length (Router.successors a (Router.calls_of ops))) as [|n] eqn:El.
  - destruct (Router.successors a (Router.calls_of ops));
      [congruence|discriminate].
  - now apply (single_successor cfg ops a b n).
Qed.

Lemma only_successor_is_predicted_witness :
  Router.predict_next "A"
    (Router.run_ops [Router.RecordTransition "A" "B";
                     Router.IngestTrace ["C"; "A"; "B"; "C"];
                     Router.RecordTransition "A" "B"]
                    (Router.init default_config))
  = Ok (Some "B", 1%Q).
Proof.
  apply only_successor_is_predicted.
  - discriminate.
  - repeat constructor.
  - unfold Qle; simpl; lia.
Defined.

Lemma consecutive_pairs_app s1 x s2 :
  consecutive_pairs (s1 ++ x :: s2)
  = (consecutive_pairs (s1 ++ [x]) ++ consecutive_pairs (x :: s2))%list.
Proof.
  induction s1 as [|y s1 IH]; [reflexivity|].
  destruct s1 as [|z s1]; simpl in *; [reflexivity|].
  now rewrite IH.
Qed.

Lemma length_consecutive_pairs s : length (consecutive_pairs s) = length s - 1.
Proof.
  induction s as [|x s IH]; [reflexivity|].
  destruct s as [|y s]; [reflexivity|].
  change (consecutive_pairs (x :: y :: s))
    with ((x, y) :: consecutive_pairs (y :: s)).
  simpl length in *. lia.
Qed.

(** X9.  A trace of fewer than two agents records nothing; a trace cut
    at an agent, that agent kept on both sides, can be ingested in two
    parts; and a trace of n agents adds n - 1 to the number of recorded
    transitions. *)
Theorem ingest_trace_composes (r : Router.PredictiveRouter) :
  Router.ingest_trace [] r = r /\
  (forall a, Router.ingest_trace [a] r = r) /\
  (forall s1 x s2,
      Router.ingest_trace (s1 ++ x :: s2) r
      = Router.ingest_trace (x :: s2) (Router.ingest_trace (s1 ++ [x]) r)) /\
  (forall s, Router._total_traces (Router.ingest_trace s r)
             = Router._total_traces r + (length s - 1)).
Proof.
  split; [reflexivity|]. split; [reflexivity|]. split.
  - intros s1 x s2. rewrite !ingest_trace_record_all, consecutive_pairs_app.
    apply record_all_app.
  - intros s. rewrite ingest_trace_record_all.
    rewrite (proj1 (totals_record_all _ _)), length_consecutive_pairs.
    reflexivity.
Qed.

Lemma consecutive_pairs_In a b s :
  In (a, b) (consecutive_pairs s) -> In a s /\ In b s.
Proof.
  induction s as [|x s IH]; [contradiction|].
  destruct s as [|y s]; [contradiction|].
  change (consecutive_pairs (x :: y :: s))
    with ((x, y) :: consecutive_pairs (y :: s)).
  intros [H|H].
  - injection H as -> ->. split; [now left|right; now left].
  - destruct (IH H) as [H1 H2]. split; now right.
Qed.

Lemma successors_app a l1 l2 :
  Router.successors a (l1 ++ l2)
  = (Router.successors a l1 ++ Router.successors a l2)%list.
Proof. unfold Router.successors. now rewrite List.filter_app, map_app. Qed.

Lemma successors_chain a b s :
  List.NoDup s -> In (a, b) (consecutive_pairs s) ->
  Router.successors a (consecutive_pairs s) = [b].
Proof.
  induction s as [|x s IH]; [contradiction|].
  destruct s as [|y s]; [contradiction|].
  change (consecutive_pairs (x :: y :: s))
    with ((x, y) :: consecutive_pairs (y :: s)).
  intros Hnd Hin. inversion Hnd as [|? ? Hx Hnd']; subst.
  unfold Router.successors. cbn [List.filter fst].
  destruct Hin as [H|H].
  - injection H as -> ->. rewrite String.eqb_refl. cbn [map snd]. f_equal.
    assert (Hnone : forall l, (forall c, In c l -> fst c <> a) ->
                List.filter (fun c : string * string => String.eqb (fst c) a) l = []).
    { induction l as [|c l IHl]; [reflexivity|]. intros Hl. simpl.
      destruct (String.eqb_spec (fst c) a) as [E|_].
      - exfalso. apply (Hl c); [now left|exact E].
      - apply IHl. intros c' Hc'. apply Hl. now right. }
    rewrite Hnone; [reflexivity|].
    intros [c1 c2] Hc E. simpl in E. subst c1.
    apply consecutive_pairs_In in Hc. tauto.
  - destruct (String.eqb_spec x a) as [->|_].
    + exfalso. apply consecutive_pairs_In in H. tauto.
    + apply IH; assumption.
Qed.

Lemma calls_of_repeat o k :
  Router.calls_of (repeat o k)
  = concat (repeat (Router.calls_of_op o) k).
Proof.
  unfold Router.calls_of. induction k as [|k IH]; [reflexivity|].
  simpl. now rewrite IH.
Qed.

(** X10.  Seeding a fresh router with the same chain of distinct agents,
    once or more (the benchmark does it 50 times), makes it predict, for
    every agent of the chain but the last, the agent that follows it, with
    confidence 1; the pair has been counted once per seeding and the
    router has recorded the length of the chain minus one transitions per
    seeding. *)
Theorem seeded_router_predicts_the_chain (cfg : OptimizerConfig)
        (chain : list string) (k : nat) (a b : string) :
  List.NoDup chain -> 0 < k -> (prediction_threshold cfg <= 1)%Q ->
  In (a, b) (consecutive_pairs chain) ->
  let r := Router.run_ops (repeat (Router.IngestTrace chain) k)
                          (Router.init cfg) in
  Router.predict_next a r = Ok (Some b, 1%Q) /\
  Router.count_of r a b = k /\
  Router.total_traces (Router.stats r) = k * (length chain - 1).
Proof.
  intros Hnd Hk Hthr Hin r.
  assert (Hs : Router.successors a
                 (Router.calls_of (repeat (Router.IngestTrace chain) k))
               = repeat b k).
  { rewrite calls_of_repeat. cbn [Router.calls_of_op]. rewrite index_pairs.
    clear Hk. induction k as [|k IH]; [reflexivity|].
    cbn [repeat concat]. rewrite successors_app, IH.
    now rewrite (successors_chain a b chain Hnd Hin). }
  split; [|split].
  - destruct k as [|k]; [lia|]. now apply (single_successor cfg _ a b k).
  - subst r. rewrite run_ops_calls, count_of_record_all.
    change (Router.count_of (Router.init cfg) a b) with 0.
    assert (Hf : forall calls,
               length (List.filter (is_call a b) calls)
               = length (List.filter (String.eqb b)
                                     (Router.successors a calls))).
    { unfold Router.successors, is_call. induction calls as [|[c d] calls IHc];
        [reflexivity|]. simpl.
      destruct (String.eqb c a); simpl; [|exact IHc].
      rewrite (String.eqb_sym b d).
      destruct (String.eqb d b); simpl; now rewrite IHc. }
    rewrite Hf, Hs.
    assert (Hr : forall n, length (List.filter (String.eqb b) (repeat b n)) = n).
    { induction n as [|n IHn]; [reflexivity|].
      simpl. rewrite String.eqb_refl. simpl. now rewrite IHn. }
    now rewrite Hr.
  - subst r. rewrite run_ops_calls.
    change (Router.total_traces (Router.stats ?x))
      with (Router._total_traces x).
    rewrite (proj1 (totals_record_all _ _)).
    change (Router._total_traces (Router.init cfg)) with 0.
    rewrite calls_of_repeat. cbn [Router.calls_of_op]. rewrite index_pairs.
    assert (Hl : length (consecutive_pairs chain) = length chain - 1).
    { clear. induction chain as [|x [|y s] IHs]; try reflexivity.
      change (consecutive_pairs (x :: y :: s))
        with ((x, y) :: consecutive_pairs (y :: s)).
      simpl length in *. lia. }
    assert (Hc : forall n,
               length (concat (repeat (consecutive_pairs chain) n))
               = n * (length chain - 1)).
    { induction n as [|n IHn]; [reflexivity|].
      cbn [repeat concat]. rewrite length_app, IHn, Hl. lia. }
    rewrite Hc. lia.
Qed.

Lemma seeded_router_predicts_the_chain_witness :
  Router.predict_next "retriever"
    (Router.run_ops (repeat (Router.IngestTrace Sample.chain) 50)
                    (Router.init default_config))
  = Ok (Some "summarizer", 1%Q).
Proof.
  apply (seeded_router_predicts_the_chain default_config Sample.chain 50
           "retriever" "summarizer").
  - repeat constructor; simpl; intuition discriminate.
  - lia.
  - unfold Qle; simpl; lia.
  - simpl. right. left. reflexivity.
Defined.

(** ** More on the cache: keys, round trips and the hit rate *)

Lemma string_leb_trans a b c :
  String.leb a b = true -> String.leb b c = true -> String.leb a c = true.
Proof.
  unfold String.leb. revert b c.
  induction a as [|x a IH]; intros [|y b] [|z c]; simpl; try easy.
  unfold Ascii.compare.
  destruct (N.compare_spec (N_of_ascii x) (N_of_ascii y)) as [E1|E1|E1];
    destruct (N.compare_spec (N_of_ascii y) (N_of_ascii z)) as [E2|E2|E2];
    try easy.
  - rewrite E1, E2, N.compare_refl. apply IH.
  - intros _ _. rewrite E1. now apply N.compare_lt_iff in E2 as ->.
  - intros _ _. rewrite <- E2. now apply N.compare_lt_iff in E1 as ->.
  - intros _ _.
    assert (H : (N_of_ascii x < N_of_ascii z)%N) by lia.
    now apply N.compare_lt_iff in H as ->.
Qed.

Lemma insert_by_key_perm kv l : Permutation (kv :: l) (Cache.insert_by_key kv l).
Proof.
  induction l as [|x l IH]; simpl; [reflexivity|].
  destruct (String.leb (fst kv) (fst x)); [reflexivity|].
  rewrite perm_swap. now constructor.
Qed.

Lemma sort_keys_perm d : Permutation d (Cache.sort_keys d).
Proof.
  induction d as [|kv d IH]; simpl; [constructor|].
  rewrite <- insert_by_key_perm. now constructor.
Qed.

Lemma insert_by_key_sorted kv l :
  StronglySorted key_le l -> StronglySorted key_le (Cache.insert_by_key kv l).
Proof.
  induction 1 as [|x l Hs IH Hx]; simpl.
  - repeat constructor.
  - destruct (String.leb (fst kv) (fst x)) eqn:E.
    + constructor; [now constructor|].
      constructor; [exact E|].
      eapply List.Forall_impl; [|exact Hx].
      intros y Hy. unfold key_le in *. eapply string_leb_trans; eauto.
    + constructor; [exact IH|].
      eapply Permutation_Forall; [apply insert_by_key_perm|].
      constructor; [|exact Hx].
      unfold key_le. destruct (String.leb_total (fst kv) (fst x)); congruence.
Qed.

Lemma sort_keys_sorted d : StronglySorted key_le (Cache.sort_keys d).
Proof.
  induction d as [|kv d IH]; simpl; [constructor|].
  now apply insert_by_key_sorted.
Qed.

Lemma sorted_perm_unique (l1 l2 : list (string * string)) :
  StronglySorted key_le l1 -> StronglySorted key_le l2 ->
  List.NoDup (map fst l1) -> Permutation l1 l2 -> l1 = l2.
Proof.
  intros H1. revert l2.
  induction H1 as [|x l1 Hs IH Hx]; intros l2 H2 Hnd Hp.
  - now apply Permutation_nil in Hp.
  - destruct H2 as [|y l2 Hs2 Hy].
    { symmetry in Hp. now apply Permutation_nil in Hp. }
    assert (Hxy : x = y).
    { assert (Hin1 : In x (y :: l2))
        by (eapply Permutation_in; [exact Hp|now left]).
      assert (Hin2 : In y (x :: l1))
        by (eapply Permutation_in; [symmetry; exact Hp|now left]).
      destruct Hin1 as [->|Hin1]; [reflexivity|].
      destruct Hin2 as [->|Hin2]; [reflexivity|].
      rewrite List.Forall_forall in Hx, Hy.
      pose proof (Hx _ Hin2) as A. pose proof (Hy _ Hin1) as B.
      pose proof (String.leb_antisym _ _ A B) as Hk.
      simpl in Hnd. inversion Hnd as [|? ? Hni _]; subst.
      exfalso. apply Hni. rewrite Hk. now apply in_map. }
    subst y. f_equal. apply IH; [exact Hs2| |].
    + simpl in Hnd. now inversion Hnd.
    + now apply Permutation_cons_inv in Hp.
Qed.

Lemma sort_keys_order_independent (d d' : list (string * string)) :
  List.NoDup (map fst d) -> Permutation d d' ->
  Cache.sort_keys d = Cache.sort_keys d'.
Proof.
  intros Hnd Hp. apply sorted_perm_unique.
  - apply sort_keys_sorted.
  - apply sort_keys_sorted.
  - eapply Permutation_NoDup; [|exact Hnd].
    apply Permutation_map, sort_keys_perm.
  - rewrite <- (sort_keys_perm d), <- (sort_keys_perm d'). exact Hp.
Qed.

(** X11.  The cache key does not depend on the order in which the
    entries of the payload and of the context were inserted: the
    dictionaries are serialised with their keys sorted. *)
Theorem build_key_order_independent (a : string)
        (payload payload' context context' : list (string * string)) :
  List.NoDup (map fst payload) -> List.NoDup (map fst context) ->
  Permutation payload payload' -> Permutation context context' ->
  Cache._build_key a payload (Some context)
  = Cache._build_key a payload' (Some context').
Proof.
  intros N1 N2 P1 P2. unfold Cache._build_key, Cache.dumps_dict. simpl.
  now rewrite (sort_keys_order_independent payload payload' N1 P1),
              (sort_keys_order_independent context context' N2 P2).
Qed.

Lemma build_key_order_independent_witness :
  Cache._build_key "classifier"
     [("input_text", "hello"); ("session_id", "chain-7")]
     (Some [("session_id", "chain-7"); ("user", "u1")])
  = Cache._build_key "classifier"
     [("session_id", "chain-7"); ("input_text", "hello")]
     (Some [("user", "u1"); ("session_id", "chain-7")]).
Proof.
  apply build_key_order_independent.
  - repeat constructor; simpl; intuition discriminate.
  - repeat constructor; simpl; intuition discriminate.
  - apply perm_swap.
  - apply perm_swap.
Defined.

Lemma round_length s kw : length (SHA256.round s kw) = length s.
Proof.
  unfold SHA256.round.
  destruct s as [|a [|b [|c [|d [|e [|f [|g [|h [|i s]]]]]]]]]; reflexivity.
Qed.

Lemma fold_round_length l s : length (fold_left SHA256.round l s) = length s.
Proof.
  revert s. induction l as [|kw l IH]; intros s; simpl; [reflexivity|].
  now rewrite IH, round_length.
Qed.

Lemma compress_length h block : length (SHA256.compress h block) = length h.
Proof.
  unfold SHA256.compress.
  rewrite length_map, length_combine, fold_round_length. apply Nat.min_id.
Qed.

Lemma fold_compress_length blocks h :
  length (fold_left SHA256.compress blocks h) = length h.
Proof.
  revert h. induction blocks as [|b blocks IH]; intros h; simpl; [reflexivity|].
  now rewrite IH, compress_length.
Qed.

Lemma be_bytes_range n x :
  Forall (fun b => (0 <= b < 256)%Z) (SHA256.be_bytes n x).
Proof.
  induction n as [|n IH]; simpl; constructor; [|exact IH].
  apply Z.mod_pos_bound. lia.
Qed.

Lemma be_bytes_length n x : length (SHA256.be_bytes n x) = n.
Proof. induction n as [|n IH]; simpl; congruence. Qed.

Lemma digest_shape msg :
  length (SHA256.digest msg) = 32 /\
  Forall (fun b => (0 <= b < 256)%Z) (SHA256.digest msg).
Proof.
  unfold SHA256.digest.
  set (h := fold_left SHA256.compress _ SHA256.H0).
  assert (Hl : length h = 8) by (subst h; now rewrite fold_compress_length).
  clearbody h. split.
  - destruct h as [|a [|b [|c [|d [|e [|f [|g [|i [|j h]]]]]]]]];
      try discriminate.
    simpl. reflexivity.
  - clear Hl. induction h as [|x h IH]; [constructor|].
    cbn [flat_map]. apply List.Forall_app.
    split; [apply be_bytes_range|exact IH].
Qed.

Lemma hex_digit_lower d :
  (0 <= d < 16)%Z -> is_lower_hex (SHA256.hex_digit d) = true.
Proof.
  intros H.
  assert (Hc : In d [0;1;2;3;4;5;6;7;8;9;10;11;12;13;14;15]%Z).
  { simpl. lia. }
  simpl in Hc.
  repeat (destruct Hc as [<-|Hc]; [reflexivity|]). contradiction.
Qed.

Lemma hex_fold_shape bs :
  Forall (fun b => (0 <= b < 256)%Z) bs ->
  let h := fold_right (fun b acc => SHA256.hex_of_byte b +:+ acc) "" bs in
  String.length h = 2 * length bs /\
  forallb is_lower_hex (list_ascii_of_string h) = true.
Proof.
  induction 1 as [|b bs Hb _ IH]; [split; reflexivity|].
  cbv zeta in *. destruct IH as [IH1 IH2].
  cbn [fold_right].
  assert (E : forall t, SHA256.hex_of_byte b +:+ t
                        = String (SHA256.hex_digit (b / 16))
                                 (String (SHA256.hex_digit (b mod 16)) t))
    by reflexivity.
  rewrite !E. cbn [String.length list_ascii_of_string forallb].
  split; [rewrite IH1; simpl; lia|].
  rewrite IH2, !hex_digit_lower; [reflexivity| |].
  - apply Z.mod_pos_bound. lia.
  - split; [apply Z.div_pos; lia|apply Z.div_lt_upper_bound; lia].
Qed.

(** X12.  Every cache key is the prefix [bedrock_cache:] followed by 64
    lowercase hexadecimal digits, 78 characters in all; a missing context
    and an empty one give the same key. *)
Theorem build_key_format (a : string) (payload : list (string * string))
        (context : option (list (string * string))) :
  exists h,
    Cache._build_key a payload context = "bedrock_cache:" +:+ h /\
    String.length h = 64 /\
    forallb is_lower_hex (list_ascii_of_string h) = true /\
    String.length (Cache._build_key a payload context) = 78 /\
    Cache._build_key a payload None = Cache._build_key a payload (Some []).
Proof.
  unfold Cache._build_key. cbv zeta.
  match goal with |- context [SHA256.hexdigest ?r] => set (raw := r) end.
  exists (SHA256.hexdigest raw).
  destruct (digest_shape (SHA256.bytes_of_string raw)) as [Hl Hr].
  destruct (hex_fold_shape _ Hr) as [H1 H2]. cbv zeta in *.
  fold (SHA256.hexdigest raw) in H1, H2. rewrite Hl in H1.
  split; [reflexivity|]. split; [exact H1|]. split; [exact H2|].
  split; [|reflexivity].
  change (String.length ("bedrock_cache:" +:+ SHA256.hexdigest raw))
    with (14 + String.length (SHA256.hexdigest raw)).
  now rewrite H1.
Qed.

Section CacheExtras.
Variable env : Env.

(** X13.  With the store answering and a positive time to live, [put]
    followed by [get] with the same agent, payload and context returns
    the response that was put, whatever the store held before, and counts
    a hit, as long as the time to live has not elapsed on the clock of the
    store; once it has, the lookup is a miss. *)
Theorem put_then_get (a : string) (payload : list (string * string))
        (context : option (list (string * string))) (response : AgentResult)
        (c : Cache.AgentResponseCache) (w : World) :
  let n := store_requests w in
  let ttl := cache_ttl (Cache.config c) in
  store_fault env n = None -> store_fault env (S n) = None ->
  (0 < ttl)%Z ->
  exists w1 w2,
    Cache.put env a payload response context c w = (Ok tt, c, w1) /\
    ((store_time env (S n) < store_time env n + inject_Z ttl)%Q ->
     Cache.get env a payload context c w1
     = (Ok (Some response), Cache.count_hit c, w2)) /\
    ((store_time env n + inject_Z ttl <= store_time env (S n))%Q ->
     Cache.get env a payload context c w1
     = (Ok None, Cache.count_miss c, w2)).
Proof.
  intros n ttl F1 F2 Httl.
  rewrite put_cases. fold n ttl. rewrite F1.
  destruct (Z.leb_spec ttl 0) as [?|_]; [lia|].
  eexists _, _. split; [reflexivity|].
  rewrite get_cases.
  cbn [store_requests set_redis count_request]. fold n. rewrite F2.
  unfold live_entry. cbn [redis set_redis]. rewrite lookup_insert_eq.
  split; intros Ht.
  - destruct (Qle_bool _ _) eqn:E; [|reflexivity].
    apply Qle_bool_iff in E. exfalso. exact (Qlt_not_le _ _ Ht E).
  - apply Qle_bool_iff in Ht. rewrite Ht. reflexivity.
Qed.
End CacheExtras.

Lemma put_then_get_witness :
  exists w1 w2,
    Cache.put (Sample.env 1) "a" [("input_text", "hi")]
              (mkResult "a" "out" 7 None) None
              (Cache.init default_config) Sample.one_entry
    = (Ok tt, Cache.init default_config, w1) /\
    Cache.get (Sample.env 1) "a" [("input_text", "hi")] None
              (Cache.init default_config) w1
    = (Ok (Some (mkResult "a" "out" 7 None)),
       Cache.count_hit (Cache.init default_config), w2).
Proof.
  destruct (put_then_get (Sample.env 1) "a" [("input_text", "hi")] None
                         (mkResult "a" "out" 7 None)
                         (Cache.init default_config) Sample.one_entry
                         eq_refl eq_refl eq_refl)
    as (w1 & w2 & Hput & Hhit & _).
  exists w1, w2. split; [exact Hput|].
  apply Hhit. reflexivity.
Defined.

Section CacheFrame.
Variable env : Env.

(** X14.  Whatever it returns or raises, [get] makes one request to the
    store and leaves the store and the agents alone; it keeps the
    configuration, and it adds one to the sum of the two counters exactly
    when it returns.  A response it returns is held by the store under
    the key of the lookup, not yet expired. *)
Theorem get_only_reads (a : string) (payload : list (string * string))
        (context : option (list (string * string)))
        (c : Cache.AgentResponseCache) (w : World) :
  let '(res, c', w') := Cache.get env a payload context c w in
  redis w' = redis w /\ sent w' = sent w /\
  clock_reads w' = clock_reads w /\
  store_requests w' = S (store_requests w) /\
  Cache.config c' = Cache.config c /\
  Cache._hits c' + Cache._misses c'
  = Cache._hits c + Cache._misses c + (if is_ok res then 1 else 0) /\
  (forall v, res = Ok (Some v) ->
             exists expiry,
               redis w !! Cache._build_key a payload context
               = Some (v, expiry) /\
               (store_time env (store_requests w) < expiry)%Q).
Proof.
  rewrite get_cases.
  destruct (store_fault env (store_requests w)) as [e|].
  { simpl. repeat split; try lia. discriminate. }
  destruct (live_entry _ _ w) as [v|] eqn:El; simpl.
  - repeat split; try lia.
    intros v' Hv. inversion Hv; subst v'.
    apply live_entry_Some in El. destruct El as (expiry & Hl & Hq).
    exists expiry. split; [exact Hl|].
    apply Qnot_le_lt. intros H. apply Qle_bool_iff in H. congruence.
  - repeat split; try lia. discriminate.
Qed.

(** X15.  Whatever it returns or raises, [put] makes one request to the
    store, leaves the counters alone and changes nothing under any other
    key; when it raises the store is unchanged, and when it returns the
    store holds the response under the key, expiring [cache_ttl] seconds
    after the write. *)
Theorem put_writes_one_key (a : string) (payload : list (string * string))
        (context : option (list (string * string))) (response : AgentResult)
        (c : Cache.AgentResponseCache) (w : World) :
  let '(res, c', w') := Cache.put env a payload response context c w in
  c' = c /\ sent w' = sent w /\ clock_reads w' = clock_reads w /\
  store_requests w' = S (store_requests w) /\
  (forall k, k <> Cache._build_key a payload context ->
             redis w' !! k = redis w !! k) /\
  (is_ok res = false -> redis w' = redis w) /\
  (is_ok res = true ->
   redis w' !! Cache._build_key a payload context
   = Some (response,
           (store_time env (store_requests w)
            + inject_Z (cache_ttl (Cache.config c)))%Q)).
Proof.
  rewrite put_cases.
  destruct (store_fault env (store_requests w)) as [e|].
  { simpl. repeat split; auto; discriminate. }
  destruct (cache_ttl (Cache.config c) <=? 0)%Z.
  { simpl. repeat split; auto; discriminate. }
  simpl. repeat split; auto.
  - intros k Hk. now apply lookup_insert_ne.
  - discriminate.
  - intros _. apply lookup_insert_eq.
Qed.
End CacheFrame.

Lemma py_round_3_unit (x : Q) :
  (0 <= x)%Q -> (x <= 1)%Q ->
  (0 <= py_round x 3)%Q /\ (py_round x 3 <= 1)%Q.
Proof.
  intros H0 H1. destruct (py_round_3_close x) as (n & Hn & Hlo & Hhi).
  rewrite Hn in *.
  assert (Hq : (n # 1000 == inject_Z n * (1 # 1000))%Q)
    by (unfold Qeq; simpl; lia).
  rewrite Hq in *.
  assert (A : (-1 < inject_Z n)%Q) by lra.
  assert (B : (inject_Z n < 1001)%Q) by lra.
  assert (A' : (-1 < n)%Z).
  { change (-1)%Q with (inject_Z (-1)) in A. now rewrite <- Zlt_Qlt in A. }
  assert (B' : (n < 1001)%Z).
  { change 1001%Q with (inject_Z 1001) in B. now rewrite <- Zlt_Qlt in B. }
  assert (A2 : (inject_Z 0 <= inject_Z n)%Q) by (rewrite <- Zle_Qle; lia).
  assert (B2 : (inject_Z n <= inject_Z 1000)%Q) by (rewrite <- Zle_Qle; lia).
  change (inject_Z 0) with 0%Q in A2. change (inject_Z 1000) with 1000%Q in B2.
  split; lra.
Qed.

(** X16.  For every state of the counters, [hit_rate] and the rate that
    [stats] reports are between 0 and 1; both are 0 when there was no
    hit, and both are 1 when there was a hit and no miss. *)
Theorem hit_rate_is_a_proportion (c : Cache.AgentResponseCache) :
  (0 <= Cache.hit_rate c)%Q /\ (Cache.hit_rate c <= 1)%Q /\
  (0 <= Cache.stats_hit_rate (Cache.stats c))%Q /\
  (Cache.stats_hit_rate (Cache.stats c) <= 1)%Q /\
  (Cache._hits c = 0 ->
   Cache.hit_rate c = 0%Q /\ Cache.stats_hit_rate (Cache.stats c) = 0%Q) /\
  (0 < Cache._hits c -> Cache._misses c = 0 ->
   Cache.hit_rate c = 1%Q /\ Cache.stats_hit_rate (Cache.stats c) = 1%Q).
Proof.
  assert (Hb : (0 <= Cache.hit_rate c)%Q /\ (Cache.hit_rate c <= 1)%Q).
  { unfold Cache.hit_rate.
    destruct (Nat.ltb_spec 0 (Cache._hits c + Cache._misses c)) as [Hp|Hp].
    - apply ratio_in_unit; lia.
    - split; discriminate. }
  destruct Hb as [H0 H1].
  destruct (py_round_3_unit _ H0 H1) as [R0 R1].
  assert (Hpos : forall n, 0 < n -> Z.pos (Pos.of_nat n) = Z.of_nat n).
  { intros [|n] Hn; [lia|].
    now rewrite <- Pos.of_nat_succ, Zpos_P_of_succ_nat, Nat2Z.inj_succ. }
  split; [exact H0|]. split; [exact H1|].
  split; [exact R0|]. split; [exact R1|].
  split.
  - intros Hh.
    assert (E : Cache.hit_rate c = 0%Q).
    { unfold Cache.hit_rate. rewrite Hh.
      destruct (0 <? 0 + Cache._misses c); [|reflexivity].
      change 0%Q with (Qred 0). apply Qred_complete. reflexivity. }
    split; [exact E|]. unfold Cache.stats. cbn [Cache.stats_hit_rate].
    rewrite E. reflexivity.
  - intros Hh Hm.
    assert (E : Cache.hit_rate c = 1%Q).
    { unfold Cache.hit_rate. rewrite Hm, Nat.add_0_r.
      destruct (Nat.ltb_spec 0 (Cache._hits c)) as [_|]; [|lia].
      change 1%Q with (Qred 1). apply Qred_complete.
      unfold Qeq. simpl. rewrite (Hpos _ Hh). lia. }
    split; [exact E|]. unfold Cache.stats. cbn [Cache.stats_hit_rate].
    rewrite E. reflexivity.
Qed.

(** ** More on the chain: what a run records, sends and reports *)

Section WrapperParts.
Variable env : Env.

Lemma await_preload_effect a o w :
  exists w1,
    Optimizer.await_preload env a o w
    = (Ok tt, Optimizer.set_preloaded (delete a (Optimizer._preloaded o)) o, w1)
    /\ sent w1 = sent w /\ redis w1 = redis w /\
    store_requests w1 = store_requests w /\ clock_reads w1 = clock_reads w /\
    monotonic_reads w1 = monotonic_reads w /\
    waits w1 = waits w + (match Optimizer._preloaded o !! a with
                          | Some _ => 1 | None => 0 end).
Proof.
  unfold Optimizer.await_preload, bind, get_self.
  destruct (Optimizer._preloaded o !! a) as [f|] eqn:E.
  - unfold catch, lift, future_result, modify, ret.
    destruct (future_ready env (waits w)); [destruct (outcome f)|];
      eexists; (split; [reflexivity|]); simpl; repeat split; lia.
  - unfold ret. exists w. rewrite delete_id by exact E.
    split; [destruct o; reflexivity|]. repeat split; lia.
Qed.

Lemma preload_next_effect ids ctx i a o w :
  exists p,
    Optimizer.preload_next env ids ctx i a o w
    = (Ok tt,
       Optimizer.set_preloaded p
         (Optimizer.set_router (step_router ids i a (Optimizer.router o)) o),
       {| clock_reads := clock_reads w; monotonic_reads := monotonic_reads w;
          store_requests := store_requests w; waits := waits w;
          redis := redis w;
          sent := (sent w ++ step_probe ids ctx i a (Optimizer.router o))%list |}).
Proof.
  unfold Optimizer.preload_next, step_router, step_probe.
  destruct (i <? length ids - 1).
  2:{ exists (Optimizer._preloaded o). unfold ret. rewrite app_nil_r.
      destruct o, w; reflexivity. }
  unfold bind, modify, get_self, of_result.
  destruct (should_preload_after_record a (nth (i + 1) ids EmptyString)
                                        (Optimizer.router o)) as [q Hq].
  cbn [Optimizer.router Optimizer.set_router]. rewrite Hq.
  destruct q as [q|].
  - unfold lift, executor_submit, Optimizer._preload_context, invoke_agent.
    fold (probe_call ctx q).
    destruct (agent_reply env (sent w) Probe (probe_call ctx q));
      eexists; unfold modify, log_sent; simpl; reflexivity.
  - exists (Optimizer._preloaded o). unfold ret. rewrite app_nil_r.
    destruct o, w; reflexivity.
Qed.

Lemma invoke_agent_effect a p ctx o w res o' w' :
  Optimizer._invoke_agent env a p ctx o w = (res, o', w') ->
  Optimizer.router o' = Optimizer.router o /\
  Optimizer.config o' = Optimizer.config o /\
  Optimizer._preloaded o' = Optimizer._preloaded o /\
  Cache.config (Optimizer.cache o') = Cache.config (Optimizer.cache o) /\
  probe_calls w' = probe_calls w /\
  monotonic_reads w' = monotonic_reads w /\ waits w' = waits w.
Proof.
  rewrite invoke_agent_eq. cbv zeta.
  destruct (store_fault env (store_requests w)).
  { intros H; inversion H; subst. repeat split. }
  destruct (live_entry _ _ w).
  { intros H; inversion H; subst. repeat split. }
  destruct (agent_reply env (sent w) Real _).
  2:{ intros H; inversion H; subst. repeat split.
      unfold probe_calls, probe_only. simpl.
      rewrite List.filter_app, map_app. simpl. apply app_nil_r. }
  destruct (store_fault env (S (store_requests w)));
    [|destruct (cache_ttl _ <=? 0)%Z];
    intros H; inversion H; subst; repeat split;
    unfold probe_calls, probe_only; simpl;
    rewrite List.filter_app, map_app; simpl; apply app_nil_r.
Qed.

(** A step, part by part. *)
Lemma chain_step_parts ids ctx i a x o w :
  exists w1,
    Optimizer.await_preload env a o w
    = (Ok tt, Optimizer.set_preloaded (delete a (Optimizer._preloaded o)) o, w1)
    /\
    match Optimizer._invoke_agent env a (step_payload ctx x) (Some ctx)
            (Optimizer.set_preloaded (delete a (Optimizer._preloaded o)) o)
            (count_monotonic w1) with
    | (Raise e, o2, w2) =>
        Optimizer.chain_step env ids ctx i a x o w = (Raise e, o2, w2)
    | (Ok r, o2, w2) =>
        exists ms o3 w3,
          ms = py_round ((monotonic_clock env (monotonic_reads w2)
                          - monotonic_clock env (monotonic_reads w1))
                         * inject_Z 1000)%Q 1 /\
          Optimizer.preload_next env ids ctx i a o2 (count_monotonic w2)
          = (Ok tt, o3, w3) /\
          Optimizer.chain_step env ids ctx i a x o w
          = (Ok (Optimizer.with_latency ms r), o3, w3)
    end.
Proof.
  destruct (await_preload_effect a o w) as (w1 & Ha & _).
  exists w1. split; [exact Ha|].
  unfold Optimizer.chain_step. fold (step_payload ctx x).
  rewrite (bind_ok _ _ _ _ _ _ _ Ha).
  rewrite (bind_ok (lift (time_monotonic env)) _ _ w1
                   (monotonic_clock env (monotonic_reads w1)) _
                   (count_monotonic w1) eq_refl).
  destruct (Optimizer._invoke_agent env a (step_payload ctx x) (Some ctx) _
                                    (count_monotonic w1))
    as [[[r|e] o2] w2] eqn:Ei.
  - rewrite (bind_ok _ _ _ _ _ _ _ Ei).
    rewrite (bind_ok (lift (time_monotonic env)) _ o2 w2
                     (monotonic_clock env (monotonic_reads w2)) o2
                     (count_monotonic w2) eq_refl).
    destruct (preload_next_effect ids ctx i a o2 (count_monotonic w2))
      as (p & Hp).
    rewrite (bind_ok _ _ _ _ _ _ _ Hp). unfold ret.
    eexists _, _, _. split; [reflexivity|]. split; [exact Hp|reflexivity].
  - now rewrite (bind_raise _ _ _ _ _ _ _ Ei).
Qed.

(** What a step does to the router and to the probes sent. *)
Lemma chain_step_router ids ctx i a x o w res o' w' :
  Optimizer.chain_step env ids ctx i a x o w = (res, o', w') ->
  Optimizer.config o' = Optimizer.config o /\
  Cache.config (Optimizer.cache o') = Cache.config (Optimizer.cache o) /\
  match res with
  | Ok r =>
      latency_ms r <> None /\
      Optimizer.router o' = step_router ids i a (Optimizer.router o) /\
      probe_calls w'
      = (probe_calls w
         ++ probe_only (step_probe ids ctx i a (Optimizer.router o)))%list
  | Raise _ =>
      Optimizer.router o' = Optimizer.router o /\
      probe_calls w' = probe_calls w
  end.
Proof.
  intros Hs.
  destruct (chain_step_parts ids ctx i a x o w) as (w1 & Ha & Hparts).
  destruct (await_preload_effect a o w) as (w1' & Ha' & Hsent & _).
  rewrite Ha in Ha'. injection Ha' as <-.
  destruct (Optimizer._invoke_agent env a (step_payload ctx x) (Some ctx) _
                                    (count_monotonic w1))
    as [[[r|e] o2] w2] eqn:Ei;
    apply invoke_agent_effect in Ei;
    destruct Ei as (E1 & E2 & E3 & E4 & E5 & _).
  - destruct Hparts as (ms & o3 & w3 & Hms & Hp & Hc). rewrite Hs in Hc.
    injection Hc as -> -> ->.
    destruct (preload_next_effect ids ctx i a o2 (count_monotonic w2))
      as (p & Hp').
    rewrite Hp in Hp'. injection Hp' as -> ->.
    simpl. rewrite E1, E2, E4. simpl.
    repeat split; try discriminate.
    unfold probe_calls in *. simpl in *. unfold probe_only at 1.
    rewrite List.filter_app, map_app. fold (probe_only (sent w2)).
    rewrite E5, Hsent. reflexivity.
  - rewrite Hs in Hparts. injection Hparts as -> -> ->.
    rewrite E1, E2, E4. simpl. repeat split.
    unfold probe_calls in *. simpl in *. now rewrite E5, Hsent.
Qed.
End WrapperParts.

Lemma firstn_consecutive_pairs k s :
  firstn k (consecutive_pairs s) = consecutive_pairs (firstn (S k) s).
Proof.
  revert k. induction s as [|a s IH]; intros k; [now destruct k|].
  destruct s as [|b s]; [now destruct k|].
  destruct k as [|k]; [reflexivity|].
  change (consecutive_pairs (a :: b :: s))
    with ((a, b) :: consecutive_pairs (b :: s)).
  change (firstn (S (S k)) (a :: b :: s)) with (a :: firstn (S k) (b :: s)).
  cbn [firstn]. rewrite IH. reflexivity.
Qed.

Lemma step_router_pairs pre a rest r :
  step_router (pre ++ a :: rest) (length pre) a r
  = record_all (firstn 1 (consecutive_pairs (a :: rest))) r.
Proof.
  unfold step_router. rewrite length_app.
  destruct rest as [|b rest]; cbn [length].
  - destruct (Nat.ltb_spec (length pre) (length pre + 1 - 1)); [lia|reflexivity].
  - destruct (Nat.ltb_spec (length pre) (length pre + S (S (length rest)) - 1));
      [|lia].
    change (pre ++ a :: b :: rest)%list with (pre ++ [a] ++ b :: rest)%list.
    rewrite app_assoc.
    replace (length pre + 1) with (length (pre ++ [a]) + 0)
      by (rewrite length_app; simpl; lia).
    rewrite app_nth2_plus. reflexivity.
Qed.

Section WrapperLoop.
Variable env : Env.

Lemma chain_loop_router pre ctx rest x results o w res o' w' :
  Optimizer.chain_loop env (pre ++ rest) ctx (length pre) rest x results o w
  = (res, o', w') ->
  Optimizer.config o' = Optimizer.config o /\
  Cache.config (Optimizer.cache o') = Cache.config (Optimizer.cache o) /\
  (exists k, Optimizer.router o'
             = record_all (firstn k (consecutive_pairs rest))
                          (Optimizer.router o)) /\
  match res with
  | Ok rs =>
      Optimizer.router o'
      = record_all (consecutive_pairs rest) (Optimizer.router o) /\
      exists new, rs = (results ++ new)%list /\ length new = length rest /\
                  Forall (fun r => latency_ms r <> None) new
  | Raise _ => True
  end.
Proof.
  revert pre x results o w.
  induction rest as [|a rest IH]; intros pre x results o w.
  - simpl. unfold ret. intros H; inversion H; subst.
    repeat split. + now exists 0. + exists []. now rewrite app_nil_r.
  - cbn [Optimizer.chain_loop]. unfold bind at 1.
    destruct (Optimizer.chain_step env (pre ++ a :: rest) ctx (length pre) a x o w)
      as [[[r|e] o1] w1] eqn:Es;
      apply chain_step_router in Es; destruct Es as (C1 & C2 & Hres).
    + destruct Hres as (Hlat & Hr & _).
      rewrite step_router_pairs in Hr.
      replace (pre ++ a :: rest)%list with ((pre ++ [a]) ++ rest)%list
        by (now rewrite <- app_assoc).
      replace (S (length pre)) with (length (pre ++ [a])%list)
        by (rewrite length_app; simpl; lia).
      intros Hl. apply IH in Hl.
      destruct Hl as (D1 & D2 & (k & Hk) & Hok).
      split; [congruence|]. split; [congruence|].
      assert (Hcp : forall n,
                 record_all (firstn n (consecutive_pairs rest))
                   (record_all (firstn 1 (consecutive_pairs (a :: rest)))
                               (Optimizer.router o))
                 = record_all (firstn (match rest with [] => 0 | _ => S n end)
                                      (consecutive_pairs (a :: rest)))
                              (Optimizer.router o)).
      { intros n. destruct rest as [|b rest]; [now destruct n|]. reflexivity. }
      split.
      * exists (match rest with [] => 0 | _ => S k end).
        rewrite Hk, Hr. apply Hcp.
      * destruct res as [rs|e]; [|exact I].
        destruct Hok as (Hall & new & -> & Hlen & Hf). split.
        -- rewrite Hall, Hr.
           destruct rest as [|b rest]; reflexivity.
        -- exists (r :: new). rewrite <- app_assoc. simpl.
           repeat split; [lia|]. now constructor.
    + destruct Hres as (Hr & _). intros H; inversion H; subst.
      repeat split; try assumption. exists 0. exact Hr.
Qed.

(** X17.  A run of a chain teaches the router the chain: when
    [run_chain] returns, the router is the one that [ingest_trace] of the
    agent list would have given; when it raises, the router has ingested a
    prefix of the list.  Neither the configuration of the optimizer nor
    that of the cache changes. *)
Theorem run_chain_records_the_trace (ids : list string) (x : string)
        (o : Optimizer.BedrockAgentOptimizer) (w : World) :
  let '(res, o', w') := Optimizer.run_chain env ids x o w in
  Optimizer.config o' = Optimizer.config o /\
  Cache.config (Optimizer.cache o') = Cache.config (Optimizer.cache o) /\
  (exists n, n <= length ids /\
             Optimizer.router o'
             = Router.ingest_trace (firstn n ids) (Optimizer.router o)) /\
  (forall rs, res = Ok rs ->
              Optimizer.router o'
              = Router.ingest_trace ids (Optimizer.router o)).
Proof.
  destruct (Optimizer.run_chain env ids x o w) as [[res o'] w'] eqn:Hrun.
  unfold Optimizer.run_chain in Hrun.
  rewrite (bind_ok (lift (time_time env)) _ o w
                   (wall_clock env (clock_reads w)) o (count_clock w) eq_refl)
    in Hrun.
  apply (chain_loop_router []) in Hrun.
  destruct Hrun as (C1 & C2 & (k & Hk) & Hok).
  split; [exact C1|]. split; [exact C2|]. split.
  - rewrite firstn_consecutive_pairs, <- ingest_trace_record_all in Hk.
    destruct (Nat.le_gt_cases (S k) (length ids)) as [Hle|Hgt].
    + now exists (S k).
    + exists (length ids). split; [lia|].
      rewrite firstn_all. rewrite firstn_all2 in Hk by lia. exact Hk.
  - intros rs ->. destruct Hok as (Hall & _).
    now rewrite ingest_trace_record_all.
Qed.
End WrapperLoop.

Lemma combine_fst {A B} (l1 : list A) (l2 : list B) :
  length l1 = length l2 -> map fst (combine l1 l2) = l1.
Proof.
  revert l2. induction l1 as [|a l1 IH]; intros [|b l2]; simpl;
    try discriminate; try reflexivity.
  intros H. f_equal. apply IH. lia.
Qed.

Lemma combine_snd {A B} (l1 : list A) (l2 : list B) :
  length l1 = length l2 -> map snd (combine l1 l2) = l2.
Proof.
  revert l2. induction l1 as [|a l1 IH]; intros [|b l2]; simpl;
    try discriminate; try reflexivity.
  intros H. f_equal. apply IH. lia.
Qed.

Lemma latencies_ok rs l :
  Optimizer.latencies rs = Ok l <-> map Some l = map latency_ms rs.
Proof.
  revert l. induction rs as [|r rs IH]; intros l; simpl.
  - split.
    + intros H; inversion H; reflexivity.
    + destruct l; [reflexivity|discriminate].
  - destruct (latency_ms r) as [ms|].
    + destruct (Optimizer.latencies rs) as [l'|e].
      * split.
        -- intros H; inversion H; subst. simpl. f_equal. now apply IH.
        -- destruct l as [|q l]; [discriminate|]. simpl.
           intros H; inversion H; subst.
           f_equal. f_equal. apply IH in H2. congruence.
      * split; [discriminate|].
        destruct l as [|q l]; [discriminate|]. simpl.
        intros H; inversion H; subst. apply IH in H2. discriminate.
    + split; [discriminate|]. destruct l; discriminate.
Qed.

Lemma latencies_total rs :
  Forall (fun r => latency_ms r <> None) rs ->
  exists l, Optimizer.latencies rs = Ok l.
Proof.
  induction 1 as [|r rs Hr _ [l IH]]; simpl; [now exists []|].
  destruct (latency_ms r) as [ms|]; [|congruence].
  rewrite IH. now exists (ms :: l).
Qed.

Section WrapperReport.
Variable env : Env.

Lemma total_traces_record_all calls r :
  Router._total_traces (record_all calls r)
  = Router._total_traces r + length calls.
Proof.
  unfold record_all. revert r.
  induction calls as [|c calls IH]; intros r; simpl; [lia|].
  rewrite IH. simpl. lia.
Qed.

Lemma run_chain_latencies ids x o w rs o' w' :
  Optimizer.run_chain env ids x o w = (Ok rs, o', w') ->
  length rs = length ids /\
  Forall (fun r => latency_ms r <> None) rs /\
  (exists l, Optimizer.latencies rs = Ok l /\ length l = length ids) /\
  Router._total_traces (Optimizer.router o')
  = Router._total_traces (Optimizer.router o) + (length ids - 1) /\
  Cache._hits (Optimizer.cache o') + Cache._misses (Optimizer.cache o')
  = Cache._hits (Optimizer.cache o) + Cache._misses (Optimizer.cache o)
    + length ids.
Proof.
  intros Hrun. unfold Optimizer.run_chain in Hrun.
  rewrite (bind_ok (lift (time_time env)) _ o w
                   (wall_clock env (clock_reads w)) o (count_clock w) eq_refl)
    in Hrun.
  pose proof (chain_loop_accounting _ _ _ _ _ _ _ _ _ _ _ _ Hrun)
    as (A1 & _).
  apply (chain_loop_router env []) in Hrun.
  destruct Hrun as (_ & _ & _ & Hr & new & Hnew & Hlen & Hf).
  simpl in Hnew. subst new.
  split; [exact Hlen|]. split; [exact Hf|].
  destruct (latencies_total rs Hf) as [l Hl].
  split; [|split; [|exact A1]].
  - exists l. split; [exact Hl|]. apply latencies_ok in Hl.
    rewrite <- Hlen, <- (length_map Some l), Hl, length_map. reflexivity.
  - rewrite Hr, total_traces_record_all, length_consecutive_pairs.
    reflexivity.
Qed.

(** X19.  What [run_chain] returns can always be reported: there is one
    result per agent, each with its latency, so [report] does not raise;
    the report has one entry per agent, its router statistics count one
    more transition per pair of consecutive agents, and its cache
    statistics one more lookup per agent. *)
Theorem run_chain_results_can_be_reported (ids : list string) (x : string)
        (o : Optimizer.BedrockAgentOptimizer) (w : World)
        (rs : list AgentResult) (o' : Optimizer.BedrockAgentOptimizer)
        (w' : World) :
  Optimizer.run_chain env ids x o w = (Ok rs, o', w') ->
  length rs = length ids /\
  Forall (fun r => latency_ms r <> None) rs /\
  exists rep,
    Optimizer.report rs o' = Ok rep /\
    length (Optimizer.per_agent rep) = length ids /\
    Router.total_traces (Optimizer.report_router rep)
    = Router._total_traces (Optimizer.router o) + (length ids - 1) /\
    Cache.hits (Optimizer.report_cache rep)
    + Cache.misses (Optimizer.report_cache rep)
    = Cache._hits (Optimizer.cache o) + Cache._misses (Optimizer.cache o)
      + length ids.
Proof.
  intros Hrun. apply run_chain_latencies in Hrun.
  destruct Hrun as (Hlen & Hf & (l & Hl & Hll) & Ht & Hc).
  split; [exact Hlen|]. split; [exact Hf|].
  unfold Optimizer.report. rewrite Hl. eexists. split; [reflexivity|].
  cbn [Optimizer.per_agent Optimizer.report_router Optimizer.report_cache
       Router.stats Router.total_traces Cache.stats Cache.hits Cache.misses].
  split; [|split; [exact Ht|exact Hc]].
  rewrite length_combine, length_map, Hll, Hlen. apply Nat.min_id.
Qed.
End WrapperReport.

Lemma run_chain_results_can_be_reported_witness :
  exists rs o' w' rep,
    Optimizer.run_chain (Sample.env 1) Sample.chain "hello"
                        (Optimizer.init None) Sample.cold
    = (Ok rs, o', w') /\
    Optimizer.report rs o' = Ok rep /\
    length (Optimizer.per_agent rep) = 3.
Proof.
  assert (Hok : is_ok (fst (fst (Optimizer.run_chain
                                   (Sample.env 1) Sample.chain "hello"
                                   (Optimizer.init None) Sample.cold)))
                = true)
    by (vm_compute; reflexivity).
  destruct (Optimizer.run_chain (Sample.env 1) Sample.chain "hello"
                                (Optimizer.init None) Sample.cold)
    as [[[rs|e] o'] w'] eqn:E; [|discriminate Hok].
  destruct (run_chain_results_can_be_reported _ _ _ _ _ _ _ _ E)
    as (_ & _ & rep & Hrep & Hlen & _).
  exists rs, o', w', rep. split; [reflexivity|]. split; [exact Hrep|exact Hlen].
Defined.

Section WrapperSent.
Variable env : Env.

Lemma invoke_agent_sent a x ctx o w res o' w' :
  Optimizer._invoke_agent env a (step_payload ctx x) (Some ctx) o w
  = (res, o', w') ->
  sent w' = sent w \/ sent w' = (sent w ++ [(Real, step_call ctx a x)])%list.
Proof.
  rewrite invoke_agent_eq. cbv zeta.
  destruct (store_fault env (store_requests w)).
  { intros H; inversion H; subst. now left. }
  destruct (live_entry _ _ w).
  { intros H; inversion H; subst. now left. }
  destruct (agent_reply env (sent w) Real _).
  2:{ intros H; inversion H; subst. now right. }
  destruct (store_fault env (S (store_requests w)));
    [|destruct (cache_ttl _ <=? 0)%Z];
    intros H; inversion H; subst; now right.
Qed.

Lemma step_probe_cases ids ctx i a r :
  step_probe ids ctx i a r = [] \/
  (i < length ids - 1 /\
   exists p, step_probe ids ctx i a r = [(Probe, probe_call ctx p)]).
Proof.
  unfold step_probe. destruct (Nat.ltb_spec i (length ids - 1)); [|now left].
  destruct (Router.should_preload _ _) as [[p|]|]; try now left.
  right. split; [assumption|]. now exists p.
Qed.

Lemma chain_step_sent ids ctx i a x o w res o' w' :
  Optimizer.chain_step env ids ctx i a x o w = (res, o', w') ->
  exists calls,
    sent w' = (sent w ++ calls)%list /\
    Forall (sent_by_step ctx a x) calls /\
    length (real_only calls) <= 1 /\
    length (probe_only calls) <= (if i <? length ids - 1 then 1 else 0).
Proof.
  intros Hs.
  destruct (chain_step_parts env ids ctx i a x o w) as (w1 & Ha & Hparts).
  destruct (await_preload_effect env a o w) as (w1' & Ha' & Hsent & _).
  rewrite Ha in Ha'. injection Ha' as <-.
  destruct (Optimizer._invoke_agent env a (step_payload ctx x) (Some ctx) _
                                    (count_monotonic w1))
    as [[[r|e] o2] w2] eqn:Ei;
    apply invoke_agent_sent in Ei; cbn [sent count_monotonic] in Ei;
    rewrite Hsent in Ei.
  - destruct Hparts as (ms & o3 & w3 & Hms & Hp & Hc). rewrite Hs in Hc.
    injection Hc as -> -> ->.
    destruct (preload_next_effect env ids ctx i a o2 (count_monotonic w2))
      as (p & Hp').
    rewrite Hp in Hp'. injection Hp' as -> ->.
    cbn [sent count_monotonic].
    destruct (step_probe_cases ids ctx i a (Optimizer.router o2))
      as [->|(Hi & q & ->)];
      destruct Ei as [->| ->].
    + exists []. rewrite !app_nil_r. repeat split; [constructor|simpl; lia|].
      destruct (_ <? _); simpl; lia.
    + exists [(Real, step_call ctx a x)]. rewrite app_nil_r.
      repeat split; [repeat constructor|simpl; lia|].
      destruct (_ <? _); simpl; lia.
    + exists [(Probe, probe_call ctx q)].
      repeat split; [repeat constructor; now exists q|simpl; lia|].
      destruct (Nat.ltb_spec i (length ids - 1)); simpl; lia.
    + exists [(Real, step_call ctx a x); (Probe, probe_call ctx q)].
      rewrite <- app_assoc.
      repeat split;
        [repeat constructor; now exists q|simpl; lia|].
      destruct (Nat.ltb_spec i (length ids - 1)); simpl; lia.
  - rewrite Hs in Hparts. injection Hparts as -> -> ->.
    destruct Ei as [->| ->].
    + exists []. rewrite app_nil_r. repeat split; [constructor|simpl; lia|].
      destruct (_ <? _); simpl; lia.
    + exists [(Real, step_call ctx a x)].
      repeat split; [repeat constructor|simpl; lia|].
      destruct (_ <? _); simpl; lia.
Qed.

Lemma probe_only_app h1 h2 :
  probe_only (h1 ++ h2) = (probe_only h1 ++ probe_only h2)%list.
Proof. unfold probe_only. now rewrite List.filter_app, map_app. Qed.

Lemma chain_loop_sent sid pre rest x results o w res o' w' :
  Optimizer.chain_loop env (pre ++ rest) [("session_id", sid)] (length pre)
                       rest x results o w
  = (res, o', w') ->
  exists calls,
    sent w' = (sent w ++ calls)%list /\
    Forall (call_of_session sid rest) calls /\
    length (real_only calls) <= length rest /\
    length (probe_only calls) <= length rest - 1.
Proof.
  revert pre x results o w.
  induction rest as [|a rest IH]; intros pre x results o w.
  - simpl. unfold ret. intros H; inversion H; subst.
    exists []. rewrite app_nil_r. repeat split; [constructor|simpl; lia..].
  - cbn [Optimizer.chain_loop]. unfold bind at 1.
    destruct (Optimizer.chain_step env (pre ++ a :: rest) _ (length pre) a x o w)
      as [[[r|e] o1] w1] eqn:Es;
      apply chain_step_sent in Es;
      destruct Es as (c1 & S1 & F1 & R1 & P1).
    + replace (pre ++ a :: rest)%list with ((pre ++ [a]) ++ rest)%list
        by (now rewrite <- app_assoc).
      replace (S (length pre)) with (length (pre ++ [a])%list)
        by (rewrite length_app; simpl; lia).
      intros Hl. apply IH in Hl. destruct Hl as (c2 & S2 & F2 & R2 & P2).
      exists (c1 ++ c2)%list. rewrite S2, S1, app_assoc.
      split; [reflexivity|]. split; [|split].
      * apply List.Forall_app. split.
        -- eapply List.Forall_impl; [|exact F1].
           intros [[|] c]; unfold sent_by_step, call_of_session; simpl.
           ++ intros ->. simpl. repeat split. now left.
           ++ intros [p ->]. simpl. repeat split.
        -- eapply List.Forall_impl; [|exact F2].
           intros [[|] c]; unfold call_of_session; simpl; intuition.
      * rewrite real_only_app, length_app. simpl. lia.
      * rewrite probe_only_app, length_app.
        rewrite length_app in P1. simpl in P1.
        destruct (Nat.ltb_spec (length pre) (length pre + S (length rest) - 1));
          destruct rest; simpl in *; lia.
    + intros H; inversion H; subst.
      exists c1. split; [exact S1|]. split; [|split].
      * eapply List.Forall_impl; [|exact F1].
        intros [[|] c]; unfold sent_by_step, call_of_session; simpl.
        -- intros ->. simpl. repeat split. now left.
        -- intros [p ->]. simpl. repeat split.
      * simpl. lia.
      * rewrite length_app in P1. simpl in P1.
        destruct (Nat.ltb_spec (length pre) (length pre + S (length rest) - 1));
          destruct rest; simpl in *; lia.
Qed.

(** X20.  Whether it returns or raises, a run only adds to what the
    agents were sent, and every call it adds carries the session
    identifier of the run (the defaults [default] and [preload] are never
    used) and the alias [TSTALIASID]; the chain itself sends at most one
    call per agent of the list, each to an agent of the list, and the
    warm-up sends at most one probe per agent but the last, each with the
    warm-up text. *)
Theorem run_chain_calls_carry_the_session (ids : list string) (x : string)
        (o : Optimizer.BedrockAgentOptimizer) (w : World) :
  let sid :=
    "chain-" +:+ str_of_int (int_of_float (wall_clock env (clock_reads w))) in
  let '(res, o', w') := Optimizer.run_chain env ids x o w in
  exists calls,
    sent w' = (sent w ++ calls)%list /\
    Forall (call_of_session sid ids) calls /\
    length (real_only calls) <= length ids /\
    length (probe_only calls) <= length ids - 1.
Proof.
  intros sid.
  destruct (Optimizer.run_chain env ids x o w) as [[res o'] w'] eqn:Hrun.
  unfold Optimizer.run_chain in Hrun.
  rewrite (bind_ok (lift (time_time env)) _ o w
                   (wall_clock env (clock_reads w)) o (count_clock w) eq_refl)
    in Hrun.
  apply (chain_loop_sent sid []) in Hrun. exact Hrun.
Qed.
End WrapperSent.

Lemma str_of_int_inj a b : str_of_int a = str_of_int b -> a = b.
Proof.
  unfold str_of_int. intros H. apply DecimalZ.to_int_inj.
  assert (Hn : forall z, Z.to_int z <> Decimal.Pos Decimal.Nil /\
                         Z.to_int z <> Decimal.Neg Decimal.Nil).
  { intros [|p|p]; simpl; split; try discriminate;
      intros E; injection E as E; exact (Unsigned.to_uint_nonnil _ E). }
  apply (f_equal NilZero.int_of_string) in H.
  rewrite !NilZero.isi in H by apply Hn. congruence.
Qed.

Lemma int_of_float_floor t :
  (0 <= t)%Q ->
  (inject_Z (int_of_float t) <= t)%Q /\ (t < inject_Z (int_of_float t) + 1)%Q.
Proof.
  destruct t as [n d]. unfold int_of_float, Qle, Qlt. simpl.
  intros H. rewrite Z.mul_1_r in H.
  rewrite Z.quot_div_nonneg by lia.
  pose proof (Z.mul_div_le n (Z.pos d) ltac:(lia)).
  pose proof (Z.mul_succ_div_gt n (Z.pos d) ltac:(lia)).
  split; nia.
Qed.

(** X21.  The session of a run is the second in which it starts: two
    runs have the same session context exactly when their readings of the
    clock have the same integer part, which for a reading that is not
    negative is the largest integer not above it; and [run_chain] is the
    loop over the agents in that context. *)
Theorem session_is_the_clock_second (t1 t2 : Q) :
  (session_context t1 = session_context t2
   <-> int_of_float t1 = int_of_float t2) /\
  ((0 <= t1)%Q ->
   (inject_Z (int_of_float t1) <= t1)%Q /\
   (t1 < inject_Z (int_of_float t1) + 1)%Q) /\
  (forall env ids x o w,
      Optimizer.run_chain env ids x o w
      = Optimizer.chain_loop env ids
          (session_context (wall_clock env (clock_reads w)))
          0 ids x [] o (count_clock w)).
Proof.
  split; [|split].
  - unfold session_context. split.
    + intros H. injection H as H. now apply str_of_int_inj.
    + now intros ->.
  - apply int_of_float_floor.
  - reflexivity.
Qed.

Section Failure.
Variable env : Env.

(** X22.  A failure of the agent is not caught: when the first step
    misses the cache and the agent raises, [run_chain] raises the same
    exception, having counted the miss and sent the call; nothing is
    written to the store and the router has learnt nothing. *)
Theorem agent_failure_aborts_the_chain (a : string) (rest : list string)
        (x : string) (e : exn)
        (o : Optimizer.BedrockAgentOptimizer) (w : World) :
  let ctx := session_context (wall_clock env (clock_reads w)) in
  store_fault env (store_requests w) = None ->
  live_entry (store_time env (store_requests w)) (step_key ctx a x) w = None ->
  agent_reply env (sent w) Real (step_call ctx a x) = Raise e ->
  exists o' w',
    Optimizer.run_chain env (a :: rest) x o w = (Raise e, o', w') /\
    redis w' = redis w /\
    store_requests w' = S (store_requests w) /\
    sent w' = (sent w ++ [(Real, step_call ctx a x)])%list /\
    Optimizer.cache o' = Cache.count_miss (Optimizer.cache o) /\
    Optimizer.router o' = Optimizer.router o.
Proof.
  intros ctx Hf Hl Ha.
  unfold Optimizer.run_chain.
  rewrite (bind_ok (lift (time_time env)) _ o w
                   (wall_clock env (clock_reads w)) o (count_clock w) eq_refl).
  fold (session_context (wall_clock env (clock_reads w))). fold ctx.
  cbn [Optimizer.chain_loop].
  destruct (chain_step_parts env (a :: rest) ctx 0 a x o (count_clock w))
    as (w1 & Haw & Hparts).
  destruct (await_preload_effect env a o (count_clock w))
    as (w1' & Haw' & S1 & S2 & S3 & _).
  rewrite Haw in Haw'. injection Haw' as <-.
  cbn [sent redis store_requests count_clock] in S1, S2, S3.
  rewrite invoke_agent_eq in Hparts. cbv zeta in Hparts.
  cbn [store_requests count_monotonic sent] in Hparts.
  change (live_entry ?t ?k (count_monotonic w1)) with (live_entry t k w1)
    in Hparts.
  assert (Hlive : forall t k, live_entry t k w1 = live_entry t k w)
    by (intros; unfold live_entry; now rewrite S2).
  rewrite S3, Hlive, Hf in Hparts.
  change (Cache._build_key a (step_payload ctx x) (Some ctx))
    with (step_key ctx a x) in Hparts.
  rewrite Hl, S1 in Hparts.
  change (mkCall a "TSTALIASID" _ _) with (step_call ctx a x) in Hparts.
  rewrite Ha in Hparts.
  rewrite (bind_raise _ _ _ _ _ _ _ Hparts).
  eexists _, _. split; [reflexivity|].
  simpl. repeat split; congruence.
Qed.

(** X23.  The warm-up path never raises.  The probe task returns
    whatever the agent answers and only adds its call to what was sent;
    waiting for a pending warm-up returns whatever the future holds and
    whether or not it is done in time, and forgets that warm-up and no
    other; recording the transition and submitting the next probe returns
    for every state of the router, leaving the cache, the store and the
    calls of the chain alone. *)
Theorem warm_up_never_raises (ids : list string)
        (ctx : list (string * string)) (i : nat) (a p : string)
        (o : Optimizer.BedrockAgentOptimizer) (w : World) :
  (exists w',
      Optimizer._preload_context env p ctx w = (Ok tt, w') /\
      sent w' = (sent w ++ [(Probe, probe_call ctx p)])%list /\
      redis w' = redis w /\ store_requests w' = store_requests w) /\
  (exists o' w',
      Optimizer.await_preload env a o w = (Ok tt, o', w') /\
      Optimizer._preloaded o' !! a = None /\
      (forall b, b <> a ->
                 Optimizer._preloaded o' !! b = Optimizer._preloaded o !! b) /\
      sent w' = sent w /\ redis w' = redis w) /\
  (exists o' w',
      Optimizer.preload_next env ids ctx i a o w = (Ok tt, o', w') /\
      Optimizer.cache o' = Optimizer.cache o /\
      redis w' = redis w /\ real_calls w' = real_calls w).
Proof.
  split; [|split].
  - unfold Optimizer._preload_context, invoke_agent.
    fold (probe_call ctx p).
    destruct (agent_reply env (sent w) Probe (probe_call ctx p));
      eexists; (split; [reflexivity|]); repeat split.
  - destruct (await_preload_effect env a o w) as (w1 & Ha & S1 & S2 & _).
    eexists _, w1. split; [exact Ha|]. cbn [Optimizer._preloaded Optimizer.set_preloaded].
    split; [apply lookup_delete_eq|].
    split; [intros b Hb; now apply lookup_delete_ne|]. now split.
  - destruct (preload_next_effect env ids ctx i a o w) as (q & Hq).
    eexists _, _. split; [exact Hq|]. simpl. repeat split.
    unfold real_calls. cbn [sent]. rewrite real_only_app.
    destruct (step_probe_cases ids ctx i a (Optimizer.router o))
      as [->|(_ & r & ->)]; simpl; apply app_nil_r.
Qed.
End Failure.

Lemma agent_failure_aborts_the_chain_witness :
  exists o' w',
    Optimizer.run_chain env_agent_down Sample.chain "hello"
                        (Optimizer.init None) Sample.cold
    = (Raise ClientError, o', w') /\
    redis w' = ∅ /\ Cache._misses (Optimizer.cache o') = 1.
Proof.
  destruct (agent_failure_aborts_the_chain env_agent_down "classifier"
              ["retriever"; "summarizer"] "hello" ClientError
              (Optimizer.init None) Sample.cold
              eq_refl (live_entry_empty _ _ Sample.cold eq_refl) eq_refl)
    as (o' & w' & Hrun & Hredis & _ & _ & Hcache & _).
  exists o', w'. split; [exact Hrun|].
  split; [exact Hredis|]. rewrite Hcache. reflexivity.
Defined.

Lemma py_round_nonneg x d : (0 <= x)%Q -> (0 <= py_round x d)%Q.
Proof.
  intros Hx. unfold py_round.
  set (scale := (10 ^ Z.of_nat d)%Z).
  assert (Hs : (0 < scale)%Z) by (subst scale; apply Z.pow_pos_nonneg; lia).
  set (y := (x * inject_Z scale)%Q).
  assert (Hy : (0 <= y)%Q).
  { subst y. apply Qmult_le_0_compat; [exact Hx|].
    change 0%Q with (inject_Z 0). rewrite <- Zle_Qle. lia. }
  assert (Hlo : (0 <= Qfloor y)%Z).
  { change 0%Z with (Qfloor 0). now apply Qfloor_resp_le. }
  set (n := if Qle_bool 1 _ then _ else _).
  assert (Hn : (0 <= n)%Z).
  { subst n. destruct (Qle_bool _ _); [|exact Hlo].
    destruct (Qeq_bool _ _); [destruct (Z.even _)|]; lia. }
  rewrite Qred_correct. unfold Qle. simpl. lia.
Qed.

Section Latency.
Variable env : Env.

Lemma chain_step_latency ids ctx i a x o w r o' w' :
  Optimizer.chain_step env ids ctx i a x o w = (Ok r, o', w') ->
  latency_ms r = Some (step_latency env (monotonic_reads w)) /\
  monotonic_reads w' = S (S (monotonic_reads w)).
Proof.
  intros Hs.
  destruct (chain_step_parts env ids ctx i a x o w) as (w1 & Ha & Hparts).
  destruct (await_preload_effect env a o w)
    as (w1' & Ha' & _ & _ & _ & _ & Hm & _).
  rewrite Ha in Ha'. injection Ha' as <-.
  destruct (Optimizer._invoke_agent env a (step_payload ctx x) (Some ctx) _
                                    (count_monotonic w1))
    as [[[r1|e] o2] w2] eqn:Ei.
  2:{ rewrite Hs in Hparts. discriminate. }
  apply invoke_agent_effect in Ei.
  destruct Ei as (_ & _ & _ & _ & _ & Hm2 & _).
  cbn [monotonic_reads count_monotonic] in Hm2.
  destruct Hparts as (ms & o3 & w3 & Hms & Hp & Hc). rewrite Hs in Hc.
  injection Hc as -> -> ->.
  destruct (preload_next_effect env ids ctx i a o2 (count_monotonic w2))
    as (p & Hp').
  rewrite Hp in Hp'. injection Hp' as -> ->.
  cbn [monotonic_reads count_monotonic Optimizer.with_latency latency_ms].
  rewrite Hms, Hm2, Hm. split; reflexivity.
Qed.

Lemma chain_loop_latency ids ctx i rest x results o w rs o' w' :
  Optimizer.chain_loop env ids ctx i rest x results o w = (Ok rs, o', w') ->
  map latency_ms rs
  = (map latency_ms results
     ++ map (fun j => Some (step_latency env (monotonic_reads w + 2 * j)))
            (seq 0 (length rest)))%list /\
  monotonic_reads w' = monotonic_reads w + 2 * length rest.
Proof.
  revert i x results o w.
  induction rest as [|a rest IH]; intros i x results o w.
  - simpl. unfold ret. intros H; inversion H; subst.
    rewrite app_nil_r. split; [reflexivity|lia].
  - cbn [Optimizer.chain_loop]. intros H.
    apply bind_ok_inv in H. destruct H as (r & o1 & w1 & Hs & Hl).
    apply chain_step_latency in Hs. destruct Hs as [Hr Hm].
    apply IH in Hl. destruct Hl as [Hl Hm'].
    rewrite Hl, Hm', Hm, map_app. simpl map at 2. rewrite Hr, <- app_assoc.
    split; [|simpl; lia].
    f_equal. cbn [length seq map]. rewrite Nat.mul_0_r, Nat.add_0_r.
    cbn [app]. f_equal.
    rewrite <- seq_shift, map_map. apply map_ext.
    intros j. do 2 f_equal. lia.
Qed.

End Latency.



(** ** The agent list of the configuration and of [main] *)

Lemma split_on_length sep s :
  length (split_on sep s) = S (occurrences sep s).
Proof.
  induction s as [|c s IH]; [reflexivity|]. simpl.
  destruct (Ascii.eqb c sep); simpl; [now rewrite IH|].
  destruct (split_on sep s); simpl in *; lia.
Qed.

Lemma split_on_join sep s :
  Cache.join (String sep EmptyString) (split_on sep s) = s.
Proof.
  induction s as [|c s IH]; [reflexivity|]. cbn [split_on].
  pose proof (split_on_length sep s) as Hl.
  destruct (split_on sep s) as [|p ps]; [discriminate|]. clear Hl.
  destruct (Ascii.eqb_spec c sep) as [->|Hne].
  - change (Cache.join ?x (EmptyString :: p :: ps))
      with (EmptyString +:+ x +:+ Cache.join x (p :: ps)).
    rewrite IH. reflexivity.
  - rewrite <- IH. destruct ps; reflexivity.
Qed.

Lemma split_on_pieces sep s :
  Forall (fun piece => occurrences sep piece = 0) (split_on sep s).
Proof.
  induction s as [|c s IH]; [repeat constructor|]. simpl.
  destruct (Ascii.eqb c sep) eqn:E.
  - constructor; [reflexivity|exact IH].
  - destruct (split_on sep s) as [|p ps]; [repeat constructor; simpl; now rewrite E|].
    inversion IH; subst. constructor; [|assumption].
    simpl. now rewrite E.
Qed.

Lemma split_on_clean sep s :
  occurrences sep s = 0 -> split_on sep s = [s].
Proof.
  induction s as [|c s IH]; [reflexivity|]. simpl.
  destruct (Ascii.eqb c sep); [discriminate|]. simpl.
  intros H. now rewrite IH.
Qed.

Lemma split_on_app sep s t :
  occurrences sep s = 0 ->
  split_on sep (s +:+ String sep t) = s :: split_on sep t.
Proof.
  induction s as [|c s IH]; simpl.
  - now rewrite Ascii.eqb_refl.
  - destruct (Ascii.eqb c sep); [discriminate|]. simpl.
    intros H. now rewrite IH.
Qed.

(** X25.  Splitting a text at a separator gives one piece more than
    the text has separators, no piece holds the separator, and joining the
    pieces with it gives the text back.  So the default [agent_ids] of the
    configuration is never the empty list: with the environment variable
    unset it is the list of one empty identifier. *)
Theorem split_keeps_every_piece (sep : ascii) (s : string) :
  length (split_on sep s) = S (occurrences sep s) /\
  Cache.join (String sep EmptyString) (split_on sep s) = s /\
  Forall (fun piece => occurrences sep piece = 0) (split_on sep s) /\
  agent_ids_of_env None = [EmptyString] /\
  agent_ids default_config = agent_ids_of_env None /\
  (forall value, exists first others,
      agent_ids_of_env value = first :: others).
Proof.
  split; [apply split_on_length|].
  split; [apply split_on_join|].
  split; [apply split_on_pieces|].
  split; [reflexivity|]. split; [reflexivity|].
  intros value. unfold agent_ids_of_env.
  pose proof (split_on_length "," (default EmptyString value)) as Hl.
  destruct (split_on "," (default EmptyString value)) as [|first others];
    [discriminate|eauto].
Qed.

Lemma lstrip_no_lead s : starts_space (lstrip s) = false.
Proof.
  induction s as [|c s IH]; [reflexivity|]. simpl.
  destruct (is_space c) eqn:E; [exact IH|]. simpl. exact E.
Qed.

Lemma lstrip_id s : starts_space s = false -> lstrip s = s.
Proof. destruct s as [|c s]; simpl; [reflexivity|]. now intros ->. Qed.

Lemma rstrip_no_trail s : ends_space (rstrip s) = false.
Proof.
  induction s as [|c s IH]; [reflexivity|]. simpl.
  destruct (rstrip s) as [|d t] eqn:E.
  - destruct (is_space c) eqn:Ec; simpl; [reflexivity|exact Ec].
  - exact IH.
Qed.

Lemma rstrip_id s : ends_space s = false -> rstrip s = s.
Proof.
  induction s as [|c s IH]; [reflexivity|]. simpl.
  destruct s as [|d s].
  - simpl. now intros ->.
  - intros H. rewrite (IH H). reflexivity.
Qed.

Lemma rstrip_keeps_lead s :
  starts_space s = false -> starts_space (rstrip s) = false.
Proof.
  destruct s as [|c s]; [reflexivity|]. simpl. intros Hc.
  destruct (rstrip s); [rewrite Hc|]; simpl; auto.
Qed.

Lemma strip_trimmed s : trimmed (strip s).
Proof.
  unfold trimmed, strip at 1.
  rewrite lstrip_id.
  - apply rstrip_id, rstrip_no_trail.
  - apply rstrip_keeps_lead, lstrip_no_lead.
Qed.

Lemma trimmed_ends s :
  trimmed s <-> starts_space s = false /\ ends_space s = false.
Proof.
  split.
  - intros <-. split.
    + apply rstrip_keeps_lead, lstrip_no_lead.
    + apply rstrip_no_trail.
  - intros [H1 H2]. unfold trimmed, strip.
    rewrite (lstrip_id _ H1). now apply rstrip_id.
Qed.

Lemma lstrip_occurrences c s : occurrences c (lstrip s) <= occurrences c s.
Proof.
  induction s as [|d s IH]; [reflexivity|]. simpl.
  destruct (is_space d); simpl; lia.
Qed.

Lemma rstrip_occurrences c s : occurrences c (rstrip s) <= occurrences c s.
Proof.
  induction s as [|d s IH]; [reflexivity|]. simpl.
  destruct (rstrip s) as [|e t]; [destruct (is_space d)|]; simpl in *; lia.
Qed.

(** X26.  The agent list that [main] reads from its [--agents] argument
    has one identifier more than the argument has commas, each without
    comma and without white space at either end; an argument without comma
    is one identifier, and the empty argument is the list of one empty
    identifier, never the empty list. *)
Theorem parse_agents_gives_clean_identifiers (agents : string) :
  length (parse_agents agents) = S (occurrences "," agents) /\
  Forall (fun a => trimmed a /\ occurrences "," a = 0) (parse_agents agents) /\
  (occurrences "," agents = 0 -> parse_agents agents = [strip agents]) /\
  parse_agents EmptyString = [EmptyString].
Proof.
  unfold parse_agents. split; [now rewrite length_map, split_on_length|].
  split; [|split; [|reflexivity]].
  - apply List.Forall_map.
    eapply List.Forall_impl; [|apply split_on_pieces].
    intros piece Hp. cbv beta in Hp. split; [apply strip_trimmed|].
    unfold strip.
    pose proof (rstrip_occurrences "," (lstrip piece)).
    pose proof (lstrip_occurrences "," piece). lia.
  - intros H. now rewrite split_on_clean.
Qed.

Lemma occurrences_app c s t :
  occurrences c (s +:+ t) = occurrences c s + occurrences c t.
Proof. induction s as [|d s IH]; simpl; [reflexivity|]. rewrite IH. lia. Qed.

Lemma string_app_assoc s t u : (s +:+ t) +:+ u = s +:+ t +:+ u.
Proof.
  induction s as [|c s IH]; [reflexivity|].
  change (String c ((s +:+ t) +:+ u) = String c (s +:+ t +:+ u)).
  now rewrite IH.
Qed.

Lemma parse_join_lead (lead : string) (ids : list string) :
  lead = EmptyString \/ lead = " " ->
  ids <> [] ->
  Forall (fun a => trimmed a /\ occurrences "," a = 0) ids ->
  map strip (split_on "," (lead +:+ Cache.join ", " ids)) = ids.
Proof.
  intros Hlead Hne Hall. revert lead Hlead.
  induction Hall as [|a ids [Ha Hc] Hall IH]; intros lead Hlead; [congruence|].
  assert (Hs : strip (lead +:+ a) = a).
  { destruct Hlead as [-> | ->]; [exact Ha|].
    unfold strip. simpl. exact Ha. }
  assert (Hl : occurrences "," (lead +:+ a) = 0).
  { rewrite occurrences_app, Hc. destruct Hlead as [-> | ->]; reflexivity. }
  destruct ids as [|b ids].
  - cbn [Cache.join]. rewrite split_on_clean by exact Hl. simpl. now rewrite Hs.
  - change (Cache.join ", " (a :: b :: ids))
      with (a +:+ ", " +:+ Cache.join ", " (b :: ids)).
    replace (lead +:+ a +:+ ", " +:+ Cache.join ", " (b :: ids))
      with ((lead +:+ a) +:+ String "," (" " +:+ Cache.join ", " (b :: ids))).
    + rewrite split_on_app by exact Hl. cbn [map]. rewrite Hs. f_equal.
      apply IH; [discriminate|now right].
    + now rewrite string_app_assoc.
Qed.

(** X27.  Agent identifiers without comma and without white space at
    either end are read back by [main] as they were written, whether they
    are separated by a comma or by a comma and a blank. *)
Theorem parse_agents_round_trip (ids : list string) :
  ids <> [] ->
  Forall (fun a => trimmed a /\ occurrences "," a = 0) ids ->
  parse_agents (Cache.join ", " ids) = ids /\
  parse_agents (Cache.join "," ids) = ids.
Proof.
  intros Hne Hall. split.
  - apply (parse_join_lead EmptyString ids); auto.
  - unfold parse_agents.
    assert (H : ids <> [] ->
                map strip (split_on "," (Cache.join "," ids)) = ids).
    { clear Hne. induction Hall as [|a ids [Ha Hc] Hall IH]; [congruence|]. intros _.
      destruct ids as [|b ids].
      - cbn [Cache.join]. rewrite split_on_clean by exact Hc. simpl.
        now rewrite Ha.
      - change (Cache.join "," (a :: b :: ids))
          with (a +:+ String "," (Cache.join "," (b :: ids))).
        rewrite split_on_app by exact Hc. cbn [map]. rewrite Ha. f_equal.
        apply IH. discriminate. }
    exact (H Hne).
Qed.

Lemma parse_agents_round_trip_witness :
  parse_agents "classifier, retriever, summarizer" = Sample.chain.
Proof.
  apply (parse_agents_round_trip Sample.chain).
  - discriminate.
  - repeat constructor.
Defined.

(** X28.  [main] raises only what [run_chain] raises: making the report
    never fails.  When the chain returns, the report has one entry per
    identifier of the argument, in the order of the results, and the
    optimizer, built fresh, has recorded one transition per comma and made
    one lookup per identifier. *)
Theorem main_fails_only_with_the_chain (env : Env) (agents input : string)
        (w : World) :
  let n := S (occurrences "," agents) in
  match main env agents input w with
  | (Ok rep, w') =>
      exists rs o',
        Optimizer.run_chain env (parse_agents agents) input
                            (Optimizer.init None) w = (Ok rs, o', w') /\
        map fst (Optimizer.per_agent rep) = map agent_id rs /\
        length (Optimizer.per_agent rep) = n /\
        Router.total_traces (Optimizer.report_router rep) = n - 1 /\
        Cache.hits (Optimizer.report_cache rep)
        + Cache.misses (Optimizer.report_cache rep) = n
  | (Raise e, w') =>
      exists o',
        Optimizer.run_chain env (parse_agents agents) input
                            (Optimizer.init None) w = (Raise e, o', w')
  end.
Proof.
  intros n. unfold main.
  destruct (Optimizer.run_chain env (parse_agents agents) input
                                (Optimizer.init None) w)
    as [[[rs|e] o'] w'] eqn:Hrun; [|eauto].
  apply run_chain_latencies in Hrun.
  destruct Hrun as (Hlen & _ & (l & Hl & Hll) & Ht & Hc).
  assert (Hn : length (parse_agents agents) = n).
  { unfold parse_agents. now rewrite length_map, split_on_length. }
  rewrite Hn in *.
  unfold Optimizer.report. rewrite Hl. exists rs, o'. split; [reflexivity|].
  cbn [Optimizer.per_agent Optimizer.report_router Optimizer.report_cache
       Router.stats Router.total_traces Cache.stats Cache.hits Cache.misses].
  split; [|split; [|split; [exact Ht|exact Hc]]].
  - apply combine_fst. now rewrite length_map, Hll.
  - rewrite length_combine, length_map, Hll, Hlen. apply Nat.min_id.
Qed.
